(** * common-helper: a shallow embedding of [dist/index.js]

    The helpers of the library are embedded function by function.
    JavaScript strings are sequences of UTF-16 code units, numbers that
    the helpers use as lengths, indices and delays are integers ([Z]),
    [Math.random()] is an exact rational in [[0,1)] read from a stream of
    draws, timers live in an explicit queue owned by the event loop. *)

From Stdlib Require Import Ascii String.
From Stdlib Require Import List ZArith NArith QArith Qround Bool Lia.
From Stdlib Require Import Permutation.
Import ListNotations.

Set Implicit Arguments.
Close Scope Q_scope.

(* ===================================================================== *)
(** ** JavaScript strings *)
(* ===================================================================== *)

(** A UTF-16 code unit and a string of them; [length] is [String.length]
    of JavaScript. *)
Definition code_unit := N.
Definition jsstring := list code_unit.

(** Literals: every character of a Rocq string is one code unit. *)
Fixpoint str (s : string) : jsstring :=
  match s with
  | EmptyString => []
  | String c r => N_of_ascii c :: str r
  end.

Definition cu_eqb (a b : code_unit) : bool := N.eqb a b.
Arguments cu_eqb (a b)%_N.

Definition in_range (lo hi c : code_unit) : bool :=
  (N.leb lo c && N.leb c hi)%bool.
Arguments in_range (lo hi c)%_N.

Definition cu_mem (c : code_unit) (set : jsstring) : bool :=
  existsb (cu_eqb c) set.

Fixpoint jsstring_eqb (a b : jsstring) : bool :=
  match a, b with
  | [], [] => true
  | x :: a', y :: b' => (cu_eqb x y && jsstring_eqb a' b')%bool
  | _, _ => false
  end.

(** Character classes of the regular expressions of the source. *)
Definition is_lower (c : code_unit) : bool := in_range 97 122 c.   (* [a-z] *)
Definition is_upper (c : code_unit) : bool := in_range 65 90 c.    (* [A-Z] *)
Definition is_digit (c : code_unit) : bool := in_range 48 57 c.    (* \d    *)

(** [\s]: WhiteSpace and LineTerminator code points of ECMAScript. *)
Definition is_space (c : code_unit) : bool :=
  (in_range 9 13 c || cu_eqb c 32 || cu_eqb c 160 || cu_eqb c 5760
   || in_range 8192 8202 c || cu_eqb c 8232 || cu_eqb c 8233
   || cu_eqb c 8239 || cu_eqb c 8287 || cu_eqb c 12288 || cu_eqb c 65279)%bool.

(** What [.] refuses (no [s] flag): the line terminators. *)
Definition is_line_terminator (c : code_unit) : bool :=
  (cu_eqb c 10 || cu_eqb c 13 || cu_eqb c 8232 || cu_eqb c 8233)%bool.

Definition char_space : code_unit := 32%N.  (* ' ' *)
Definition char_dash : code_unit := 45%N.   (* '-' *)
Definition char_star : code_unit := 42%N.   (* '*' *)

(** [s.replace(/\s+/g, '')]: every run of white space is deleted. *)
Definition remove_whitespace (s : jsstring) : jsstring :=
  filter (fun c => negb (is_space c)) s.

(** [s.replace(/-/g, '')]. *)
Definition remove_dashes (s : jsstring) : jsstring :=
  filter (fun c => negb (cu_eqb c char_dash)) s.

(** [s.trim()]: white space is taken off both ends. *)
Fixpoint trim_start (s : jsstring) : jsstring :=
  match s with
  | c :: r => if is_space c then trim_start r else s
  | [] => []
  end.

Definition trim (s : jsstring) : jsstring :=
  rev (trim_start (rev (trim_start s))).

(** Relative index of [slice]: a negative index counts from the end, and
    the result is clamped to [[0, len]]. *)
Definition slice_index (len i : Z) : Z :=
  if (i <? 0)%Z then Z.max (len + i) 0 else Z.min i len.

(** [s.slice(from, to)]. *)
Definition slice (s : jsstring) (from to : Z) : jsstring :=
  let len := Z.of_nat (length s) in
  let k := slice_index len from in
  let final := slice_index len to in
  firstn (Z.to_nat (final - k)) (skipn (Z.to_nat k) s).

(** [s.slice(from)]: the end defaults to the length. *)
Definition slice_from (s : jsstring) (from : Z) : jsstring :=
  slice s from (Z.of_nat (length s)).

(** [c.repeat(n)] for a one-character string. *)
Definition repeat_char (c : code_unit) (n : nat) : jsstring := repeat c n.

(* ===================================================================== *)
(** ** Timers of the event loop *)
(* ===================================================================== *)

Section EventLoop.

(** What the callback handed to [setTimeout] does when it fires. *)
Variable Task : Type.

Record timer := Timer { timer_id : nat; timer_due : Z; timer_task : Task }.

(** The clock in milliseconds, the next timer handle, the pending timers. *)
Record event_loop := EventLoop { now : Z; next_id : nat; queue : list timer }.

Definition loop_start : event_loop :=
  {| now := 0; next_id := 1; queue := [] |}.

(** [setTimeout(task, delay)]: a negative delay counts as 0; the handle
    of the new timer is returned. *)
Definition setTimeout (task : Task) (delay : Z) (l : event_loop)
  : nat * event_loop :=
  (next_id l,
   {| now := now l;
      next_id := S (next_id l);
      queue := queue l ++ [Timer (next_id l) (now l + Z.max 0 delay) task] |}).

(** [clearTimeout(id)]: an [undefined] handle, or the handle of a timer
    that fired already, clears nothing. *)
Definition clearTimeout (id : option nat) (l : event_loop) : event_loop :=
  match id with
  | None => l
  | Some i =>
      {| now := now l;
         next_id := next_id l;
         queue := filter (fun t => negb (Nat.eqb (timer_id t) i)) (queue l) |}
  end.

(** Timers fire by due time, timers of one due time in the order of
    their creation. *)
Fixpoint insert_by_due (t : timer) (l : list timer) : list timer :=
  match l with
  | [] => [t]
  | u :: r =>
      if (timer_due t <=? timer_due u)%Z then t :: l
      else u :: insert_by_due t r
  end.

Definition firing_order (l : list timer) : list timer :=
  fold_right insert_by_due [] l.

Definition is_due (t : Z) (x : timer) : bool := (timer_due x <=? t)%Z.

(** Control returns to the event loop for [d] milliseconds: the tasks of
    the timers that came due, in firing order, and the loop afterwards.
    No callback of this library sets or clears a timer, so the timers
    that fire are those pending when the wait begins. *)
Definition elapse (d : Z) (l : event_loop) : list Task * event_loop :=
  let t := (now l + Z.max 0 d)%Z in
  (map timer_task (firing_order (filter (is_due t) (queue l))),
   {| now := t;
      next_id := next_id l;
      queue := filter (fun x => negb (is_due t x)) (queue l) |}).

End EventLoop.

(* ===================================================================== *)
(** ** Performance helpers: debounce and throttle *)
(* ===================================================================== *)

Section RateLimiters.

(** The arguments of one invocation of the wrapped function. *)
Variable Args : Type.

(** What happens to a wrapper: it is invoked, or time passes with the
    event loop in control. *)
Inductive event :=
  | Call (args : Args)
  | Wait (d : Z).

(** *** debounce *)

(** The closure [debounce(func, delay)] returns: its variable
    [timeoutId], the event loop holding its timers (the task of a timer
    is [() => func(...args)], kept as the captured [args]) and the
    executions of [func] so far, oldest first. *)
Record debounced := Debounced {
  d_loop : event_loop Args;
  timeoutId : option nat;
  d_executed : list Args
}.

Definition debounce_init : debounced :=
  {| d_loop := loop_start Args; timeoutId := None; d_executed := [] |}.

(** The wrapper: [clearTimeout(timeoutId);
    timeoutId = setTimeout(() => func(...args), delay)]. *)
Definition debounce (delay : Z) (args : Args) (w : debounced) : debounced :=
  let l1 := clearTimeout (timeoutId w) (d_loop w) in
  let (id, l2) := setTimeout args delay l1 in
  {| d_loop := l2; timeoutId := Some id; d_executed := d_executed w |}.

(** Time passes: each timer that fires executes [func] with its
    captured arguments. *)
Definition debounce_wait (d : Z) (w : debounced) : debounced :=
  let (fired, l) := elapse d (d_loop w) in
  {| d_loop := l; timeoutId := timeoutId w;
     d_executed := d_executed w ++ fired |}.

Definition debounce_step (delay : Z) (w : debounced) (e : event) : debounced :=
  match e with
  | Call args => debounce delay args w
  | Wait d => debounce_wait d w
  end.

Definition debounce_run (delay : Z) (es : list event) (w : debounced)
  : debounced :=
  fold_left (debounce_step delay) es w.

(** *** Bursts *)

(** [paced true delay since es]: scanning [es], the time waited since the
    latest call stays below [delay] at every wait. With [false] the time
    is counted from the start of [es] and calls do not reset it. *)
Fixpoint paced (reset : bool) (delay since : Z) (es : list event) : Prop :=
  match es with
  | [] => True
  | Call _ :: r => paced reset delay (if reset then 0 else since)%Z r
  | Wait d :: r =>
      (since + Z.max 0 d < delay)%Z /\ paced reset delay (since + Z.max 0 d)%Z r
  end.

(** Time waited since the latest call of [es] ([since] when there is none). *)
Fixpoint quiet (since : Z) (es : list event) : Z :=
  match es with
  | [] => since
  | Call _ :: r => quiet 0%Z r
  | Wait d :: r => quiet (since + Z.max 0 d)%Z r
  end.

(** Arguments of the latest call of [es] ([a] when there is none). *)
Fixpoint last_call (a : Args) (es : list event) : Args :=
  match es with
  | [] => a
  | Call b :: r => last_call b r
  | Wait _ :: r => last_call a r
  end.

(** Total time waited in [es]. *)
Definition waited (es : list event) : Z :=
  fold_right (fun e acc => match e with Call _ => acc | Wait d => Z.max 0 d + acc end)%Z 0%Z es.

End RateLimiters.

Arguments Call {Args} args.
Arguments Wait {Args} d.
Arguments debounce_init {Args}.

(** *** throttle *)

Section Throttle.

Variable Args : Type.

(** What one execution of [func] does, as far as the wrapper can tell:
    it returns, it throws, or it invokes the wrapper itself with [args]
    and then goes on as [rest]; [inner] is what [func] does if that
    invocation executes it. (An exception of the inner invocation that
    [func] does not catch is a [rest] that throws.) *)
Inductive behaviour :=
  | Returns
  | Throws
  | Reenters (args : Args) (inner rest : behaviour).

(** How a call ends: it returns, or an exception leaves it. *)
Inductive outcome := Normal | Abrupt.

(** The closure [throttle(func, limit)] returns: its variable
    [inThrottle] ([undefined] at first, which is falsy), the event loop
    (the task of every timer is [() => (inThrottle = false)]) and the
    executions of [func] so far, in the order they began. *)
Record throttled := Throttled {
  t_loop : event_loop unit;
  inThrottle : bool;
  t_executed : list Args
}.

Definition throttle_init : throttled :=
  {| t_loop := loop_start unit; inThrottle := false; t_executed := [] |}.

(** [func(...args)] is entered. *)
Definition enter (args : Args) (w : throttled) : throttled :=
  {| t_loop := t_loop w; inThrottle := inThrottle w;
     t_executed := t_executed w ++ [args] |}.

(** [inThrottle = true; setTimeout(() => (inThrottle = false), limit)]. *)
Definition shut (limit : Z) (w : throttled) : throttled :=
  let (_, l) := setTimeout tt limit (t_loop w) in
  {| t_loop := l; inThrottle := true; t_executed := t_executed w |}.

(** The wrapper: [if (!inThrottle) { func(...args); inThrottle = true;
    setTimeout(() => (inThrottle = false), limit); }], where [run] is
    what [func(...args)] does. The two statements after the call are
    reached only when the call returns: an exception leaves the wrapper
    with the gate as [func] left it. *)
Definition throttle_body (limit : Z) (run : throttled -> throttled * outcome)
    (args : Args) (w : throttled) : throttled * outcome :=
  if inThrottle w then (w, Normal)
  else
    match run (enter args w) with
    | (w1, Normal) => (shut limit w1, Normal)
    | (w1, Abrupt) => (w1, Abrupt)
    end.

(** One execution of [func] that behaves as [b]: its invocations of the
    wrapper go through the wrapper. *)
Fixpoint perform (limit : Z) (b : behaviour) (w : throttled)
  : throttled * outcome :=
  match b with
  | Returns => (w, Normal)
  | Throws => (w, Abrupt)
  | Reenters args inner rest =>
      perform limit rest
        (fst (throttle_body limit (perform limit inner) args w))
  end.

(** The wrapper invoked with [args], [func] behaving as [b] if it is
    executed. *)
Definition throttle (limit : Z) (args : Args) (b : behaviour) (w : throttled)
  : throttled * outcome :=
  throttle_body limit (perform limit b) args w.

(** Time passes: each timer that fires resets [inThrottle]. *)
Definition throttle_wait (d : Z) (w : throttled) : throttled :=
  let (fired, l) := elapse d (t_loop w) in
  {| t_loop := l;
     inThrottle := fold_left (fun _ _ => false) fired (inThrottle w);
     t_executed := t_executed w |}.

(** An invocation by the host (an exception goes back to it and the run
    goes on), or a wait. *)
Definition throttle_step (limit : Z) (w : throttled)
    (e : event (Args * behaviour)) : throttled :=
  match e with
  | Call (args, b) => fst (throttle limit args b w)
  | Wait d => throttle_wait d w
  end.

Definition throttle_run (limit : Z) (es : list (event (Args * behaviour)))
    (w : throttled) : throttled :=
  fold_left (throttle_step limit) es w.

End Throttle.

Arguments Returns {Args}.
Arguments Throws {Args}.
Arguments throttle_init {Args}.

(* ===================================================================== *)
(** ** Validation helpers *)
(* ===================================================================== *)

(** *** isValidPassword *)

(** [[@$!%*?&]]. *)
Definition is_special (c : code_unit) : bool := cu_mem c (str "@$!%*?&").

(** [[A-Za-z\d@$!%*?&]]. *)
Definition is_password_char (c : code_unit) : bool :=
  (is_upper c || is_lower c || is_digit c || is_special c)%bool.

(** The lookahead [(?=.*C)] tried at the start of the input: a code unit
    of class [C] comes after a run, possibly empty, of code units that
    [.] accepts. *)
Fixpoint lookahead (cls : code_unit -> bool) (s : jsstring) : bool :=
  match s with
  | [] => false
  | c :: r => (cls c || (negb (is_line_terminator c) && lookahead cls r))%bool
  end.

(** [^(?=.*[a-z])(?=.*[A-Z])(?=.*\d)(?=.*[@$!%*?&])[A-Za-z\d@$!%*?&]{minLength,}$]
    tested against [password]. [minLength] is spliced into the pattern;
    it is a natural number here. *)
Definition isValidPassword (password : jsstring) (minLength : nat) : bool :=
  (lookahead is_lower password
   && lookahead is_upper password
   && lookahead is_digit password
   && lookahead is_special password
   && (forallb is_password_char password
       && Nat.leb minLength (length password)))%bool.

(** The default of the parameter [minLength]. *)
Definition isValidPassword_minLength : nat := 8.

(** *** isValidCreditCard *)

(** A JavaScript number as far as the checksum loop goes: an integer, or
    [NaN] ([None]). *)
Definition number := option Z.

Definition num_add (a b : number) : number :=
  match a, b with
  | Some x, Some y => Some (x + y)%Z
  | _, _ => None
  end.

Definition num_gt (a : number) (k : Z) : bool :=
  match a with
  | Some x => (k <? x)%Z
  | None => false
  end.

Definition num_map (f : Z -> Z) (a : number) : number :=
  match a with
  | Some x => Some (f x)
  | None => None
  end.

(** [parseInt] of a one-character string. *)
Definition parseInt (c : code_unit) : number :=
  if is_digit c then Some (Z.of_N c - 48)%Z else None.

(** The body of the [for] loop, run over the characters from the last
    one to the first one, on the variables [sum] and [isEven]. *)
Fixpoint luhn_loop (from_right : jsstring) (sum : number) (isEven : bool)
  : number :=
  match from_right with
  | [] => sum
  | c :: r =>
      let digit := parseInt c in
      let digit :=
        if isEven then
          let digit := num_map (fun d => d * 2)%Z digit in
          if num_gt digit 9 then num_map (fun d => d - 9)%Z digit else digit
        else digit in
      luhn_loop r (num_add sum digit) (negb isEven)
  end.

(** [/^\d{13,19}$/.test(cleaned)]. *)
Definition is_card_shape (cleaned : jsstring) : bool :=
  (forallb is_digit cleaned
   && Nat.leb 13 (length cleaned) && Nat.leb (length cleaned) 19)%bool.

Definition isValidCreditCard (cardNumber : jsstring) : bool :=
  let cleaned := remove_dashes (remove_whitespace cardNumber) in
  if negb (is_card_shape cleaned) then false
  else
    match luhn_loop (rev cleaned) (Some 0%Z) false with
    | Some sum => (sum mod 10 =? 0)%Z
    | None => false
    end.

(** *** The Luhn rule in the words of the specification *)

(** Value of a decimal digit. *)
Definition digit_value (c : code_unit) : Z := (Z.of_N c - 48)%Z.

(** A doubled digit, less 9 when it exceeds 9. *)
Definition luhn_double (d : Z) : Z :=
  if (9 <? 2 * d)%Z then (2 * d - 9)%Z else (2 * d)%Z.

(** The sum over the digits read from the rightmost: every second one
    is doubled. *)
Fixpoint luhn_sum (from_right : list Z) : Z :=
  match from_right with
  | [] => 0
  | d1 :: r =>
      match r with
      | [] => d1
      | d2 :: r' => d1 + luhn_double d2 + luhn_sum r'
      end
  end%Z.

(** The rule on a string already cleaned: 13 to 19 decimal digits whose
    Luhn sum is divisible by 10. *)
Definition luhn_valid (cleaned : jsstring) : Prop :=
  (13 <= length cleaned <= 19)%nat
  /\ Forall (fun c => is_digit c = true) cleaned
  /\ (luhn_sum (map digit_value (rev cleaned)) mod 10 = 0)%Z.

(** Removing all spaces and dashes. *)
Definition strip_spaces_dashes (s : jsstring) : jsstring :=
  filter (fun c => negb (cu_eqb c char_space || cu_eqb c char_dash)) s.

(** Removing all white space and dashes. *)
Definition strip_whitespace_dashes (s : jsstring) : jsstring :=
  filter (fun c => negb (is_space c || cu_eqb c char_dash)) s.

(* ===================================================================== *)
(** ** Random draws *)
(* ===================================================================== *)

(** The results of the successive calls of [Math.random()], as exact
    rationals. *)
Definition draws := nat -> Q.

(** Every result of [Math.random()] is in [[0, 1)]. *)
Definition in_unit_interval (s : draws) : Prop :=
  forall n, (0 <= s n)%Q /\ (s n < 1)%Q.

(** A computation that draws random numbers: it is handed the draws to
    come and returns those it left. *)
Definition Rand (A : Type) : Type := draws -> A * draws.

Definition ret {A : Type} (a : A) : Rand A := fun s => (a, s).

Definition bind {A B : Type} (m : Rand A) (k : A -> Rand B) : Rand B :=
  fun s => let (a, s') := m s in k a s'.

Declare Scope rand_scope.
Delimit Scope rand_scope with rand.
Notation "x <- m ;; k" := (bind m (fun x => k))
  (at level 61, m at next level, right associativity) : rand_scope.

(** The value a computation returns on given draws. *)
Definition result {A : Type} (m : Rand A) (s : draws) : A := fst (m s).

(** The draws left after the next one. *)
Definition later (s : draws) : draws := fun n => s (S n).

(** [Math.random()]. *)
Definition Math_random : Rand Q := fun s => (s 0%nat, later s).

(** [Math.floor(Math.random() * n)]. *)
Definition random_below (n : Z) : Rand Z :=
  (r <- Math_random ;; ret (Qfloor (r * inject_Z n)))%rand.

(** [s[i]]: [undefined] ([None]) outside the string. *)
Definition char_at (s : jsstring) (i : Z) : option code_unit :=
  if (i <? 0)%Z then None else nth_error s (Z.to_nat i).

(* ===================================================================== *)
(** ** Generation helpers *)
(* ===================================================================== *)

(** How a call ends: with a value, or with a thrown [Error]. *)
Inductive completion (A : Type) : Type :=
  | Returned (a : A)
  | Thrown (message : jsstring).
Arguments Returned {A} a.
Arguments Thrown {A} message.

(** *** generateCoupon *)

(** [CouponOptions]: every field may be left out. *)
Record CouponOptions := {
  opt_length : option Z;
  opt_prefix : option jsstring;
  opt_suffix : option jsstring;
  includeNumbers : option bool;
  includeUppercase : option bool;
  includeLowercase : option bool;
  includeSpecialChars : option bool
}.

(** A destructuring default. *)
Definition or_default {A : Type} (o : option A) (d : A) : A :=
  match o with
  | Some v => v
  | None => d
  end.

Definition numbers : jsstring := str "0123456789".
Definition uppercase : jsstring := str "ABCDEFGHIJKLMNOPQRSTUVWXYZ".
Definition lowercase : jsstring := str "abcdefghijklmnopqrstuvwxyz".
Definition special : jsstring := str "!@#$%^&*()_+-=[]{}|;:,.<>?".

(** The alphabet built from the four flags. *)
Definition coupon_chars (options : CouponOptions) : jsstring :=
  let chars := [] in
  let chars := if or_default (includeNumbers options) true
               then chars ++ numbers else chars in
  let chars := if or_default (includeUppercase options) true
               then chars ++ uppercase else chars in
  let chars := if or_default (includeLowercase options) false
               then chars ++ lowercase else chars in
  let chars := if or_default (includeSpecialChars options) false
               then chars ++ special else chars in
  chars.

(** [coupon += chars[randomIndex]]: [undefined] is appended as the text
    ["undefined"]. *)
Definition append_char (coupon : jsstring) (c : option code_unit) : jsstring :=
  match c with
  | Some c => coupon ++ [c]
  | None => coupon ++ str "undefined"
  end.

(** The [for] loop, with [n] iterations left. *)
Fixpoint coupon_loop (n : nat) (chars coupon : jsstring) : Rand jsstring :=
  match n with
  | O => ret coupon
  | S k =>
      (randomIndex <- random_below (Z.of_nat (length chars)) ;;
       coupon_loop k chars (append_char coupon (char_at chars randomIndex)))%rand
  end.

Definition generateCoupon (options : CouponOptions)
  : Rand (completion jsstring) :=
  let len := or_default (opt_length options) 8%Z in
  let prefix := or_default (opt_prefix options) [] in
  let suffix := or_default (opt_suffix options) [] in
  let chars := coupon_chars options in
  if jsstring_eqb chars [] then
    ret (Thrown (str "At least one character type must be included"))
  else
    (coupon <- coupon_loop (Z.to_nat len) chars [] ;;
     ret (Returned (remove_whitespace (prefix ++ coupon ++ suffix))))%rand.

(** *** generateRandomPassword *)

Definition charset : jsstring :=
  str "abcdefghijklmnopqrstuvwxyzABCDEFGHIJKLMNOPQRSTUVWXYZ0123456789!@#$%&*?".

(** The symbols of [charset]. *)
Definition is_symbol (c : code_unit) : bool := cu_mem c (str "!@#$%&*?").

Definition randomChar (min max : Z) : Rand (option code_unit) :=
  (i <- random_below (max - min + 1) ;; ret (char_at charset (i + min)%Z))%rand.

(** The [while] loop, with [n] characters still missing. *)
Fixpoint fill_password (n : nat) (password : list (option code_unit))
  : Rand (list (option code_unit)) :=
  match n with
  | O => ret password
  | S k =>
      (c <- randomChar 0 (Z.of_nat (length charset) - 1) ;;
       fill_password k (password ++ [c]))%rand
  end.

(** [array.join('')]: an [undefined] element joins as the empty string. *)
Definition join (a : list (option code_unit)) : jsstring :=
  flat_map (fun c => match c with Some c => [c] | None => [] end) a.

(** The comparator [() => Math.random() - 0.5]. *)
Definition random_comparator (_ _ : option code_unit) : Rand Q :=
  (r <- Math_random ;; ret (r - (1 # 2))%Q)%rand.

(** The array [password] as it stands before it is shuffled: the four
    guaranteed characters, then the filling. *)
Definition password_array (len : Z) : Rand (list (option code_unit)) :=
  (c1 <- randomChar 0 25 ;;
   c2 <- randomChar 26 51 ;;
   c3 <- randomChar 52 61 ;;
   c4 <- randomChar 62 68 ;;
   fill_password (Z.to_nat (len - 4)) [c1; c2; c3; c4])%rand.

Section Sort.

(** [Array.prototype.sort] with a comparator that draws random numbers.
    The order it leaves is the engine's. *)
Variable array_sort :
  (option code_unit -> option code_unit -> Rand Q) ->
  list (option code_unit) -> Rand (list (option code_unit)).

Definition generateRandomPassword (len : Z) : Rand jsstring :=
  (password <- password_array len ;;
   sorted <- array_sort random_comparator password ;;
   ret (join sorted))%rand.

End Sort.

(** The default of the parameter [length]. *)
Definition generateRandomPassword_length : Z := 6.

(** One engine's sort: insertion from the right, the comparator asked
    once per comparison. *)
Fixpoint sort_insert {A : Type} (cmp : A -> A -> Rand Q) (x : A) (l : list A)
  : Rand (list A) :=
  match l with
  | [] => ret [x]
  | y :: r =>
      (c <- cmp x y ;;
       if Qle_bool c 0 then ret (x :: l)
       else (r' <- sort_insert cmp x r ;; ret (y :: r')))%rand
  end.

Fixpoint insertion_sort {A : Type} (cmp : A -> A -> Rand Q) (l : list A)
  : Rand (list A) :=
  match l with
  | [] => ret []
  | x :: r => (r' <- insertion_sort cmp r ;; sort_insert cmp x r')%rand
  end.

(* ===================================================================== *)
(** ** Currency and formatting helpers *)
(* ===================================================================== *)

(** [CURRENCY_SYMBOLS] of [constants]: the own properties of the object,
    in the order of the source; a symbol outside ASCII is written by its
    code units. *)
Definition CURRENCY_SYMBOLS : list (jsstring * jsstring) :=
  [
    (str "USD", str "$");
    (str "EUR", [8364%N]);
    (str "GBP", [163%N]);
    (str "JPY", [165%N]);
    (str "CAD", str "C$");
    (str "AUD", str "A$");
    (str "CHF", str "CHF");
    (str "CNY", [165%N]);
    (str "INR", [8377%N]);
    (str "KRW", [8361%N]);
    (str "RUB", [8381%N]);
    (str "BRL", str "R$");
    (str "MXN", str "$");
    (str "SGD", str "S$");
    (str "HKD", str "HK$");
    (str "SEK", str "kr");
    (str "NOK", str "kr");
    (str "DKK", str "kr");
    (str "PLN", [122%N; 322%N]);
    (str "CZK", [75%N; 269%N]);
    (str "HUF", str "Ft");
    (str "RON", str "lei");
    (str "BGN", [1083%N; 1074%N]);
    (str "HRK", str "kn");
    (str "RSD", [1076%N; 1080%N; 1085%N; 46%N]);
    (str "UAH", [8372%N]);
    (str "TRY", [8378%N]);
    (str "ILS", [8362%N]);
    (str "AED", [1583%N; 46%N; 1573%N]);
    (str "SAR", [1585%N; 46%N; 1587%N]);
    (str "QAR", [1585%N; 46%N; 1602%N]);
    (str "KWD", [1583%N; 46%N; 1603%N]);
    (str "BHD", [46%N; 1583%N; 46%N; 1576%N]);
    (str "OMR", [1585%N; 46%N; 1593%N; 46%N]);
    (str "JOD", [1583%N; 46%N; 1575%N]);
    (str "LBP", [1604%N; 46%N; 1604%N]);
    (str "EGP", [1580%N; 46%N; 1605%N]);
    (str "ZAR", str "R");
    (str "NGN", [8358%N]);
    (str "KES", str "KSh");
    (str "GHS", [71%N; 72%N; 8373%N]);
    (str "UGX", str "USh");
    (str "TZS", str "TSh");
    (str "ZMW", str "ZK");
    (str "BWP", str "P");
    (str "MUR", [8360%N]);
    (str "MAD", [1583%N; 46%N; 1605%N; 46%N]);
    (str "TND", [1583%N; 46%N; 1578%N]);
    (str "DZD", [1583%N; 46%N; 1580%N]);
    (str "LYD", [1604%N; 46%N; 1583%N]);
    (str "SDG", [1580%N; 46%N; 1587%N; 46%N]);
    (str "ETB", str "Br");
    (str "DJF", str "Fdj");
    (str "KMF", str "CF");
    (str "MGA", str "Ar");
    (str "BIF", str "FBu");
    (str "RWF", str "FRw");
    (str "MWK", str "MK");
    (str "ZWL", str "Z$")
  ].

(** The names every plain object inherits from [Object.prototype]. *)
Definition object_prototype_names : list jsstring :=
  map str
    ["constructor"; "hasOwnProperty"; "isPrototypeOf"; "propertyIsEnumerable";
     "toLocaleString"; "toString"; "valueOf"; "__proto__";
     "__defineGetter__"; "__defineSetter__"; "__lookupGetter__";
     "__lookupSetter__"]%string.

(** What reading a property of [CURRENCY_SYMBOLS] finds. *)
Inductive property :=
  | Own (symbol : jsstring)
  | Inherited (name : jsstring)
  | Absent.

Fixpoint own_property (table : list (jsstring * jsstring)) (key : jsstring)
  : option jsstring :=
  match table with
  | [] => None
  | (k, v) :: r => if jsstring_eqb k key then Some v else own_property r key
  end.

(** [CURRENCY_SYMBOLS[currency]]. *)
Definition get_currency (currency : jsstring) : property :=
  match own_property CURRENCY_SYMBOLS currency with
  | Some symbol => Own symbol
  | None =>
      if existsb (jsstring_eqb currency) object_prototype_names
      then Inherited currency
      else Absent
  end.

Section FormatCurrency.

(** The text the engine gives a member of [Object.prototype] inside a
    template literal. *)
Variable member_text : jsstring -> jsstring.

(** The template literal around the property read: a string stays as it
    is and [undefined] becomes the text ["undefined"]. *)
Definition formatCurrency (currency : jsstring) : jsstring :=
  match get_currency currency with
  | Own symbol => symbol
  | Inherited name => member_text name
  | Absent => str "undefined"
  end.

End FormatCurrency.

(* ===================================================================== *)
(** ** Filter and query helpers *)
(* ===================================================================== *)

(** The values a filter holds: the primitive values of JavaScript
    (numbers as integers). *)
Inductive value :=
  | VUndefined
  | VNull
  | VBoolean (b : bool)
  | VNumber (n : Z)
  | VString (s : jsstring).

(** An object: an ordinary object whose prototype is [Object.prototype],
    given by its own enumerable properties in the order of their
    creation. *)
Definition object := list (jsstring * value).

(** [o[key]] for a key of [o] or a name [Object.prototype] does not
    have: [undefined] when there is no such property. *)
Fixpoint get (o : object) (key : jsstring) : value :=
  match o with
  | [] => VUndefined
  | (k, v) :: r => if jsstring_eqb k key then v else get r key
  end.

(** [o[key] = v] for a primitive [v]: an existing property keeps its
    place, a new one goes last. The name [__proto__] is the exception:
    unless [o] has a property of its own by that name, the assignment
    runs the setter [Object.prototype] has for it, which creates no
    property (and changes the prototype only for an object or [null],
    which the helpers never assign). *)
Fixpoint set (o : object) (key : jsstring) (v : value) : object :=
  match o with
  | [] => if jsstring_eqb key (str "__proto__") then [] else [(key, v)]
  | (k, w) :: r =>
      if jsstring_eqb k key then (k, v) :: r else (k, w) :: set r key v
  end.

Definition keys (o : object) : list jsstring := map fst o.

(** The array index a property name stands for, if any: the name is the
    decimal numeral, without a leading zero, of an integer below
    [2^32 - 1]. *)
Definition array_index (key : jsstring) : option N :=
  match key with
  | [] => None
  | c :: r =>
      if (forallb is_digit key
          && (negb (cu_eqb c 48) || jsstring_eqb r []))%bool
      then
        let n := fold_left (fun acc d => (acc * 10 + (d - 48))%N) key 0%N in
        if (n <=? 4294967294)%N then Some n else None
      else None
  end.

Definition is_array_index (key : jsstring) : bool :=
  match array_index key with
  | Some _ => true
  | None => false
  end.

Fixpoint insert_index (i : N) (key : jsstring) (l : list (N * jsstring))
  : list (N * jsstring) :=
  match l with
  | [] => [(i, key)]
  | (j, k) :: r =>
      if (i <=? j)%N then (i, key) :: l else (j, k) :: insert_index i key r
  end.

(** The array indices among the keys, in ascending order. *)
Fixpoint index_keys (ks : list jsstring) : list (N * jsstring) :=
  match ks with
  | [] => []
  | k :: r =>
      match array_index k with
      | Some i => insert_index i k (index_keys r)
      | None => index_keys r
      end
  end.

(** [Object.keys(o)]: the array indices in ascending order, then the
    other names in the order of creation. *)
Definition Object_keys (o : object) : list jsstring :=
  map snd (index_keys (keys o))
  ++ filter (fun k => negb (is_array_index k)) (keys o).

(** [Object.entries(o)]. *)
Definition Object_entries (o : object) : object :=
  map (fun k => (k, get o k)) (Object_keys o).

(** Truthiness. *)
Definition truthy (v : value) : bool :=
  match v with
  | VUndefined | VNull => false
  | VBoolean b => b
  | VNumber n => negb (n =? 0)%Z
  | VString s => negb (jsstring_eqb s [])
  end.

(** [v !== '']. *)
Definition is_not_empty_string (v : value) : bool :=
  match v with
  | VString s => negb (jsstring_eqb s [])
  | _ => true
  end.

(** [v !== null && v !== undefined]. *)
Definition is_not_nullish (v : value) : bool :=
  match v with
  | VUndefined | VNull => false
  | _ => true
  end.

(** [v.trim()]: only a string has the method; calling it on a number or
    a boolean throws a [TypeError]. *)
Definition call_trim (v : value) : completion jsstring :=
  match v with
  | VString s => Returned (trim s)
  | _ => Thrown (str "trim is not a function")
  end.

Definition and_then {A B : Type} (c : completion A) (k : A -> completion B)
  : completion B :=
  match c with
  | Returned a => k a
  | Thrown m => Thrown m
  end.

(** [if (filters[name] && filters[name] !== '') parsedFilters[name] = filters[name]]. *)
Definition copy_if_set (filters : object) (name : jsstring) (parsed : object)
  : object :=
  if (truthy (get filters name) && is_not_empty_string (get filters name))%bool
  then set parsed name (get filters name)
  else parsed.

(** [if (filters.locate && filters.locate.trim() !== '')
       parsedFilters.locate = filters.locate.trim()]. *)
Definition copy_locate (filters : object) (parsed : object) : completion object :=
  let locate := get filters (str "locate") in
  if truthy locate then
    and_then (call_trim locate) (fun t =>
      if negb (jsstring_eqb t []) then
        and_then (call_trim locate) (fun t' =>
          Returned (set parsed (str "locate") (VString t')))
      else Returned parsed)
  else Returned parsed.

(** The callback of [forEach], for one key. *)
Definition buildFilters_key (filters : object) (parsedFilters : object)
    (key : jsstring) : completion object :=
  let value := get filters key in
  let parsedFilters := copy_if_set filters (str "kyc_status") parsedFilters in
  let parsedFilters := copy_if_set filters (str "sortField") parsedFilters in
  let parsedFilters := copy_if_set filters (str "sortDirection") parsedFilters in
  and_then (copy_locate filters parsedFilters) (fun parsedFilters =>
  and_then (copy_locate filters parsedFilters) (fun parsedFilters =>
  if (is_not_nullish value && is_not_empty_string value)%bool then
    Returned (set parsedFilters key
                (match value with
                 | VString s => VString (trim s)
                 | _ => value
                 end))
  else Returned parsedFilters)).

Fixpoint buildFilters_loop (filters : object) (ks : list jsstring)
    (parsedFilters : object) : completion object :=
  match ks with
  | [] => Returned parsedFilters
  | key :: r =>
      and_then (buildFilters_key filters parsedFilters key)
               (buildFilters_loop filters r)
  end.

Definition buildFilters (filters : object) : completion object :=
  buildFilters_loop filters (Object_keys filters) [].

(** *** The cleaning in the words of the specification *)

(** A value that is dropped: [null], [undefined] or the empty string. *)
Definition is_dropped (v : value) : bool :=
  match v with
  | VUndefined | VNull => true
  | VString s => jsstring_eqb s []
  | _ => false
  end.

Definition trim_value (v : value) : value :=
  match v with
  | VString s => VString (trim s)
  | _ => v
  end.

(** Drop the keys whose value is dropped, trim the strings that stay. *)
Definition clean_filters (filters : object) : object :=
  map (fun kv => (fst kv, trim_value (snd kv)))
      (filter (fun kv => negb (is_dropped (snd kv))) filters).

(** A string with no white space at either end. *)
Definition is_trimmed (s : jsstring) : bool :=
  match s, rev s with
  | c :: _, d :: _ => (negb (is_space c) && negb (is_space d))%bool
  | _, _ => true
  end.

(* ===================================================================== *)
(** ** Text manipulation helpers *)
(* ===================================================================== *)

Definition truncate (text : jsstring) (startLength endLength : Z)
    (appendText appendPosition : jsstring) : jsstring :=
  if jsstring_eqb text [] then []
  else if jsstring_eqb appendPosition (str "center") then
    if (Z.of_nat (length text) <=? startLength + endLength + 3)%Z then text
    else
      let start := slice text 0 startLength in
      let end_ := slice_from text (- endLength) in
      start ++ str "*********" ++ end_
  else if jsstring_eqb appendPosition (str "end") then
    if (Z.of_nat (length text) <=? startLength)%Z then text
    else
      let start := slice text 0 startLength in
      start ++ appendText
  else text.

(** The defaults of the parameters of [truncate]. *)
Definition truncate_startLength : Z := 3.
Definition truncate_endLength : Z := 4.
Definition truncate_appendText : jsstring := str "...".
Definition truncate_appendPosition : jsstring := str "center".

(** The first [n] and the last [n] characters of a string. *)
Definition first_chars (n : nat) (s : jsstring) : jsstring := firstn n s.
Definition last_chars (n : nat) (s : jsstring) : jsstring :=
  skipn (length s - n) s.

(* ===================================================================== *)
(** ** Predicates of the statements *)
(* ===================================================================== *)

(** Some code unit of [s] is in the class [cls]. *)
Definition contains (cls : code_unit -> bool) (s : jsstring) : Prop :=
  exists c, In c s /\ cls c = true.



(** At most one timer of a debounced wrapper is pending, and [timeoutId]
    is its handle. *)
Definition debounce_inv (Args : Type) (w : debounced Args) : Prop :=
  queue (d_loop w) = []
  \/ exists id due a, queue (d_loop w) = [Timer id due a] /\ timeoutId w = Some id.

(** The options of the call
    [generateCoupon({ length: 10, includeNumbers: true, includeUppercase: true })]. *)
Definition ten_digits_and_capitals : CouponOptions :=
  {| opt_length := Some 10%Z; opt_prefix := None; opt_suffix := None;
     includeNumbers := Some true; includeUppercase := Some true;
     includeLowercase := None; includeSpecialChars := None |}.

(** [without_white_space s r]: [r] is [s] with every white space
    character left out and every other character kept, in order. *)
Inductive without_white_space : jsstring -> jsstring -> Prop :=
  | wws_nil : without_white_space [] []
  | wws_drop (c : code_unit) (s r : jsstring) :
      is_space c = true ->
      without_white_space s r -> without_white_space (c :: s) r
  | wws_keep (c : code_unit) (s r : jsstring) :
      is_space c = false ->
      without_white_space s r -> without_white_space (c :: s) (c :: r).

(** The options of a call with white space in the prefix and in the
    suffix:
    [generateCoupon({ length: 4, prefix: 'SUMMER SALE-', suffix: ' 20 25' })]. *)
Definition spaced_affixes : CouponOptions :=
  {| opt_length := Some 4%Z; opt_prefix := Some (str "SUMMER SALE-");
     opt_suffix := Some (str " 20 25");
     includeNumbers := None; includeUppercase := None;
     includeLowercase := None; includeSpecialChars := None |}.

(** The code units of [charset] at the indices [lo], ..., [lo + n - 1]
    are all of class [cls]. *)
Definition charset_range (cls : code_unit -> bool) (lo n : nat) : bool :=
  forallb (fun i => match nth_error charset i with
                    | Some c => cls c
                    | None => false
                    end) (seq lo n).

(** The names [buildFilters] treats apart from the others. *)
Definition special_filter_names : list jsstring :=
  [str "kyc_status"; str "sortField"; str "sortDirection"; str "locate"].

(** A filter object whose untrimmed [kyc_status] comes before another
    key, and one whose [locate] is a number. *)
Definition status_then_page : object :=
  [(str "kyc_status", VString (str " approved ")); (str "page", VNumber 2)].

Definition numeric_locate : object := [(str "locate", VNumber 5)].

(* ===================================================================== *)
(** ** More string operations *)
(* ===================================================================== *)

Definition char_at_sign : code_unit := 64%N.   (* '@' *)
Definition char_hash : code_unit := 35%N.      (* '#' *)

(** [s.split(sep)] for a one-character separator: the pieces between the
    separators, one more than there are separators. *)
Fixpoint split (sep : code_unit) (s : jsstring) : list jsstring :=
  match s with
  | [] => [[]]
  | c :: r =>
      if cu_eqb c sep then [] :: split sep r
      else
        match split sep r with
        | w :: ws => (c :: w) :: ws
        | [] => [[c]]
        end
  end.

(** [pieces.join(sep)]. *)
Fixpoint join_with (sep : jsstring) (pieces : list jsstring) : jsstring :=
  match pieces with
  | [] => []
  | [w] => w
  | w :: ws => w ++ sep ++ join_with sep ws
  end.

(** [s.includes(c)] for a one-character string. *)
Definition includes (s : jsstring) (c : code_unit) : bool := cu_mem c s.

(** [s.startsWith(p)]. *)
Fixpoint startsWith (s p : jsstring) : bool :=
  match p, s with
  | [], _ => true
  | x :: p', y :: s' => (cu_eqb y x && startsWith s' p')%bool
  | _ :: _, [] => false
  end.

(** An index of [substring]: clamped to [[0, len]]. *)
Definition substring_index (len i : Z) : Z := Z.min (Z.max i 0) len.

(** [s.substring(a, b)]: the indices are clamped and put in order. *)
Definition substring (s : jsstring) (a b : Z) : jsstring :=
  let len := Z.of_nat (length s) in
  let a' := substring_index len a in
  let b' := substring_index len b in
  let from := Z.min a' b' in
  let to := Z.max a' b' in
  firstn (Z.to_nat (to - from)) (skipn (Z.to_nat from) s).

(** [s.substring(a)]. *)
Definition substring_from (s : jsstring) (a : Z) : jsstring :=
  substring s a (Z.of_nat (length s)).

(** ['*'.repeat(count)]: a negative count throws a [RangeError]. *)
Definition star_repeat (count : Z) : completion jsstring :=
  if (count <? 0)%Z then Thrown (str "Invalid count value")
  else Returned (repeat_char char_star (Z.to_nat count)).

(* ===================================================================== *)
(** ** More text manipulation helpers *)
(* ===================================================================== *)

Definition truncateId (id : jsstring) (startLength endLength : Z) : jsstring :=
  if (Z.of_nat (length id) <=? startLength + endLength + 3)%Z then id
  else
    let start := slice id 0 startLength in
    let end_ := slice_from id (- endLength) in
    start ++ str "..." ++ end_.

(** The defaults of the parameters of [truncateId]. *)
Definition truncateId_startLength : Z := 3.
Definition truncateId_endLength : Z := 4.

Definition truncateText (text : jsstring) : jsstring :=
  let words := split char_space text in
  if Nat.ltb 3 (length words)
  then join_with [char_space] (firstn 3 words) ++ str "..."
  else text.

(** A missing piece of a destructured array reads [undefined], which a
    template literal renders as the text ["undefined"]. *)
Definition render_piece (piece : option jsstring) : jsstring :=
  match piece with
  | Some w => w
  | None => str "undefined"
  end.

Definition maskEmail (email : jsstring) (visibleStartChars visibleEndChars : Z)
  : completion jsstring :=
  if (jsstring_eqb email [] || negb (includes email char_at_sign))%bool
  then Returned []
  else
    let pieces := split char_at_sign email in
    let username := nth 0 pieces [] in
    let domain := nth_error pieces 1 in
    let len := Z.of_nat (length username) in
    if (len <=? visibleStartChars + visibleEndChars)%Z then Returned email
    else
      let maskedLength := (len - visibleStartChars - visibleEndChars)%Z in
      let start := substring username 0 visibleStartChars in
      let end_ := substring_from username (len - visibleEndChars) in
      and_then (star_repeat (Z.min maskedLength 5)) (fun masked =>
        Returned (start ++ masked ++ end_ ++ [char_at_sign]
                  ++ render_piece domain)).

(** The defaults of the parameters of [maskEmail]. *)
Definition maskEmail_visibleStartChars : Z := 2.
Definition maskEmail_visibleEndChars : Z := 1.

(* ===================================================================== *)
(** ** formatPhoneNumber *)
(* ===================================================================== *)

(** [s.replace(/\D/g, '')]: everything but the decimal digits goes. *)
Definition remove_non_digits (s : jsstring) : jsstring := filter is_digit s.

Definition formatPhoneNumber (phoneNumber : jsstring) : jsstring :=
  let cleaned := remove_non_digits phoneNumber in
  if Nat.eqb (length cleaned) 10 then
    str "(" ++ slice cleaned 0 3 ++ str ") " ++ slice cleaned 3 6
    ++ str "-" ++ slice_from cleaned 6
  else if (Nat.eqb (length cleaned) 11 && startsWith cleaned (str "1"))%bool then
    str "+1 (" ++ slice cleaned 1 4 ++ str ") " ++ slice cleaned 4 7
    ++ str "-" ++ slice_from cleaned 7
  else if (Nat.eqb (length cleaned) 12 && startsWith cleaned (str "91"))%bool then
    str "+91 " ++ slice cleaned 2 7 ++ str " " ++ slice_from cleaned 7
  else phoneNumber.

(* ===================================================================== *)
(** ** generateUUID *)
(* ===================================================================== *)

(** [q | 0] for a number [q]: the fraction is cut off towards zero and
    the integer is wrapped into the signed 32-bit range. *)
Definition to_int32 (q : Q) : Z :=
  let t := if Qle_bool 0 q then Qfloor q else Qceiling q in
  ((t + 2147483648) mod 4294967296 - 2147483648)%Z.

(** One digit of radix 16, lowercase. *)
Definition hex_digit (d : N) : code_unit :=
  if (d <? 10)%N then (48 + d)%N else (87 + d)%N.

(** The digits of a natural number in radix 16, [fuel] being at least
    the number of its bits. *)
Fixpoint hex_digits (fuel : nat) (n : N) : jsstring :=
  match fuel with
  | O => [hex_digit n]
  | S f =>
      if (n <? 16)%N then [hex_digit n]
      else hex_digits f (n / 16)%N ++ [hex_digit (n mod 16)%N]
  end.

(** [v.toString(16)] for an integer [v]. *)
Definition toString16 (v : Z) : jsstring :=
  let n := Z.to_N (Z.abs v) in
  (if (v <? 0)%Z then [char_dash] else []) ++ hex_digits (N.to_nat (N.size n)) n.

Definition uuid_template : jsstring := str "xxxxxxxx-xxxx-4xxx-yxxx-xxxxxxxxxxxx".

Definition char_x : code_unit := 120%N.
Definition char_y : code_unit := 121%N.

(** The replacement callback, for a character [c] that [/[xy]/] matched. *)
Definition uuid_replacement (c : code_unit) : Rand jsstring :=
  (q <- Math_random ;;
   let r := to_int32 (q * 16)%Q in
   let v := if cu_eqb c char_x then r else Z.lor (Z.land r 3) 8 in
   ret (toString16 v))%rand.

(** [template.replace(/[xy]/g, callback)], the matches taken from left to
    right. *)
Fixpoint replace_xy (template : jsstring) : Rand jsstring :=
  match template with
  | [] => ret []
  | c :: r =>
      if (cu_eqb c char_x || cu_eqb c char_y)%bool then
        (piece <- uuid_replacement c ;;
         rest <- replace_xy r ;;
         ret (piece ++ rest))%rand
      else (rest <- replace_xy r ;; ret (c :: rest))%rand
  end.

Definition generateUUID : Rand jsstring := replace_xy uuid_template.

(** A lowercase digit of radix 16. *)
Definition is_hex_lower (c : code_unit) : bool :=
  (is_digit c || in_range 97 102 c)%bool.

(** What a character of a version 4 UUID may be, given the character of
    the template at its place. *)
Definition uuid_char_ok (t c : code_unit) : bool :=
  if cu_eqb t char_x then is_hex_lower c
  else if cu_eqb t char_y then cu_mem c (str "89ab")
  else cu_eqb c t.

(** The shape
    [[0-9a-f]{8}-[0-9a-f]{4}-4[0-9a-f]{3}-[89ab][0-9a-f]{3}-[0-9a-f]{12}]. *)
Fixpoint has_uuid_shape (template s : jsstring) : bool :=
  match template, s with
  | [], [] => true
  | t :: template', c :: s' => (uuid_char_ok t c && has_uuid_shape template' s')%bool
  | _, _ => false
  end.

(* ===================================================================== *)
(** ** File validation helpers *)
(* ===================================================================== *)

(** What the helpers read of a [File]. *)
Record File := { file_type : jsstring; file_size : Z }.

(** [array.includes(s)] for an array of strings. *)
Definition array_includes (a : list jsstring) (s : jsstring) : bool :=
  existsb (jsstring_eqb s) a.

Definition validateImage (file : File) : bool :=
  array_includes
    [str "image/png"; str "image/jpeg"; str "image/jpg"; str "image/webp"]
    (file_type file).

(** [UploadOptions]; [maxSizeMB] may be left out. *)
Record UploadOptions := {
  allowedTypes : list jsstring;
  maxSizeMB : option Q;
  fileTypeLabel : jsstring
}.

(** What a handler does to the outside: a toast, or a call of one of the
    functions it was handed. *)
Inductive effect :=
  | ToastError (message : jsstring)
  | Mutate (formData : list (jsstring * File))
  | SetFile (file : File)
  | OnFileUpload (file : File)
  | TriggerError.

Section Upload.

(** The text of a number inside a template literal. *)
Variable number_text : Q -> jsstring.

(** [handleUpload]: the effects, in order. [file] is [None] for a
    missing file. *)
Definition handleUpload (file : option File) (options : UploadOptions)
  : list effect :=
  match file with
  | None => []
  | Some file =>
      let maxSizeMB := or_default (maxSizeMB options) 1%Q in
      let maxSize := (maxSizeMB * 1024 * 1024)%Q in
      if negb (array_includes (allowedTypes options) (file_type file)) then
        [ToastError (str "Please upload a valid " ++ fileTypeLabel options
                     ++ str " file ("
                     ++ join_with (str ", ") (allowedTypes options)
                     ++ str ")")]
      else if negb (Qle_bool (inject_Z (file_size file)) maxSize) then
        [ToastError (fileTypeLabel options ++ str " size should not exceed "
                     ++ number_text maxSizeMB ++ str "MB")]
      else [Mutate [(str "file", file)]]
  end.

End Upload.

(** [handleFileUpload]: the effects, in order; [onFileUpload] tells
    whether that callback was given. *)
Definition handleFileUpload (file : option File) (onFileUpload : bool)
  : list effect :=
  match file with
  | None => []
  | Some file =>
      let isValidFileType :=
        array_includes
          [str "image/jpeg"; str "image/png"; str "application/pdf"]
          (file_type file) in
      if negb isValidFileType then [TriggerError]
      else SetFile file :: (if onFileUpload then [OnFileUpload file] else [])
  end.

(* ===================================================================== *)
(** ** More predicates of the statements *)
(* ===================================================================== *)

(** How often the character [c] occurs in [s]. *)
Definition count_char (c : code_unit) (s : jsstring) : nat :=
  length (filter (cu_eqb c) s).

(** The filter object of the README example:
    [{ name: '  John  ', age: 25, email: '', status: null }]. *)
Definition readme_filters : object :=
  [(str "name", VString (str "  John  ")); (str "age", VNumber 25);
   (str "email", VString []); (str "status", VNull)].

(** What a digit adds to the Luhn sum: itself, or its double (less 9
    above 9) when [isEven] holds for its place. *)
Definition luhn_weight (isEven : bool) (c : code_unit) : Z :=
  if isEven then luhn_double (digit_value c) else digit_value c.

(** The sum the loop adds up over [from_right], starting with [isEven]. *)
Fixpoint luhn_total (isEven : bool) (from_right : jsstring) : Z :=
  match from_right with
  | [] => 0
  | c :: r => luhn_weight isEven c + luhn_total (negb isEven) r
  end%Z.

(** [subsequence a b]: [a] is [b] with some elements left out. *)
Inductive subsequence (A : Type) : list A -> list A -> Prop :=
  | sub_nil : subsequence [] []
  | sub_skip (x : A) (a b : list A) : subsequence a b -> subsequence a (x :: b)
  | sub_take (x : A) (a b : list A) :
      subsequence a b -> subsequence (x :: a) (x :: b).

(** The arguments of the invocations among the events, in order. *)
Definition called (Args : Type) (es : list (event Args)) : list Args :=
  flat_map (fun e => match e with Call a => [a] | Wait _ => [] end) es.

(** The invocations of the wrapper an execution that behaves as [b]
    makes, with those its own executions would make, in order. *)
Fixpoint reentries (Args : Type) (b : behaviour Args) : list Args :=
  match b with
  | Returns | Throws => []
  | Reenters args inner rest => args :: reentries inner ++ reentries rest
  end.

(** The arguments of the invocations of a throttled wrapper among the
    events, in order: those of the host, each followed by those the
    execution of [func] would make. *)
Definition invocations (Args : Type) (es : list (event (Args * behaviour Args)))
  : list Args :=
  flat_map (fun e => match e with
                     | Call (a, b) => a :: reentries b
                     | Wait _ => []
                     end) es.

(** An invocation for which [func], if executed, returns without
    invoking the wrapper (a wait qualifies). *)
Definition returns_plainly (Args : Type) (e : event (Args * behaviour Args))
  : Prop :=
  match e with
  | Call (_, b) => b = Returns
  | Wait _ => True
  end.

(** What a throttled wrapper keeps true of the number of executions and
    the clock, for a positive [limit] and executions that return
    plainly: with the gate open, that many limits have passed unless
    nothing was executed yet; with the gate shut, the pending timer is
    due [limit] after the latest execution, which is not in the future,
    and the executions before it each took a limit of their own. *)
Definition throttle_rate_inv (Args : Type) (limit : Z) (w : throttled Args) : Prop :=
  let c := Z.of_nat (length (t_executed w)) in
  let T := now (t_loop w) in
  (inThrottle w = false /\ queue (t_loop w) = []
   /\ ((c = 0 /\ 0 <= T) \/ c * limit <= T)%Z)
  \/ (inThrottle w = true
      /\ exists id D, queue (t_loop w) = [Timer id D tt]
         /\ (1 <= c /\ (c - 1) * limit <= D - limit /\ D - limit <= T /\ T < D)%Z).

(** The same for a debounced wrapper and a positive [delay]: every
    execution took a delay of its own, and so will the pending one. *)
Definition debounce_rate_inv (Args : Type) (delay : Z) (w : debounced Args) : Prop :=
  let c := Z.of_nat (length (d_executed w)) in
  let T := now (d_loop w) in
  (queue (d_loop w) = [] /\ (c * delay <= T)%Z)
  \/ (exists id D a, queue (d_loop w) = [Timer id D a]
        /\ timeoutId w = Some id
        /\ ((c + 1) * delay <= D /\ D - delay <= T /\ T < D)%Z).

(* ===================================================================== *)
(** ** Regular expressions *)
(* ===================================================================== *)

(** The patterns the validators use: characters and classes, sequence,
    alternative, the quantifier [{min,max}] ([max] is [None] for no
    bound; [?] is [{0,1}], [*] is [{0,}], [+] is [{1,}]), the lookaheads
    [(?=a)] and [(?!a)], and the assertions [^] and [$]. Groups capture
    nothing that is used. *)
Inductive regex :=
  | Empty
  | Char (c : code_unit)
  | Class (cls : code_unit -> bool)
  | Seq (a b : regex)
  | Alt (a b : regex)
  | Repeat (min : nat) (max : option nat) (a : regex)
  | Ahead (a : regex)
  | NotAhead (a : regex)
  | Bol
  | Eol.

(** The characters of a Rocq string one after the other. *)
Fixpoint lit (s : string) : regex :=
  match s with
  | EmptyString => Empty
  | String c EmptyString => Char (N_of_ascii c)
  | String c r => Seq (Char (N_of_ascii c)) (lit r)
  end.

(** The matcher, as ECMAScript defines it: a state is the end index of
    the match so far with the input that is left, a continuation tells
    whether the rest of the pattern matches from a state, and a matcher
    tries its pattern from a state in every way it can, handing each end
    state to the continuation. *)
Definition state : Type := nat * jsstring.
Definition continuation : Type := state -> bool.
Definition matcher : Type := state -> continuation -> bool.

(** RepeatMatcher: an iteration that matches the empty string once [min]
    is reached is refused. Each iteration lowers [min] or shortens the
    input, so [fuel] above [min] plus the length of the input is never
    used up. *)
Fixpoint repeat_matcher (m : matcher) (fuel min : nat) (max : option nat)
    (x : state) (c : continuation) : bool :=
  match fuel with
  | O => false
  | S fuel' =>
      match max with
      | Some O => c x
      | _ =>
          let d : continuation := fun y =>
            if (Nat.eqb min 0 && Nat.eqb (fst y) (fst x))%bool then false
            else repeat_matcher m fuel' (pred min) (option_map pred max) y c in
          if Nat.eqb min 0 then (m x d || c x)%bool else m x d
      end
  end.

Fixpoint match_regex (r : regex) : matcher :=
  match r with
  | Empty => fun x c => c x
  | Char ch => fun x c =>
      match snd x with
      | a :: rest => if cu_eqb a ch then c (S (fst x), rest) else false
      | [] => false
      end
  | Class cls => fun x c =>
      match snd x with
      | a :: rest => if cls a then c (S (fst x), rest) else false
      | [] => false
      end
  | Seq a b => fun x c => match_regex a x (fun y => match_regex b y c)
  | Alt a b => fun x c => (match_regex a x c || match_regex b x c)%bool
  | Repeat min max a => fun x c =>
      repeat_matcher (match_regex a) (S (min + length (snd x))) min max x c
  | Ahead a => fun x c =>
      if match_regex a x (fun _ => true) then c x else false
  | NotAhead a => fun x c =>
      if match_regex a x (fun _ => true) then false else c x
  | Bol => fun x c => if Nat.eqb (fst x) 0 then c x else false
  | Eol => fun x c =>
      match snd x with
      | [] => c x
      | _ :: _ => false
      end
  end.

(** [pattern.test(s)] for a pattern without flags: a match is tried from
    every index of [s], the first one first. *)
Definition regex_test (r : regex) (s : jsstring) : bool :=
  existsb (fun i => match_regex r (i, skipn i s) (fun _ => true))
          (seq 0 (S (length s))).

(** *** What a pattern matches *)

(** [repeated P min max n s rest]: [s] is made of pieces that [P]
    accepts, [min] to [max] of them, none empty beyond the first [min];
    [n] is the index where [s] begins and [rest] what follows it. *)
Inductive repeated (P : nat -> jsstring -> jsstring -> Prop)
  : nat -> option nat -> nat -> jsstring -> jsstring -> Prop :=
  | repeated_stop (min : nat) (max : option nat) (n : nat) (rest : jsstring) :
      max = Some O \/ min = O -> repeated P min max n [] rest
  | repeated_step (min : nat) (max : option nat) (n : nat)
      (s1 s2 rest : jsstring) :
      max <> Some O ->
      P n s1 (s2 ++ rest) ->
      (min = O -> s1 <> []) ->
      repeated P (pred min) (option_map pred max) (n + length s1) s2 rest ->
      repeated P min max n (s1 ++ s2) rest.

(** [matches r n s rest]: the pattern [r] matches the stretch [s] begun
    at index [n] and followed by [rest]. *)
Fixpoint matches (r : regex) (n : nat) (s rest : jsstring) : Prop :=
  match r with
  | Empty => s = []
  | Char ch => s = [ch]
  | Class cls => exists a, s = [a] /\ cls a = true
  | Seq a b =>
      exists s1 s2, s = s1 ++ s2
                    /\ matches a n s1 (s2 ++ rest)
                    /\ matches b (n + length s1) s2 rest
  | Alt a b => matches a n s rest \/ matches b n s rest
  | Repeat min max a => repeated (matches a) min max n s rest
  | Ahead a => s = [] /\ exists p q, rest = p ++ q /\ matches a n p q
  | NotAhead a => s = [] /\ ~ exists p q, rest = p ++ q /\ matches a n p q
  | Bol => s = [] /\ n = O
  | Eol => s = [] /\ rest = []
  end.

(** *** The patterns of the validators *)

(** [[0-9a-fA-F]], [[0-9a-zA-Z]], [[01]] and [[^\s@]]. *)
Definition is_hex (c : code_unit) : bool :=
  (in_range 48 57 c || in_range 97 102 c || in_range 65 70 c)%bool.
Definition is_alnum (c : code_unit) : bool :=
  (in_range 48 57 c || in_range 97 122 c || in_range 65 90 c)%bool.
Definition is_zero_or_one (c : code_unit) : bool :=
  (cu_eqb c 48 || cu_eqb c 49)%bool.
Definition is_email_char (c : code_unit) : bool :=
  negb (is_space c || cu_eqb c char_at_sign).

(** [/^\d{5}(-\d{4})?$/]. *)
Definition zipRegex : regex :=
  Seq Bol
    (Seq (Repeat 5 (Some 5) (Class is_digit))
       (Seq (Repeat 0 (Some 1)
               (Seq (lit "-") (Repeat 4 (Some 4) (Class is_digit))))
          Eol)).

Definition isValidZipCode (zipCode : jsstring) : bool :=
  regex_test zipRegex zipCode.

(** [/^[^\s@]+@[^\s@]+\.[^\s@]+$/]. *)
Definition emailRegex : regex :=
  Seq Bol
    (Seq (Repeat 1 None (Class is_email_char))
       (Seq (lit "@")
          (Seq (Repeat 1 None (Class is_email_char))
             (Seq (lit ".")
                (Seq (Repeat 1 None (Class is_email_char)) Eol))))).

Definition isValidEmail (email : jsstring) : bool :=
  regex_test emailRegex email.

(** [/^(?!000|666|9\d{2})\d{3}(?!00)\d{2}(?!0000)\d{4}$/]. *)
Definition ssnRegex : regex :=
  Seq Bol
    (Seq (NotAhead
            (Alt (lit "000")
               (Alt (lit "666")
                  (Seq (lit "9") (Repeat 2 (Some 2) (Class is_digit))))))
       (Seq (Repeat 3 (Some 3) (Class is_digit))
          (Seq (NotAhead (lit "00"))
             (Seq (Repeat 2 (Some 2) (Class is_digit))
                (Seq (NotAhead (lit "0000"))
                   (Seq (Repeat 4 (Some 4) (Class is_digit)) Eol)))))).

Definition isValidSSN (ssn : jsstring) : bool :=
  let cleaned := remove_dashes (remove_whitespace ssn) in
  regex_test ssnRegex cleaned.

(** [(25[0-5]|2[0-4][0-9]|[01]?[0-9][0-9]?)]. *)
Definition octet : regex :=
  Alt (Seq (lit "25") (Class (in_range 48 53)))
    (Alt (Seq (lit "2") (Seq (Class (in_range 48 52)) (Class is_digit)))
       (Seq (Repeat 0 (Some 1) (Class is_zero_or_one))
          (Seq (Class is_digit) (Repeat 0 (Some 1) (Class is_digit))))).

(** The pattern [ipv4Regex]: four octets with dots between. *)
Definition ipv4Regex : regex :=
  Seq Bol
    (Seq octet (Seq (lit ".")
       (Seq octet (Seq (lit ".")
          (Seq octet (Seq (lit ".")
             (Seq octet Eol))))))).

(** [[0-9a-fA-F]{1,4}], the group [([0-9a-fA-F]{1,4}:)], the group
    [(:[0-9a-fA-F]{1,4})] and [(([0-9]{1,3}\.){3,3}[0-9]{1,3})]. *)
Definition h16 : regex := Repeat 1 (Some 4) (Class is_hex).
Definition h16_colon : regex := Seq h16 (lit ":").
Definition colon_h16 : regex := Seq (lit ":") h16.
Definition dotted_tail : regex :=
  Seq (Repeat 3 (Some 3) (Seq (Repeat 1 (Some 3) (Class is_digit)) (lit ".")))
      (Repeat 1 (Some 3) (Class is_digit)).

(** The twelve alternatives of [ipv6Regex], in the order of the source. *)
Definition ipv6_alternatives : list regex :=
  [ Seq (Repeat 7 (Some 7) h16_colon) h16;
    Seq (Repeat 1 (Some 7) h16_colon) (lit ":");
    Seq (Repeat 1 (Some 6) h16_colon) colon_h16;
    Seq (Repeat 1 (Some 5) h16_colon) (Repeat 1 (Some 2) colon_h16);
    Seq (Repeat 1 (Some 4) h16_colon) (Repeat 1 (Some 3) colon_h16);
    Seq (Repeat 1 (Some 3) h16_colon) (Repeat 1 (Some 4) colon_h16);
    Seq (Repeat 1 (Some 2) h16_colon) (Repeat 1 (Some 5) colon_h16);
    Seq h16 (Seq (lit ":") (Repeat 1 (Some 6) colon_h16));
    Seq (lit ":") (Alt (Repeat 1 (Some 7) colon_h16) (lit ":"));
    Seq (lit "fe80:")
      (Seq (Repeat 0 (Some 4)
              (Seq (lit ":") (Repeat 0 (Some 4) (Class is_hex))))
         (Seq (lit "%") (Repeat 1 None (Class is_alnum))));
    Seq (lit "::")
      (Seq (Repeat 0 (Some 1)
              (Seq (lit "ffff")
                 (Seq (Repeat 0 (Some 1)
                         (Seq (lit ":") (Repeat 1 (Some 4) (lit "0"))))
                    (lit ":"))))
         dotted_tail);
    Seq (Repeat 1 (Some 4) h16_colon) (Seq (lit ":") dotted_tail) ].

(** [a1|a2|...|an]. *)
Fixpoint alternatives (l : list regex) : regex :=
  match l with
  | [] => Empty
  | [a] => a
  | a :: r => Alt a (alternatives r)
  end.

Definition ipv6Regex : regex :=
  Seq Bol (Seq (alternatives ipv6_alternatives) Eol).

Definition isValidIpAddress (ip : jsstring) : bool :=
  (regex_test ipv4Regex ip || regex_test ipv6Regex ip)%bool.

(** A matcher does what a relation says: it succeeds exactly when the
    input begins with a stretch the relation accepts and the
    continuation succeeds from its end. *)
Definition matcher_spec (m : matcher)
    (P : nat -> jsstring -> jsstring -> Prop) : Prop :=
  forall n input c,
    m (n, input) c = true
    <-> exists s rest, input = s ++ rest /\ P n s rest
                       /\ c (n + length s, rest) = true.

(** The number a string of decimal digits writes. *)
Definition decimal_value (s : jsstring) : Z :=
  fold_left (fun acc c => 10 * acc + digit_value c)%Z s 0%Z.

(** One to three decimal digits that write a number up to 255. *)
Definition is_octet (o : jsstring) : bool :=
  (forallb is_digit o && Nat.leb 1 (length o) && Nat.leb (length o) 3
   && (decimal_value o <=? 255)%Z)%bool.

(** [requires c r]: read off the pattern, every match of [r] holds the
    character [c]. *)
Fixpoint requires (c : code_unit) (r : regex) : bool :=
  match r with
  | Char x => cu_eqb x c
  | Seq a b => (requires c a || requires c b)%bool
  | Alt a b => (requires c a && requires c b)%bool
  | Repeat min max a =>
      (Nat.ltb 0 min
       && match max with Some O => false | _ => true end
       && requires c a)%bool
  | _ => false
  end.

Definition char_colon : code_unit := 58%N.   (* ':' *)
Definition char_dot : code_unit := 46%N.     (* '.' *)

(** Four octets with dots between. *)
Definition is_dotted_quad_of (s o1 o2 o3 o4 : jsstring) : Prop :=
  s = o1 ++ char_dot :: o2 ++ char_dot :: o3 ++ char_dot :: o4
  /\ is_octet o1 = true /\ is_octet o2 = true
  /\ is_octet o3 = true /\ is_octet o4 = true.

(** A group: one to four digits of radix 16. *)
Definition is_group (g : jsstring) : Prop :=
  (1 <= length g <= 4)%nat /\ Forall (fun c => is_hex c = true) g.

(** [.]: any character but a line terminator. *)
Definition is_dot_char (c : code_unit) : bool := negb (is_line_terminator c).

(** The pattern [isValidPassword] builds:
    [^(?=.*[a-z])(?=.*[A-Z])(?=.*\d)(?=.*[@$!%*?&])[A-Za-z\d@$!%*?&]{minLength,}$]. *)
Definition passwordRegex (minLength : nat) : regex :=
  let ahead cls := Ahead (Seq (Repeat 0 None (Class is_dot_char)) (Class cls)) in
  Seq Bol
    (Seq (ahead is_lower)
       (Seq (ahead is_upper)
          (Seq (ahead is_digit)
             (Seq (ahead is_special)
                (Seq (Repeat minLength None (Class is_password_char)) Eol))))).

(** [/^\d{13,19}$/]. *)
Definition cardRegex : regex :=
  Seq Bol (Seq (Repeat 13 (Some 19%nat) (Class is_digit)) Eol).

(* ===================================================================== *)
(** * Properties *)
(* ===================================================================== *)

(** ** The rate limiters *)


Section RateLimiterFacts.

Variable Args : Type.

Local Abbreviation tevent := (event (Args * behaviour Args)%type).
Local Abbreviation event := (event Args).
Local Abbreviation throttled := (throttled Args).
Local Abbreviation debounced := (debounced Args).

(** *** One pending timer *)

Lemma elapse_empty (Task : Type) (d : Z) (l : event_loop Task) :
  queue l = [] ->
  elapse d l = ([], {| now := now l + Z.max 0 d; next_id := next_id l; queue := [] |}).
Proof. intros E. unfold elapse. rewrite E. reflexivity. Qed.

Lemma elapse_pending (Task : Type) (d : Z) (l : event_loop Task) id due k :
  queue l = [Timer id due k] ->
  (now l + Z.max 0 d < due)%Z ->
  elapse d l = ([], {| now := now l + Z.max 0 d; next_id := next_id l;
                       queue := [Timer id due k] |}).
Proof.
  intros E H. unfold elapse. rewrite E. cbn. unfold is_due. cbn.
  destruct (Z.leb_spec due (now l + Z.max 0 d)); [lia | reflexivity].
Qed.

Lemma elapse_fires (Task : Type) (d : Z) (l : event_loop Task) id due k :
  queue l = [Timer id due k] ->
  (due <= now l + Z.max 0 d)%Z ->
  elapse d l = ([k], {| now := now l + Z.max 0 d; next_id := next_id l;
                        queue := [] |}).
Proof.
  intros E H. unfold elapse. rewrite E. cbn. unfold is_due. cbn.
  destruct (Z.leb_spec due (now l + Z.max 0 d)); [reflexivity | lia].
Qed.

(** *** throttle *)
















(** *** debounce *)

Lemma debounce_call_state delay a (w : debounced) :
  debounce_inv w ->
  debounce delay a w =
    Debounced (EventLoop (now (d_loop w)) (S (next_id (d_loop w)))
                         [Timer (next_id (d_loop w))
                                (now (d_loop w) + Z.max 0 delay) a])
              (Some (next_id (d_loop w))) (d_executed w).
Proof.
  intros [Q | (id & due & b & Q & T)]; unfold debounce, clearTimeout, setTimeout.
  - destruct (timeoutId w); cbn; rewrite Q; reflexivity.
  - rewrite T. cbn. rewrite Q. cbn. rewrite Nat.eqb_refl. reflexivity.
Qed.

Lemma debounce_step_inv delay (w : debounced) e :
  debounce_inv w -> debounce_inv (debounce_step delay w e).
Proof.
  intros I. destruct e as [a | d]; unfold debounce_step.
  - rewrite (debounce_call_state delay a I). right. cbn. eauto.
  - unfold debounce_wait. destruct I as [Q | (id & due & b & Q & T)].
    + rewrite (elapse_empty d _ Q). left. reflexivity.
    + destruct (Z.lt_ge_cases (now (d_loop w) + Z.max 0 d) due) as [L | L].
      * rewrite (elapse_pending d _ Q L). right. cbn. eauto.
      * rewrite (elapse_fires d _ Q L). left. reflexivity.
Qed.

Lemma debounce_run_inv delay es (w : debounced) :
  debounce_inv w -> debounce_inv (debounce_run delay es w).
Proof.
  revert w. induction es as [| e es IH]; intros w I; cbn; [exact I |].
  apply IH, debounce_step_inv, I.
Qed.

Lemma debounce_init_inv : debounce_inv (@debounce_init Args).
Proof. left. reflexivity. Qed.

(** While invocations keep coming in time, nothing runs and the one
    pending timer carries the arguments of the latest invocation. *)
Lemma debounce_pending delay es : forall (w : debounced) since id a,
  queue (d_loop w) = [Timer id (now (d_loop w) - since + Z.max 0 delay) a] ->
  timeoutId w = Some id ->
  paced true delay since es ->
  exists id',
    debounce_run delay es w =
      Debounced (EventLoop (now (d_loop w) + waited es)
                           (next_id (d_loop (debounce_run delay es w)))
                           [Timer id' (now (d_loop w) + waited es
                                       - quiet since es + Z.max 0 delay)
                                  (last_call a es)])
                (Some id') (d_executed w).
Proof.
  induction es as [| [b | d] es IH]; intros w since id a Q T P.
  - exists id. destruct w as [[n i q] t x]; cbn in *. subst.
    f_equal. f_equal; [lia |]. f_equal. f_equal. lia.
  - assert (I : debounce_inv w) by (right; eauto).
    change (debounce_run delay (Call b :: es) w)
      with (debounce_run delay es (debounce delay b w)).
    pose proof (debounce_call_state delay b I) as E0.
    destruct (IH (debounce delay b w) 0%Z (next_id (d_loop w)) b) as [id' E].
    + rewrite E0. simpl. f_equal. f_equal. lia.
    + rewrite E0. reflexivity.
    + exact P.
    + exists id'. rewrite E at 1. rewrite E0. reflexivity.
  - destruct P as [P1 P2].
    change (debounce_run delay (Wait d :: es) w)
      with (debounce_run delay es (debounce_wait d w)).
    assert (E0 : debounce_wait d w =
      Debounced (EventLoop (now (d_loop w) + Z.max 0 d) (next_id (d_loop w))
                           (queue (d_loop w)))
                (timeoutId w) (d_executed w)).
    { unfold debounce_wait. rewrite (elapse_pending d _ Q) by lia.
      rewrite Q, app_nil_r. reflexivity. }
    destruct (IH (debounce_wait d w) (since + Z.max 0 d)%Z id a) as [id' E].
    + rewrite E0. simpl. rewrite Q. f_equal. f_equal. lia.
    + rewrite E0. exact T.
    + exact P2.
    + exists id'. rewrite E at 1. rewrite E0. simpl.
      f_equal. f_equal; [lia |]. f_equal. f_equal. lia.
Qed.


(** C2. The wrapper [debounce(action, delayMs)] returns, taken after any
    history: over a burst of invocations in which every wait between two
    of them stays below [delayMs], nothing is executed and each
    invocation leaves exactly one pending timer, its own (the one before
    is cancelled); once [delayMs] has passed since the last invocation
    with no further one, [action] has executed exactly once, with the
    arguments of the last invocation, and nothing is left to execute. *)
Theorem debounce_trailing_edge (delay : Z) (history : list event) (a : Args)
    (burst : list event) (d later : Z) :
  let w := debounce_run delay history debounce_init in
  let w1 := debounce_run delay (Call a :: burst) w in
  let w2 := debounce_wait d w1 in
  paced true delay 0 burst ->
  (Z.max 0 delay <= quiet 0 burst + Z.max 0 d)%Z ->
  (forall pre c post, Call a :: burst = pre ++ Call c :: post ->
     exists id due,
       queue (d_loop (debounce_run delay (pre ++ [Call c]) w))
       = [Timer id due c])
  /\ d_executed w1 = d_executed w
  /\ (exists id,
        queue (d_loop w1)
        = [Timer id (now (d_loop w1) - quiet 0 burst + Z.max 0 delay)
                 (last_call a burst)]
        /\ timeoutId w1 = Some id)
  /\ d_executed w2 = d_executed w ++ [last_call a burst]
  /\ queue (d_loop w2) = []
  /\ d_executed (debounce_wait later w2) = d_executed w2.
Proof.
  intros w w1 w2 P D.
  assert (I : debounce_inv w)
    by (apply debounce_run_inv, debounce_init_inv).
  split.
  { intros pre c post _.
    assert (I' : debounce_inv (debounce_run delay pre w))
      by (apply (debounce_run_inv delay pre I)).
    replace (debounce_run delay (pre ++ [Call c]) w)
      with (debounce delay c (debounce_run delay pre w))
      by (unfold debounce_run; now rewrite fold_left_app).
    rewrite (debounce_call_state delay c I'). simpl. eauto. }
  pose proof (debounce_call_state delay a I) as E0.
  destruct (@debounce_pending delay burst (debounce delay a w) 0%Z
              (next_id (d_loop w)) a) as [id E1].
  { rewrite E0. simpl. f_equal. f_equal. lia. }
  { rewrite E0. reflexivity. }
  { exact P. }
  change (debounce_run delay burst (debounce delay a w)) with w1 in E1.
  rewrite E0 in E1. simpl in E1.
  set (n := next_id (d_loop w1)) in E1. clearbody n.
  split; [rewrite E1; reflexivity |].
  split.
  { exists id. rewrite E1. simpl. split; reflexivity. }
  assert (E2 : w2 = Debounced
            (EventLoop (now (d_loop w) + waited burst + Z.max 0 d) n [])
            (Some id) (d_executed w ++ [last_call a burst])).
  { unfold w2, debounce_wait. rewrite E1.
    erewrite elapse_fires; [reflexivity | reflexivity | simpl; lia]. }
  rewrite E2. simpl. repeat split. apply app_nil_r.
Qed.

End RateLimiterFacts.



(** A witness of [debounce_trailing_edge]: a fresh wrapper with a delay
    of 300 ms, three invocations 100 ms and 250 ms apart, then quiet. *)
Lemma debounce_trailing_edge_witness :
  let burst := [Wait 100; Call 2%nat; Wait 250; Call 3%nat] in
  paced true 300 0 burst
  /\ (Z.max 0 300 <= quiet 0 burst + Z.max 0 300)%Z
  /\ d_executed (debounce_run 300 (Call 1%nat :: burst) debounce_init) = []
  /\ d_executed
       (debounce_wait 300
          (debounce_run 300 (Call 1%nat :: burst) debounce_init))
     = [3%nat].
Proof.
  intros burst.
  assert (H1 : paced true 300 0 burst) by (simpl; lia).
  assert (H2 : (Z.max 0 300 <= quiet 0 burst + Z.max 0 300)%Z) by (simpl; lia).
  repeat (split; [assumption |]).
  destruct (debounce_trailing_edge 300 [] 1%nat burst 300 0 H1 H2)
    as (_ & E1 & _ & E2 & _).
  split; [exact E1 | exact E2].
Defined.

(** ** Code units *)

(** Turns boolean tests on code units into arithmetic. *)
Ltac cu_arith :=
  unfold is_password_char, is_special, is_lower, is_upper, is_digit,
    is_line_terminator, is_space, cu_mem, in_range, cu_eqb,
    char_space, char_dash in *;
  simpl existsb in *;
  repeat match goal with
    | H : _ = false |- _ => apply not_true_iff_false in H
    | |- _ = false => apply not_true_iff_false; intro
    end;
  repeat (progress (rewrite ?negb_true_iff, ?andb_true_iff, ?orb_true_iff,
                      ?N.leb_le, ?N.eqb_eq in * ));
  try (intuition (try discriminate; lia)).

Lemma password_char_not_terminator c :
  is_password_char c = true -> is_line_terminator c = false.
Proof.
  intros H. cu_arith.
Qed.

Lemma digit_not_space c : is_digit c = true -> is_space c = false.
Proof.
  intros H. cu_arith.
Qed.

Lemma digit_not_dash c : is_digit c = true -> cu_eqb c char_dash = false.
Proof.
  intros H. cu_arith.
Qed.

Lemma upper_not_space c : is_upper c = true -> is_space c = false.
Proof.
  intros H. cu_arith.
Qed.

(** ** isValidPassword *)

Lemma lookahead_contains cls s : lookahead cls s = true -> contains cls s.
Proof.
  induction s as [| c r IH]; simpl; [discriminate |].
  rewrite orb_true_iff, andb_true_iff. intros [H | [_ H]].
  - exists c. simpl. auto.
  - destruct (IH H) as (x & I & Hx). exists x. simpl. auto.
Qed.

Lemma contains_lookahead cls s :
  forallb is_password_char s = true -> contains cls s -> lookahead cls s = true.
Proof.
  induction s as [| c r IH]; simpl; intros A (x & I & Hx); [contradiction |].
  apply andb_true_iff in A. destruct A as [Ac Ar].
  destruct I as [-> | I]; [now rewrite Hx |].
  rewrite (password_char_not_terminator _ Ac), IH; [| exact Ar | exists x; auto].
  apply orb_true_r.
Qed.

(** C3, as the code has it. [isValidPassword(p, minLength)] is true
    exactly when [p] has at least [minLength] characters, every one of
    them a letter, a digit or one of [@$!%*?&], and a lowercase letter,
    an uppercase letter, a digit and one of [@$!%*?&] all occur. *)
Theorem isValidPassword_iff (p : jsstring) (minLength : nat) :
  isValidPassword p minLength = true
  <-> (minLength <= length p)%nat
      /\ Forall (fun c => is_password_char c = true) p
      /\ contains is_lower p /\ contains is_upper p
      /\ contains is_digit p /\ contains is_special p.
Proof.
  unfold isValidPassword. rewrite !andb_true_iff, Nat.leb_le.
  rewrite forallb_forall, Forall_forall. split.
  - intros ((((L & U) & D) & S) & A & N).
    repeat split; auto using lookahead_contains.
  - intros (N & A & L & U & D & S).
    assert (A' : forallb is_password_char p = true)
      by (apply forallb_forall, A).
    repeat split; auto using contains_lookahead.
Qed.

(** C3 as stated fails: a password of ten characters with all four
    classes is refused because of its ['#']. *)
Lemma isValidPassword_rejects_other_chars :
  ~ (forall (p : jsstring) (minLength : nat),
       (minLength <= length p)%nat ->
       contains is_lower p -> contains is_upper p ->
       contains is_digit p -> contains is_special p ->
       isValidPassword p minLength = true).
Proof.
  intros H.
  specialize (H (str "Passw0rd!#") 8%nat).
  assert (E : isValidPassword (str "Passw0rd!#") 8 = false) by reflexivity.
  rewrite H in E; [discriminate | simpl; lia | | | |].
  - exists 97%N. simpl. auto 12.
  - exists 80%N. simpl. auto.
  - exists 48%N. simpl. auto 12.
  - exists 33%N. simpl. auto 12.
Qed.

(** ** isValidCreditCard *)

Lemma remove_ws_dashes s :
  remove_dashes (remove_whitespace s) = strip_whitespace_dashes s.
Proof.
  unfold remove_dashes, remove_whitespace, strip_whitespace_dashes.
  induction s as [| c r IH]; simpl; [reflexivity |].
  destruct (is_space c); simpl; [exact IH |].
  destruct (cu_eqb c char_dash); simpl; [exact IH | now rewrite IH].
Qed.

Lemma is_card_shape_iff cleaned :
  is_card_shape cleaned = true
  <-> (13 <= length cleaned <= 19)%nat
      /\ Forall (fun c => is_digit c = true) cleaned.
Proof.
  unfold is_card_shape.
  rewrite !andb_true_iff, !Nat.leb_le, forallb_forall, Forall_forall.
  tauto.
Qed.

Lemma luhn_loop_step_digit c r acc :
  is_digit c = true ->
  luhn_loop (c :: r) (Some acc) false
  = luhn_loop r (Some (acc + digit_value c)%Z) true.
Proof. intros D. simpl. unfold parseInt. rewrite D. reflexivity. Qed.

Lemma luhn_loop_step_doubled c r acc :
  is_digit c = true ->
  luhn_loop (c :: r) (Some acc) true
  = luhn_loop r (Some (acc + luhn_double (digit_value c))%Z) false.
Proof.
  intros D. simpl. unfold parseInt. rewrite D. simpl.
  unfold luhn_double, digit_value.
  replace (2 * (Z.of_N c - 48))%Z with ((Z.of_N c - 48) * 2)%Z by lia.
  destruct (9 <? (Z.of_N c - 48) * 2)%Z; reflexivity.
Qed.

(** The loop computes the Luhn sum of the specification: by induction
    two digits at a time. *)
Lemma luhn_loop_sum (l : jsstring) :
  Forall (fun c => is_digit c = true) l ->
  (forall acc, luhn_loop l (Some acc) false
               = Some (acc + luhn_sum (map digit_value l))%Z)
  /\ (forall acc c, is_digit c = true ->
        luhn_loop (c :: l) (Some acc) false
        = Some (acc + luhn_sum (map digit_value (c :: l)))%Z).
Proof.
  induction l as [| x l IH]; intros D.
  - split; intros acc; [simpl; f_equal; lia |].
    intros c Dc. rewrite luhn_loop_step_digit by exact Dc. reflexivity.
  - inversion D as [| ? ? Dx Dl]; subst.
    destruct (IH Dl) as [IH1 IH2]. split.
    + intros acc. apply IH2, Dx.
    + intros acc c Dc.
      rewrite luhn_loop_step_digit by exact Dc.
      rewrite luhn_loop_step_doubled by exact Dx.
      rewrite IH1. simpl. f_equal. lia.
Qed.

(** C4, as the code has it. [isValidCreditCard(s)] is true exactly when
    [s] without its white space and dashes is 13 to 19 decimal digits with
    a Luhn sum (every second digit from the rightmost doubled, less 9
    above 9) divisible by 10; it accepts ["4532015112830366"] and
    refuses ["1234567890123456"]. *)
Theorem isValidCreditCard_luhn :
  (forall s : jsstring,
     isValidCreditCard s = true <-> luhn_valid (strip_whitespace_dashes s))
  /\ isValidCreditCard (str "4532015112830366") = true
  /\ isValidCreditCard (str "1234567890123456") = false.
Proof.
  split; [| split; reflexivity].
  intros s. unfold isValidCreditCard, luhn_valid.
  rewrite remove_ws_dashes.
  set (cleaned := strip_whitespace_dashes s).
  destruct (is_card_shape cleaned) eqn:S; simpl.
  - apply is_card_shape_iff in S. destruct S as [L D].
    assert (Dr : Forall (fun c => is_digit c = true) (rev cleaned))
      by (apply Forall_rev, D).
    rewrite (proj1 (luhn_loop_sum Dr) 0%Z), Z.add_0_l, Z.eqb_eq. tauto.
  - split; [discriminate |]. intros (L & D & _).
    assert (S' : is_card_shape cleaned = true)
      by (apply is_card_shape_iff; auto).
    congruence.
Qed.

(** C4 as stated fails when "spaces" are the space characters: a card
    number followed by a line feed is accepted, although a line feed is
    left once the spaces and dashes are removed. *)
Lemma isValidCreditCard_strips_all_whitespace :
  ~ (forall s : jsstring,
       isValidCreditCard s = true <-> luhn_valid (strip_spaces_dashes s)).
Proof.
  intros H.
  destruct (H (str "4532015112830366" ++ [10%N])) as [H1 _].
  destruct (H1 eq_refl) as (_ & D & _).
  rewrite Forall_forall in D.
  specialize (D 10%N). simpl in D.
  assert (F : is_digit 10%N = true) by (apply D; auto 20).
  discriminate F.
Qed.

(** ** Random draws *)

Lemma later_in_unit_interval s : in_unit_interval s -> in_unit_interval (later s).
Proof. intros H n. apply H. Qed.

(** [Math.floor(Math.random() * n)] is an index below [n]. *)
Lemma random_below_spec (n : Z) (s : draws) :
  in_unit_interval s -> (0 < n)%Z ->
  exists k, random_below n s = (k, later s) /\ (0 <= k < n)%Z.
Proof.
  intros U N. destruct (U 0%nat) as [L H].
  exists (Qfloor (s 0%nat * inject_Z n)). split; [reflexivity |].
  assert (Pn : (0 < inject_Z n)%Q)
    by (change (inject_Z 0 < inject_Z n)%Q; rewrite <- Zlt_Qlt; exact N).
  split.
  - change 0%Z with (Qfloor 0). apply Qfloor_resp_le.
    apply Qmult_le_0_compat; [exact L | apply Qlt_le_weak, Pn].
  - rewrite Zlt_Qlt.
    apply Qle_lt_trans with (s 0%nat * inject_Z n)%Q; [apply Qfloor_le |].
    rewrite <- (Qmult_1_l (inject_Z n)) at 2.
    apply Qmult_lt_compat_r; assumption.
Qed.

Lemma char_at_some (chars : jsstring) (i : Z) :
  (0 <= i < Z.of_nat (length chars))%Z ->
  exists c, char_at chars i = Some c /\ In c chars.
Proof.
  intros R. unfold char_at.
  destruct (Z.ltb_spec i 0); [lia |].
  destruct (nth_error chars (Z.to_nat i)) as [c |] eqn:E.
  - exists c. split; [reflexivity |]. eapply nth_error_In, E.
  - apply nth_error_None in E. lia.
Qed.

(** ** generateCoupon *)

Lemma coupon_loop_spec (chars : jsstring) : chars <> [] ->
  forall (n : nat) (coupon : jsstring) (s : draws),
    in_unit_interval s ->
    exists body,
      result (coupon_loop n chars coupon) s = coupon ++ body
      /\ length body = n
      /\ Forall (fun c => In c chars) body.
Proof.
  intros NE. induction n as [| n IH]; intros coupon s U.
  - exists []. simpl. rewrite app_nil_r. auto.
  - assert (P : (0 < Z.of_nat (length chars))%Z)
      by (destruct chars; [congruence | simpl; lia]).
    destruct (random_below_spec U P) as (k & E & R).
    destruct (char_at_some chars R) as (c & Ec & Ic).
    destruct (IH (coupon ++ [c]) (later s) (later_in_unit_interval U))
      as (body & Eb & Lb & Fb).
    exists (c :: body). unfold result in *. simpl coupon_loop. unfold bind.
    rewrite E, Ec. simpl append_char. rewrite Eb, <- app_assoc.
    simpl. auto.
Qed.

Lemma coupon_chars_in (options : CouponOptions) (c : code_unit) :
  In c (coupon_chars options)
  <-> (or_default (includeNumbers options) true = true /\ In c numbers)
      \/ (or_default (includeUppercase options) true = true /\ In c uppercase)
      \/ (or_default (includeLowercase options) false = true /\ In c lowercase)
      \/ (or_default (includeSpecialChars options) false = true /\ In c special).
Proof.
  unfold coupon_chars.
  destruct (or_default (includeNumbers options) true),
    (or_default (includeUppercase options) true),
    (or_default (includeLowercase options) false),
    (or_default (includeSpecialChars options) false);
    rewrite ?in_app_iff; simpl (In c []); intuition discriminate.
Qed.

Lemma coupon_chars_empty (options : CouponOptions) :
  coupon_chars options = []
  <-> or_default (includeNumbers options) true = false
      /\ or_default (includeUppercase options) true = false
      /\ or_default (includeLowercase options) false = false
      /\ or_default (includeSpecialChars options) false = false.
Proof.
  unfold coupon_chars.
  destruct (or_default (includeNumbers options) true),
    (or_default (includeUppercase options) true),
    (or_default (includeLowercase options) false),
    (or_default (includeSpecialChars options) false);
    (split; [intros E; try discriminate E; auto | intros (? & ? & ? & ?)];
     try discriminate; reflexivity).
Qed.

Lemma jsstring_eqb_nil (s : jsstring) : jsstring_eqb s [] = true <-> s = [].
Proof. destruct s; simpl; split; intros H; congruence. Qed.

Lemma remove_whitespace_id (s : jsstring) :
  Forall (fun c => is_space c = false) s -> remove_whitespace s = s.
Proof.
  unfold remove_whitespace. induction 1 as [| c r Hc _ IH]; simpl; [reflexivity |].
  rewrite Hc. simpl. now rewrite IH.
Qed.

Lemma in_numbers_digit c : In c numbers -> is_digit c = true.
Proof. simpl. intuition (subst; reflexivity). Qed.

Lemma in_uppercase_upper c : In c uppercase -> is_upper c = true.
Proof. simpl. intuition (subst; reflexivity). Qed.

Lemma remove_whitespace_spec (s : jsstring) :
  without_white_space s (remove_whitespace s).
Proof.
  unfold remove_whitespace. induction s as [| c r IH]; simpl; [constructor |].
  destruct (is_space c) eqn:E; simpl; constructor; assumption.
Qed.

Lemma without_white_space_clean (s r : jsstring) :
  without_white_space s r -> Forall (fun c => is_space c = false) r.
Proof. induction 1; auto. Qed.

(** C5. [generateCoupon] throws exactly when the alphabet is empty, which
    is when all four flags are off; otherwise, whatever the draws, it
    returns [prefix + body + suffix] with every white space character
    left out and nothing else, so that no white space is left in the
    result, where [body] has [length] characters, each from a class that
    is switched on. With
    [{ length: 10, includeNumbers: true, includeUppercase: true }] the
    result always is ten characters, digits and capitals only. *)
Theorem generateCoupon_spec (options : CouponOptions) (s : draws) :
  in_unit_interval s ->
  ((exists message, result (generateCoupon options) s = Thrown message)
   <-> or_default (includeNumbers options) true = false
       /\ or_default (includeUppercase options) true = false
       /\ or_default (includeLowercase options) false = false
       /\ or_default (includeSpecialChars options) false = false)
  /\ (~ (or_default (includeNumbers options) true = false
         /\ or_default (includeUppercase options) true = false
         /\ or_default (includeLowercase options) false = false
         /\ or_default (includeSpecialChars options) false = false) ->
      exists body coupon,
           result (generateCoupon options) s = Returned coupon
           /\ without_white_space
                (or_default (opt_prefix options) [] ++ body
                 ++ or_default (opt_suffix options) []) coupon
           /\ Forall (fun c => is_space c = false) coupon
           /\ length body = Z.to_nat (or_default (opt_length options) 8%Z)
           /\ Forall (fun c =>
                (or_default (includeNumbers options) true = true
                 /\ In c numbers)
                \/ (or_default (includeUppercase options) true = true
                    /\ In c uppercase)
                \/ (or_default (includeLowercase options) false = true
                    /\ In c lowercase)
                \/ (or_default (includeSpecialChars options) false = true
                    /\ In c special)) body)
  /\ exists coupon,
       result (generateCoupon ten_digits_and_capitals) s = Returned coupon
       /\ length coupon = 10%nat
       /\ Forall (fun c => (is_digit c || is_upper c)%bool = true) coupon.
Proof.
  intros U.
  assert (G : forall o,
    (coupon_chars o = []
     /\ exists message, result (generateCoupon o) s = Thrown message)
    \/ (coupon_chars o <> []
        /\ exists body,
             result (generateCoupon o) s
             = Returned (remove_whitespace
                           (or_default (opt_prefix o) [] ++ body
                            ++ or_default (opt_suffix o) []))
             /\ length body = Z.to_nat (or_default (opt_length o) 8%Z)
             /\ Forall (fun c => In c (coupon_chars o)) body)).
  { intros o. unfold result, generateCoupon.
    destruct (jsstring_eqb (coupon_chars o) []) eqn:E.
    - left. apply jsstring_eqb_nil in E. split; [exact E |].
      eexists. reflexivity.
    - right.
      assert (NE : coupon_chars o <> []).
      { intros C. apply jsstring_eqb_nil in C. congruence. }
      split; [exact NE |].
      destruct (coupon_loop_spec NE (Z.to_nat (or_default (opt_length o) 8%Z))
                  [] U) as (body & Eb & Lb & Fb).
      exists body. unfold bind. unfold result in Eb.
      destruct (coupon_loop _ _ _ s) as [coupon s'].
      simpl in Eb. subst coupon. simpl. auto. }
  split; [| split].
  - rewrite <- coupon_chars_empty.
    destruct (G options) as [[E T] | [NE (body & Eb & _)]].
    + tauto.
    + split; [| contradiction]. intros [m Em]. congruence.
  - rewrite <- coupon_chars_empty.
    destruct (G options) as [[E T] | [NE (body & Eb & Lb & Fb)]].
    + intros C. contradiction.
    + intros _. exists body. eexists. split; [exact Eb |].
      split; [apply remove_whitespace_spec |].
      split; [apply (without_white_space_clean (remove_whitespace_spec _)) |].
      split; [exact Lb |].
      eapply Forall_impl; [| exact Fb]. intros c. apply coupon_chars_in.
  - destruct (G ten_digits_and_capitals) as [[E _] | [_ (body & Eb & Lb & Fb)]].
    + discriminate E.
    + assert (Fc : Forall (fun c => (is_digit c || is_upper c)%bool = true) body).
      { eapply Forall_impl; [| exact Fb]. intros c I.
        apply coupon_chars_in in I. simpl or_default in I.
        destruct I as [[_ I] | [[_ I] | [[I _] | [I _]]]]; try discriminate I.
        - now rewrite (in_numbers_digit I).
        - rewrite (in_uppercase_upper I). apply orb_true_r. }
      exists body. simpl or_default in *. simpl app in Eb.
      rewrite app_nil_r in Eb. rewrite remove_whitespace_id in Eb.
      * repeat split; auto.
      * eapply Forall_impl; [| exact Fc]. intros c H.
        apply orb_true_iff in H. destruct H as [H | H].
        -- apply digit_not_space, H.
        -- apply upper_not_space, H.
Qed.

(** A witness of [generateCoupon_spec]: every draw is one half; the
    call of the example, and a call with white space in the prefix and
    in the suffix. *)
Lemma generateCoupon_spec_witness :
  in_unit_interval (fun _ => 1 # 2)%Q
  /\ (exists coupon,
        result (generateCoupon ten_digits_and_capitals) (fun _ => 1 # 2)%Q
        = Returned coupon
        /\ length coupon = 10%nat
        /\ Forall (fun c => (is_digit c || is_upper c)%bool = true) coupon)
  /\ (exists body coupon,
        result (generateCoupon spaced_affixes) (fun _ => 1 # 2)%Q
        = Returned coupon
        /\ without_white_space
             (str "SUMMER SALE-" ++ body ++ str " 20 25") coupon
        /\ Forall (fun c => is_space c = false) coupon
        /\ length body = 4%nat)
  /\ result (generateCoupon spaced_affixes) (fun _ => 1 # 2)%Q
     = Returned (str "SUMMERSALE-IIII2025").
Proof.
  assert (U : in_unit_interval (fun _ => 1 # 2)%Q)
    by (intros n; split; [unfold Qle; simpl; lia | reflexivity]).
  split; [exact U |].
  split; [exact (proj2 (proj2 (generateCoupon_spec ten_digits_and_capitals U))) |].
  split; [| reflexivity].
  assert (F : ~ (or_default (includeNumbers spaced_affixes) true = false
                 /\ or_default (includeUppercase spaced_affixes) true = false
                 /\ or_default (includeLowercase spaced_affixes) false = false
                 /\ or_default (includeSpecialChars spaced_affixes) false = false))
    by (simpl; intros [H _]; discriminate H).
  destruct (proj1 (proj2 (generateCoupon_spec spaced_affixes U)) F)
    as (body & coupon & E & W & C & L & _).
  exists body, coupon. repeat split; assumption.
Defined.

(** ** generateRandomPassword *)

Lemma randomChar_spec (cls : code_unit -> bool) (min max : Z) (s : draws) :
  in_unit_interval s ->
  (0 <= min <= max)%Z ->
  charset_range cls (Z.to_nat min) (Z.to_nat (max - min + 1)) = true ->
  exists c, randomChar min max s = (Some c, later s) /\ cls c = true.
Proof.
  intros U R C.
  assert (P : (0 < max - min + 1)%Z) by lia.
  destruct (random_below_spec U P) as (k & E & Rk).
  unfold randomChar, bind. rewrite E. unfold ret, char_at.
  destruct (Z.ltb_spec (k + min) 0); [lia |].
  unfold charset_range in C. rewrite forallb_forall in C.
  specialize (C (Z.to_nat (k + min))).
  destruct (nth_error charset (Z.to_nat (k + min))) as [c |] eqn:En.
  - exists c. split; [reflexivity |]. apply C, in_seq. lia.
  - assert (F : false = true) by (apply C, in_seq; lia). discriminate F.
Qed.

Lemma fill_password_spec (n : nat) :
  forall (password : jsstring) (s : draws),
    in_unit_interval s ->
    exists extra s',
      fill_password n (map Some password) s = (map Some (password ++ extra), s')
      /\ length extra = n
      /\ in_unit_interval s'.
Proof.
  induction n as [| n IH]; intros password s U.
  - exists [], s. simpl. rewrite app_nil_r. auto.
  - destruct (@randomChar_spec (fun _ => true) 0 (Z.of_nat (length charset) - 1) s U)
      as (c & E & _); [simpl; lia | reflexivity |].
    destruct (IH (password ++ [c]) (later s) (later_in_unit_interval U))
      as (extra & s' & E' & L & U').
    exists (c :: extra), s'. cbn [fill_password]. unfold bind at 1. rewrite E.
    replace (map Some password ++ [Some c]) with (map Some (password ++ [c]))
      by (rewrite map_app; reflexivity).
    rewrite E', <- app_assoc. simpl. auto.
Qed.

(** Before the shuffle the array holds a lowercase letter, a capital, a
    digit and a symbol, then the filling, and no [undefined]. *)
Lemma password_array_spec (len : Z) (s : draws) :
  in_unit_interval s ->
  exists c1 c2 c3 c4 extra s',
    password_array len s = (map Some (c1 :: c2 :: c3 :: c4 :: extra), s')
    /\ is_lower c1 = true /\ is_upper c2 = true
    /\ is_digit c3 = true /\ is_symbol c4 = true
    /\ length extra = Z.to_nat (len - 4)
    /\ in_unit_interval s'.
Proof.
  intros U0.
  pose proof (later_in_unit_interval U0) as U1.
  pose proof (later_in_unit_interval U1) as U2.
  pose proof (later_in_unit_interval U2) as U3.
  pose proof (later_in_unit_interval U3) as U4.
  destruct (@randomChar_spec is_lower 0 25 _ U0) as (c1 & E1 & C1);
    [lia | reflexivity |].
  destruct (@randomChar_spec is_upper 26 51 _ U1) as (c2 & E2 & C2);
    [lia | reflexivity |].
  destruct (@randomChar_spec is_digit 52 61 _ U2) as (c3 & E3 & C3);
    [lia | reflexivity |].
  destruct (@randomChar_spec is_symbol 62 68 _ U3) as (c4 & E4 & C4);
    [lia | reflexivity |].
  destruct (fill_password_spec (Z.to_nat (len - 4)) [c1; c2; c3; c4] U4)
    as (extra & s' & E & L & U').
  exists c1, c2, c3, c4, extra, s'.
  unfold password_array, bind. rewrite E1, E2, E3, E4.
  change [Some c1; Some c2; Some c3; Some c4]
    with (map Some [c1; c2; c3; c4]).
  rewrite E. simpl. auto 10.
Qed.

Lemma join_map_Some (l : jsstring) : join (map Some l) = l.
Proof.
  unfold join. induction l as [| c l IH]; simpl; [reflexivity |].
  now rewrite IH.
Qed.

Lemma contains_permutation cls (a b : jsstring) :
  Permutation a b -> contains cls a -> contains cls b.
Proof.
  intros P (c & I & H). exists c. split; [| exact H].
  eapply Permutation_in; eauto.
Qed.

(** The insertion sort returns a permutation, whatever the comparator
    answers. *)
Lemma sort_insert_permutation (A : Type) (cmp : A -> A -> Rand Q) (x : A) :
  forall (l : list A) (s : draws),
    Permutation (x :: l) (result (sort_insert cmp x l) s).
Proof.
  unfold result. induction l as [| y r IH]; intros s; simpl.
  - apply Permutation_refl.
  - unfold bind. destruct (cmp x y s) as [c s1].
    destruct (Qle_bool c 0); simpl; [apply Permutation_refl |].
    specialize (IH s1). destruct (sort_insert cmp x r s1) as [r' s2].
    simpl in *. rewrite perm_swap. apply perm_skip, IH.
Qed.

Lemma insertion_sort_permutation (A : Type) (cmp : A -> A -> Rand Q) :
  forall (l : list A) (s : draws),
    Permutation l (result (insertion_sort cmp l) s).
Proof.
  unfold result. induction l as [| x r IH]; intros s; simpl.
  - apply Permutation_refl.
  - unfold bind. specialize (IH s).
    destruct (insertion_sort cmp r s) as [r' s1]. simpl in IH.
    rewrite IH. apply (sort_insert_permutation cmp x r' s1).
Qed.

Lemma isValidPassword_other_char (p : jsstring) (minLength : nat) (c : code_unit) :
  In c p -> is_password_char c = false -> isValidPassword p minLength = false.
Proof.
  intros I H. apply not_true_iff_false. intros V.
  unfold isValidPassword in V. rewrite !andb_true_iff in V.
  destruct V as (_ & A & _). rewrite forallb_forall in A.
  rewrite (A c I) in H. discriminate H.
Qed.

Section Shuffle.

(** [Array.prototype.sort] of the engine: whatever the comparator
    answers, the array it returns holds the elements it was given. *)
Variable array_sort :
  (option code_unit -> option code_unit -> Rand Q) ->
  list (option code_unit) -> Rand (list (option code_unit)).

Hypothesis array_sort_permutation :
  forall cmp l s, Permutation l (result (array_sort cmp l) s).

Lemma generateRandomPassword_permutation (len : Z) (s : draws) :
  in_unit_interval s ->
  exists c1 c2 c3 c4 extra,
    Permutation (c1 :: c2 :: c3 :: c4 :: extra)
                (result (generateRandomPassword array_sort len) s)
    /\ result (password_array len) s = map Some (c1 :: c2 :: c3 :: c4 :: extra)
    /\ is_lower c1 = true /\ is_upper c2 = true
    /\ is_digit c3 = true /\ is_symbol c4 = true
    /\ length extra = Z.to_nat (len - 4).
Proof.
  intros U.
  destruct (password_array_spec len U)
    as (c1 & c2 & c3 & c4 & extra & s' & E & C1 & C2 & C3 & C4 & L & _).
  exists c1, c2, c3, c4, extra.
  unfold result, generateRandomPassword, bind. rewrite E.
  pose proof (array_sort_permutation random_comparator
                (map Some (c1 :: c2 :: c3 :: c4 :: extra)) s') as P.
  unfold result in P.
  destruct (array_sort random_comparator _ s') as [sorted s''].
  simpl fst in *. repeat split; auto.
  rewrite <- (join_map_Some (c1 :: c2 :: c3 :: c4 :: extra)).
  unfold join. apply Permutation_flat_map, P.
Qed.

(** C6. Whatever the requested length and the draws,
    [generateRandomPassword(length)] returns [max(length, 4)] characters
    among which are a lowercase letter, a capital, a digit and a symbol
    of the fixed set; so a length below 4 still gives the four guaranteed
    characters, and [generateRandomPassword(8)] has length 8. *)
Theorem generateRandomPassword_classes (len : Z) (s : draws) :
  in_unit_interval s ->
  let p := result (generateRandomPassword array_sort len) s in
  length p = Z.to_nat (Z.max len 4)
  /\ contains is_lower p /\ contains is_upper p
  /\ contains is_digit p /\ contains is_symbol p
  /\ ((len < 4)%Z -> length p = 4%nat)
  /\ length (result (generateRandomPassword array_sort 8) s) = 8%nat.
Proof.
  intros U p.
  destruct (generateRandomPassword_permutation len U)
    as (c1 & c2 & c3 & c4 & extra & P & _ & C1 & C2 & C3 & C4 & L).
  fold p in P.
  assert (Len : length p = Z.to_nat (Z.max len 4)).
  { rewrite <- (Permutation_length P). simpl. rewrite L. lia. }
  split; [exact Len |].
  split; [apply (contains_permutation P); exists c1; simpl; auto |].
  split; [apply (contains_permutation P); exists c2; simpl; auto |].
  split; [apply (contains_permutation P); exists c3; simpl; auto |].
  split; [apply (contains_permutation P); exists c4; simpl; auto 6 |].
  split; [intros S; rewrite Len; lia |].
  destruct (generateRandomPassword_permutation 8 U)
    as (d1 & d2 & d3 & d4 & extra8 & P8 & _ & _ & _ & _ & _ & L8).
  rewrite <- (Permutation_length P8). simpl. rewrite L8. reflexivity.
Qed.

(** C10. For some draws [generateRandomPassword(8)] returns a password
    that [isValidPassword(p, 8)] refuses: the guaranteed symbol comes out
    as ['#'], which is none of the characters the validator admits. *)
Theorem generateRandomPassword_may_fail_isValidPassword :
  exists s : draws,
    in_unit_interval s
    /\ let p := result (generateRandomPassword array_sort 8) s in
       In 35%N p
       /\ is_password_char 35%N = false
       /\ isValidPassword p 8 = false.
Proof.
  exists (fun _ => 1 # 3)%Q.
  assert (U : in_unit_interval (fun _ => 1 # 3)%Q)
    by (intros n; split; [unfold Qle; simpl; lia | reflexivity]).
  split; [exact U |]. intros p.
  destruct (generateRandomPassword_permutation 8 U)
    as (c1 & c2 & c3 & c4 & extra & P & E & _).
  fold p in P.
  assert (I : In 35%N p).
  { apply (Permutation_in _ P).
    assert (M : In (Some 35%N) (map Some (c1 :: c2 :: c3 :: c4 :: extra))).
    { rewrite <- E. vm_compute. auto 10. }
    apply in_map_iff in M. destruct M as (c & Ec & Ic).
    injection Ec as ->. exact Ic. }
  split; [exact I |]. split; [reflexivity |].
  apply (@isValidPassword_other_char p 8 35%N I). reflexivity.
Qed.

End Shuffle.

(** A witness of [generateRandomPassword_classes]: the insertion sort as
    the engine's sort, every draw one half, length 8. *)
Lemma generateRandomPassword_classes_witness :
  (forall cmp l s,
     Permutation l (result (@insertion_sort (option code_unit) cmp l) s))
  /\ in_unit_interval (fun _ => 1 # 2)%Q
  /\ length (result (generateRandomPassword (@insertion_sort _) 8)
               (fun _ => 1 # 2)%Q) = 8%nat.
Proof.
  assert (U : in_unit_interval (fun _ => 1 # 2)%Q)
    by (intros n; split; [unfold Qle; simpl; lia | reflexivity]).
  split; [exact (@insertion_sort_permutation _) |].
  split; [exact U |].
  exact (proj1 (generateRandomPassword_classes (@insertion_sort _)
                  (@insertion_sort_permutation _) 8 U)).
Defined.

(** A witness of [generateRandomPassword_may_fail_isValidPassword]: the
    insertion sort as the engine's sort. *)
Lemma generateRandomPassword_may_fail_isValidPassword_witness :
  (forall cmp l s,
     Permutation l (result (@insertion_sort (option code_unit) cmp l) s))
  /\ exists s : draws,
       in_unit_interval s
       /\ isValidPassword
            (result (generateRandomPassword (@insertion_sort _) 8) s) 8
          = false.
Proof.
  split; [exact (@insertion_sort_permutation _) |].
  destruct (generateRandomPassword_may_fail_isValidPassword
              (@insertion_sort _) (@insertion_sort_permutation _))
    as (s & U & _ & _ & V).
  exists s. split; [exact U | exact V].
Defined.

(** ** Strings *)

Lemma jsstring_eqb_eq (a b : jsstring) : jsstring_eqb a b = true <-> a = b.
Proof.
  revert b. induction a as [| x a IH]; intros [| y b]; simpl;
    try (split; intros H; congruence).
  unfold cu_eqb. rewrite andb_true_iff, N.eqb_eq, IH.
  split; [intros [-> ->]; reflexivity | intros E; injection E; auto].
Qed.

Lemma jsstring_eqb_refl (a : jsstring) : jsstring_eqb a a = true.
Proof. now apply jsstring_eqb_eq. Qed.

Lemma jsstring_eqb_neq (a b : jsstring) : a <> b -> jsstring_eqb a b = false.
Proof.
  intros N. apply not_true_iff_false. intros E. apply N, jsstring_eqb_eq, E.
Qed.

(** ** formatCurrency *)

Section FormatCurrencyFacts.

Variable member_text : jsstring -> jsstring.

(** Every code of the table yields its symbol. *)
Lemma formatCurrency_known (code symbol : jsstring) :
  In (code, symbol) CURRENCY_SYMBOLS ->
  formatCurrency member_text code = symbol.
Proof.
  intros I.
  assert (T : forallb (fun kv =>
                match own_property CURRENCY_SYMBOLS (fst kv) with
                | Some v => jsstring_eqb v (snd kv)
                | None => false
                end) CURRENCY_SYMBOLS = true) by (vm_compute; reflexivity).
  rewrite forallb_forall in T. specialize (T _ I). cbn [fst snd] in T.
  unfold formatCurrency, get_currency.
  destruct (own_property CURRENCY_SYMBOLS code) as [v |]; [| discriminate T].
  apply jsstring_eqb_eq, T.
Qed.

(** A code that is neither in the table nor a name of [Object.prototype]
    yields the text ["undefined"]. *)
Lemma formatCurrency_unknown (currency : jsstring) :
  own_property CURRENCY_SYMBOLS currency = None ->
  existsb (jsstring_eqb currency) object_prototype_names = false ->
  formatCurrency member_text currency = str "undefined".
Proof.
  intros O P. unfold formatCurrency, get_currency. now rewrite O, P.
Qed.

(** C7, at the code ["XYZ"], which the table does not have:
    [formatCurrency] returns the text ["undefined"], which is neither the
    input nor the empty string. *)
Theorem formatCurrency_unknown_code_is_undefined :
  formatCurrency member_text (str "XYZ") = str "undefined"
  /\ formatCurrency member_text (str "XYZ") <> str "XYZ"
  /\ formatCurrency member_text (str "XYZ") <> [].
Proof.
  assert (E : formatCurrency member_text (str "XYZ") = str "undefined")
    by (apply formatCurrency_unknown; reflexivity).
  rewrite E. split; [reflexivity |].
  split; intros H; vm_compute in H; discriminate H.
Qed.

End FormatCurrencyFacts.

(** ** truncate *)

Lemma slice_first (s : jsstring) (n : Z) :
  (0 <= n <= Z.of_nat (length s))%Z ->
  slice s 0 n = first_chars (Z.to_nat n) s.
Proof.
  intros R. unfold slice, slice_index, first_chars.
  destruct (Z.ltb_spec n 0); [lia |].
  change (0 <? 0)%Z with false. cbv iota.
  rewrite (Z.min_l 0) by lia. rewrite (Z.min_l n) by lia.
  rewrite Z.sub_0_r. reflexivity.
Qed.

Lemma slice_last (s : jsstring) (n : Z) :
  (0 < n <= Z.of_nat (length s))%Z ->
  slice_from s (- n) = last_chars (Z.to_nat n) s.
Proof.
  intros R. unfold slice_from, slice, slice_index, last_chars.
  destruct (Z.ltb_spec (- n) 0); [| lia].
  destruct (Z.ltb_spec (Z.of_nat (length s)) 0); [lia |].
  rewrite Z.min_id, Z.max_l by lia.
  replace (Z.to_nat (Z.of_nat (length s) + - n))
    with (length s - Z.to_nat n)%nat by lia.
  apply firstn_all2. rewrite length_skipn. lia.
Qed.

(** In ['center'] mode with a positive [endLength], a text longer than
    [startLength + endLength + 3] becomes its first [startLength]
    characters, nine stars and its last [endLength] characters, whatever
    [appendText] is. *)
Lemma truncate_center (text : jsstring) (startLength endLength : Z)
    (appendText : jsstring) :
  (0 <= startLength)%Z -> (0 < endLength)%Z ->
  (startLength + endLength + 3 < Z.of_nat (length text))%Z ->
  truncate text startLength endLength appendText (str "center")
  = first_chars (Z.to_nat startLength) text
    ++ repeat_char char_star 9
    ++ last_chars (Z.to_nat endLength) text.
Proof.
  intros S E L. unfold truncate.
  destruct text as [| c text]; [simpl in L; lia |].
  rewrite jsstring_eqb_neq by discriminate.
  rewrite jsstring_eqb_refl.
  destruct (Z.leb_spec (Z.of_nat (length (c :: text)))
              (startLength + endLength + 3)); [lia |].
  rewrite slice_first, slice_last by lia. reflexivity.
Qed.

(** In ['end'] mode a text longer than [startLength] becomes its first
    [startLength] characters followed by [appendText]. *)
Lemma truncate_end (text : jsstring) (startLength endLength : Z)
    (appendText : jsstring) :
  (0 <= startLength < Z.of_nat (length text))%Z ->
  truncate text startLength endLength appendText (str "end")
  = first_chars (Z.to_nat startLength) text ++ appendText.
Proof.
  intros S. unfold truncate.
  destruct text as [| c text]; [simpl in S; lia |].
  rewrite jsstring_eqb_neq by discriminate.
  rewrite (@jsstring_eqb_neq (str "end") (str "center")) by discriminate.
  rewrite jsstring_eqb_refl.
  destruct (Z.leb_spec (Z.of_nat (length (c :: text))) startLength); [lia |].
  rewrite slice_first by lia. reflexivity.
Qed.

(** C9, at [endLength = 0]: [truncate("abcdefgh", 2, 0, "...", "center")]
    is the first two characters, nine stars and then the whole text,
    where the last 0 characters are no characters at all. *)
Theorem truncate_center_zero_endLength :
  truncate (str "abcdefgh") 2 0 (str "...") (str "center")
  = str "ab*********abcdefgh"
  /\ first_chars 2 (str "abcdefgh") ++ repeat_char char_star 9
     ++ last_chars 0 (str "abcdefgh")
     = str "ab*********"
  /\ (2 + 0 + 3 < Z.of_nat (length (str "abcdefgh")))%Z.
Proof. repeat split. Qed.

(** ** buildFilters *)

Lemma get_absent (o : object) (key : jsstring) :
  ~ In key (keys o) -> get o key = VUndefined.
Proof.
  induction o as [| [k v] r IH]; simpl; intros N; [reflexivity |].
  rewrite jsstring_eqb_neq by tauto. apply IH. tauto.
Qed.

Lemma get_present (o : object) (key : jsstring) (v : value) :
  NoDup (keys o) -> In (key, v) o -> get o key = v.
Proof.
  induction o as [| [k w] r IH]; simpl; intros D I; [contradiction |].
  inversion D as [| ? ? Nk Dr]; subst.
  destruct I as [E | I].
  - injection E as -> ->. now rewrite jsstring_eqb_refl.
  - rewrite jsstring_eqb_neq; [apply IH; assumption |].
    intros ->. apply Nk. change key with (fst (key, v)). apply in_map, I.
Qed.

Lemma set_absent (o : object) (key : jsstring) (v : value) :
  key <> str "__proto__" ->
  ~ In key (keys o) -> set o key v = o ++ [(key, v)].
Proof.
  intros P. induction o as [| [k w] r IH]; simpl; intros N.
  - now rewrite jsstring_eqb_neq by exact P.
  - rewrite jsstring_eqb_neq by tauto. rewrite IH by tauto. reflexivity.
Qed.

(** [Object.keys] lists every key once. *)
Lemma insert_index_permutation (i : N) (key : jsstring) (l : list (N * jsstring)) :
  Permutation (insert_index i key l) ((i, key) :: l).
Proof.
  induction l as [| [j k] r IH]; simpl; [apply Permutation_refl |].
  destruct (i <=? j)%N; [apply Permutation_refl |].
  apply perm_trans with ((j, k) :: (i, key) :: r);
    [apply perm_skip, IH | apply perm_swap].
Qed.

Lemma Object_keys_permutation (o : object) :
  Permutation (Object_keys o) (keys o).
Proof.
  unfold Object_keys. induction (keys o) as [| k r IH]; simpl;
    [apply Permutation_refl |].
  unfold is_array_index at 1. destruct (array_index k) as [i |]; simpl.
  - apply perm_trans
      with (map snd ((i, k) :: index_keys r)
            ++ filter (fun k => negb (is_array_index k)) r).
    + apply Permutation_app_tail, Permutation_map, insert_index_permutation.
    + simpl. apply perm_skip, IH.
  - apply Permutation_sym, Permutation_cons_app, Permutation_sym, IH.
Qed.

Lemma Object_entries_keys (o : object) :
  keys (Object_entries o) = Object_keys o.
Proof.
  unfold Object_entries, keys. rewrite map_map. simpl. apply map_id.
Qed.

Lemma Object_entries_in (o : object) (k : jsstring) (v : value) :
  NoDup (keys o) -> (In (k, v) (Object_entries o) <-> In (k, v) o).
Proof.
  intros D. unfold Object_entries. rewrite in_map_iff. split.
  - intros (k' & E & I). injection E as -> <-.
    apply (Permutation_in _ (Object_keys_permutation o)) in I.
    unfold keys in I. apply in_map_iff in I. destruct I as ([k1 v1] & <- & I).
    simpl. now rewrite (@get_present _ _ _ D I).
  - intros I. exists k. split.
    + now rewrite (@get_present _ _ _ D I).
    + apply (Permutation_in _ (Permutation_sym (Object_keys_permutation o))).
      change k with (fst (k, v)). apply in_map, I.
Qed.

Lemma kept_iff_not_dropped (v : value) :
  (is_not_nullish v && is_not_empty_string v)%bool = negb (is_dropped v).
Proof. destruct v; reflexivity. Qed.

Section GenericKeys.

Variable filters : object.

Hypothesis no_special_name :
  forall name, In name special_filter_names -> ~ In name (keys filters).

Hypothesis no_proto : ~ In (str "__proto__") (keys filters).

Lemma copy_if_set_absent (name : jsstring) (parsed : object) :
  In name special_filter_names -> copy_if_set filters name parsed = parsed.
Proof.
  intros I. unfold copy_if_set.
  rewrite get_absent by (apply no_special_name; exact I). reflexivity.
Qed.

Lemma copy_locate_absent (parsed : object) :
  copy_locate filters parsed = Returned parsed.
Proof.
  unfold copy_locate. rewrite get_absent; [reflexivity |].
  apply no_special_name. simpl. auto.
Qed.

Lemma buildFilters_key_generic (parsed : object) (key : jsstring) :
  buildFilters_key filters parsed key
  = Returned (if negb (is_dropped (get filters key))
              then set parsed key (trim_value (get filters key))
              else parsed).
Proof.
  unfold buildFilters_key.
  rewrite !copy_if_set_absent by (simpl; auto).
  rewrite copy_locate_absent. cbn [and_then].
  rewrite copy_locate_absent. cbn [and_then].
  rewrite kept_iff_not_dropped.
  destruct (negb (is_dropped (get filters key))); reflexivity.
Qed.

Lemma buildFilters_loop_generic (todo : object) : forall parsed : object,
  NoDup (keys todo) ->
  (forall k v, In (k, v) todo -> get filters k = v) ->
  (forall k, In k (keys todo) -> In k (keys filters)) ->
  (forall k, In k (keys todo) -> ~ In k (keys parsed)) ->
  buildFilters_loop filters (keys todo) parsed
  = Returned (parsed ++ clean_filters todo).
Proof.
  induction todo as [| [k v] r IH]; intros parsed D G K F.
  - simpl. now rewrite app_nil_r.
  - simpl keys. simpl buildFilters_loop.
    rewrite buildFilters_key_generic.
    rewrite (G k v) by (simpl; auto).
    inversion D as [| ? ? Nk Dr]; subst.
    unfold clean_filters. simpl filter.
    destruct (is_dropped v) eqn:Ev; simpl negb; cbv iota; simpl and_then.
    + apply IH; [exact Dr | intros; apply G; simpl; auto | |].
      * intros k' I. apply K. simpl. auto.
      * intros k' I. apply F. simpl. auto.
    + rewrite set_absent; [| | apply F; simpl; auto].
      2:{ intros ->. apply no_proto, K. simpl. auto. }
      rewrite IH; [| exact Dr | intros; apply G; simpl; auto | |].
      * simpl. rewrite <- app_assoc. reflexivity.
      * intros k' I. apply K. simpl. auto.
      * intros k' I. unfold keys. rewrite map_app, in_app_iff.
        intros [H | [H | []]]; [apply (F k'); simpl; auto |].
        simpl in H. subst k'. apply Nk, I.
Qed.

(** When none of the four names treated apart is a key, nor
    [__proto__], [buildFilters] returns the entries of the object with
    the null, undefined and empty values dropped and the strings
    trimmed. *)
Lemma buildFilters_generic :
  NoDup (keys filters) ->
  buildFilters filters = Returned (clean_filters (Object_entries filters)).
Proof.
  intros D. unfold buildFilters.
  rewrite <- Object_entries_keys.
  rewrite buildFilters_loop_generic; auto.
  - rewrite Object_entries_keys.
    apply (Permutation_NoDup (Permutation_sym (Object_keys_permutation filters))).
    exact D.
  - intros k v I. apply (proj1 (@Object_entries_in filters k v D)) in I.
    apply get_present; assumption.
  - intros k I. rewrite Object_entries_keys in I.
    apply (Permutation_in _ (Object_keys_permutation filters)), I.
Qed.

End GenericKeys.

(** White space is gone from both ends of a trimmed string. *)
Lemma trim_start_head (s : jsstring) :
  match trim_start s with
  | c :: _ => is_space c = false
  | [] => True
  end.
Proof.
  induction s as [| c r IH]; simpl; [exact I |].
  destruct (is_space c) eqn:E; [exact IH | exact E].
Qed.

Lemma trim_start_suffix (s : jsstring) :
  exists pre, s = pre ++ trim_start s.
Proof.
  induction s as [| c r [pre E]]; simpl; [exists []; reflexivity |].
  destruct (is_space c).
  - exists (c :: pre). simpl. now rewrite <- E.
  - exists []. reflexivity.
Qed.

Lemma trim_is_trimmed (s : jsstring) : is_trimmed (trim s) = true.
Proof.
  unfold is_trimmed, trim.
  set (t := trim_start s).
  pose proof (trim_start_head s) as Ht. fold t in Ht.
  pose proof (trim_start_head (rev t)) as Hu.
  destruct (trim_start_suffix (rev t)) as [pre E].
  set (u := trim_start (rev t)) in *.
  assert (Et : t = rev u ++ rev pre).
  { rewrite <- (rev_involutive t), E, rev_app_distr. reflexivity. }
  destruct (rev u) as [| c r] eqn:Er; [reflexivity |].
  rewrite <- Er, rev_involutive.
  destruct u as [| d u']; [reflexivity |].
  rewrite Et in Ht. simpl in Ht. now rewrite Ht, Hu.
Qed.

Lemma clean_filters_trimmed (filters : object) (k s : jsstring) :
  In (k, VString s) (clean_filters filters) -> is_trimmed s = true.
Proof.
  unfold clean_filters. rewrite in_map_iff.
  intros ([k' v] & E & _). simpl in E. injection E as _ E.
  destruct v; simpl in E; try discriminate E.
  injection E as <-. apply trim_is_trimmed.
Qed.

(** C8, at [{ kyc_status: ' approved ', page: 2 }]: [buildFilters] returns
    the object unchanged, [kyc_status] still with its blanks, where
    dropping and trimming gives ['approved']; and at [{ locate: 5 }] it
    throws. *)
Theorem buildFilters_keeps_untrimmed_kyc_status :
  buildFilters status_then_page
  = Returned [(str "kyc_status", VString (str " approved "));
              (str "page", VNumber 2)]
  /\ clean_filters status_then_page
     = [(str "kyc_status", VString (str "approved")); (str "page", VNumber 2)]
  /\ is_trimmed (str " approved ") = false
  /\ buildFilters numeric_locate = Thrown (str "trim is not a function").
Proof. repeat split. Qed.

(** The keys are visited as [Object.keys] lists them, array indices
    first, and a key [__proto__] of the filters (one that [JSON.parse]
    made, say) is lost: assigning its string to the result creates no
    property. *)
Lemma buildFilters_loses_proto_key :
  buildFilters [(str "b", VNumber 1); (str "__proto__", VString (str "x"));
                (str "10", VNumber 2); (str "9", VNumber 3)]
  = Returned [(str "9", VNumber 3); (str "10", VNumber 2); (str "b", VNumber 1)].
Proof. reflexivity. Qed.

(* ===================================================================== *)
(** * Further properties *)
(* ===================================================================== *)

(** ** truncate and truncateId *)

(** A witness of [truncate_end]. *)
Lemma truncate_end_witness :
  (0 <= 5 < Z.of_nat (length (str "Hello World")))%Z
  /\ truncate (str "Hello World") 5 4 (str "...") (str "end")
     = str "Hello...".
Proof.
  assert (H : (0 <= 5 < Z.of_nat (length (str "Hello World")))%Z)
    by (simpl; lia).
  split; [exact H |].
  exact (truncate_end (str "Hello World") 4 (str "...") H).
Defined.

Lemma first_chars_length (n : nat) (s : jsstring) :
  (n <= length s)%nat -> length (first_chars n s) = n.
Proof. intros H. unfold first_chars. rewrite length_firstn. lia. Qed.

Lemma last_chars_length (n : nat) (s : jsstring) :
  (n <= length s)%nat -> length (last_chars n s) = n.
Proof. intros H. unfold last_chars. rewrite length_skipn. lia. Qed.

(** In ['center'] mode, with a positive [endLength], a text longer than
    [startLength + endLength + 3] becomes its first [startLength]
    characters, nine stars and its last [endLength] characters, whatever
    [appendText] is: [startLength + endLength + 9] characters, so a text
    of fewer characters than that comes out longer than it went in. *)
Theorem truncate_center_result (text : jsstring) (startLength endLength : Z)
    (appendText : jsstring) :
  (0 <= startLength)%Z -> (0 < endLength)%Z ->
  (startLength + endLength + 3 < Z.of_nat (length text))%Z ->
  let r := truncate text startLength endLength appendText (str "center") in
  r = first_chars (Z.to_nat startLength) text ++ str "*********"
      ++ last_chars (Z.to_nat endLength) text
  /\ Z.of_nat (length r) = (startLength + endLength + 9)%Z
  /\ ((Z.of_nat (length text) < startLength + endLength + 9)%Z ->
      (length text < length r)%nat).
Proof.
  intros S E L r.
  assert (Eq : r = first_chars (Z.to_nat startLength) text ++ str "*********"
                   ++ last_chars (Z.to_nat endLength) text)
    by (apply truncate_center; assumption).
  assert (Len : Z.of_nat (length r) = (startLength + endLength + 9)%Z).
  { rewrite Eq.
    rewrite !length_app, first_chars_length, last_chars_length by lia.
    simpl. lia. }
  split; [exact Eq |]. split; [exact Len | lia].
Qed.

Lemma truncate_center_result_witness :
  (0 <= 3)%Z /\ (0 < 4)%Z
  /\ (3 + 4 + 3 < Z.of_nat (length (str "Hello World")))%Z
  /\ truncate (str "Hello World") 3 4 (str "***") (str "center")
     = str "Hel*********orld".
Proof.
  assert (H1 : (0 <= 3)%Z) by lia.
  assert (H2 : (0 < 4)%Z) by lia.
  assert (H3 : (3 + 4 + 3 < Z.of_nat (length (str "Hello World")))%Z)
    by (simpl; lia).
  repeat (split; [assumption |]).
  exact (proj1 (truncate_center_result (str "Hello World") (str "***") H1 H2 H3)).
Defined.

(** [truncateId] leaves an id of at most [startLength + endLength + 3]
    characters alone and turns a longer one into its first [startLength]
    characters, three dots and its last [endLength] characters; the
    result is never longer than the id. *)
Theorem truncateId_spec (id : jsstring) (startLength endLength : Z) :
  (0 <= startLength)%Z -> (0 < endLength)%Z ->
  ((Z.of_nat (length id) <= startLength + endLength + 3)%Z ->
   truncateId id startLength endLength = id)
  /\ ((startLength + endLength + 3 < Z.of_nat (length id))%Z ->
      truncateId id startLength endLength
      = first_chars (Z.to_nat startLength) id ++ str "..."
        ++ last_chars (Z.to_nat endLength) id)
  /\ (length (truncateId id startLength endLength) <= length id)%nat.
Proof.
  intros S E. unfold truncateId.
  destruct (Z.leb_spec (Z.of_nat (length id)) (startLength + endLength + 3))
    as [L | L].
  - split; [reflexivity |]. split; [lia | lia].
  - rewrite slice_first, slice_last by lia.
    split; [lia |]. split; [reflexivity |].
    rewrite !length_app, first_chars_length, last_chars_length by lia.
    simpl. lia.
Qed.

Lemma truncateId_spec_witness :
  (0 <= 3)%Z /\ (0 < 4)%Z
  /\ truncateId (str "1234567890abcdef") 3 4 = str "123...cdef".
Proof.
  assert (H1 : (0 <= 3)%Z) by lia.
  assert (H2 : (0 < 4)%Z) by lia.
  repeat (split; [assumption |]).
  apply (proj1 (proj2 (truncateId_spec (str "1234567890abcdef") H1 H2))).
  simpl. lia.
Defined.

(** With [endLength = 0] the whole id follows the dots: an id longer
    than [startLength + 3] comes out longer than it went in. *)
Theorem truncateId_zero_endLength (id : jsstring) (startLength : Z) :
  (0 <= startLength)%Z ->
  (startLength + 3 < Z.of_nat (length id))%Z ->
  truncateId id startLength 0
  = first_chars (Z.to_nat startLength) id ++ str "..." ++ id.
Proof.
  intros S L. unfold truncateId. rewrite Z.add_0_r.
  destruct (Z.leb_spec (Z.of_nat (length id)) (startLength + 3)); [lia |].
  rewrite slice_first by lia.
  unfold slice_from, slice, slice_index. simpl Z.opp.
  change (0 <? 0)%Z with false. cbv iota.
  destruct (Z.ltb_spec (Z.of_nat (length id)) 0); [lia |].
  rewrite Z.min_id, Z.min_l, Z.sub_0_r, Nat2Z.id by lia.
  simpl skipn. rewrite firstn_all. reflexivity.
Qed.

Lemma truncateId_zero_endLength_witness :
  (0 <= 2)%Z /\ (2 + 3 < Z.of_nat (length (str "abcdefgh")))%Z
  /\ truncateId (str "abcdefgh") 2 0 = str "ab...abcdefgh".
Proof.
  assert (H1 : (0 <= 2)%Z) by lia.
  assert (H2 : (2 + 3 < Z.of_nat (length (str "abcdefgh")))%Z) by (simpl; lia).
  repeat (split; [assumption |]).
  exact (truncateId_zero_endLength (str "abcdefgh") H1 H2).
Defined.

(** ** formatCurrency and buildFilters *)

(** A witness of [formatCurrency_known]. *)
Lemma formatCurrency_known_witness :
  In (str "USD", str "$") CURRENCY_SYMBOLS
  /\ formatCurrency (fun name => name) (str "USD") = str "$".
Proof.
  assert (H : In (str "USD", str "$") CURRENCY_SYMBOLS) by (left; reflexivity).
  split; [exact H |].
  exact (formatCurrency_known (fun name => name) H).
Defined.

Lemma readme_filters_generic :
  forall name, In name special_filter_names -> ~ In name (keys readme_filters).
Proof.
  intros name I K. simpl in I, K.
  repeat match goal with
         | H : _ \/ _ |- _ => destruct H as [H | H]
         end; try contradiction; subst; discriminate.
Qed.

Lemma readme_filters_nodup : NoDup (keys readme_filters).
Proof. simpl. repeat constructor; simpl; intuition discriminate. Qed.

Lemma readme_filters_no_proto : ~ In (str "__proto__") (keys readme_filters).
Proof. simpl. intuition discriminate. Qed.

(** When none of [kyc_status], [sortField], [sortDirection], [locate]
    and [__proto__] is a key, [buildFilters] returns the entries of the
    object without those whose value is null, undefined or the empty
    string and with the strings trimmed: a key is in the result exactly
    when its value is none of these, the result holds no null and no
    undefined, and its strings have no white space at either end. *)
Theorem buildFilters_drops_and_trims (filters : object) :
  (forall name, In name special_filter_names -> ~ In name (keys filters)) ->
  ~ In (str "__proto__") (keys filters) ->
  NoDup (keys filters) ->
  exists parsed,
    buildFilters filters = Returned parsed
    /\ parsed = clean_filters (Object_entries filters)
    /\ (forall k v, In (k, v) parsed <->
          exists v0, In (k, v0) filters /\ is_dropped v0 = false
                     /\ v = trim_value v0)
    /\ (forall k v, In (k, v) parsed -> v <> VNull /\ v <> VUndefined)
    /\ (forall k s, In (k, VString s) parsed -> is_trimmed s = true).
Proof.
  intros G P D. exists (clean_filters (Object_entries filters)).
  split; [apply buildFilters_generic; assumption |].
  split; [reflexivity |].
  assert (M : forall k v, In (k, v) (clean_filters (Object_entries filters)) <->
            exists v0, In (k, v0) filters /\ is_dropped v0 = false
                       /\ v = trim_value v0).
  { intros k v. unfold clean_filters. rewrite in_map_iff. split.
    - intros ([k0 v0] & E & I). simpl in E. injection E as -> <-.
      apply filter_In in I. destruct I as [I K]. simpl in K.
      exists v0. split; [apply (@Object_entries_in filters k v0 D), I |].
      split; [now apply negb_true_iff | reflexivity].
    - intros (v0 & I & K & ->). exists (k, v0). split; [reflexivity |].
      apply filter_In. split; [apply (@Object_entries_in filters k v0 D), I |].
      simpl. now rewrite K. }
  split; [exact M |].
  split; [| intros k s; apply clean_filters_trimmed].
  intros k v I. apply M in I. destruct I as (v0 & _ & K & ->).
  destruct v0; simpl in *; split; discriminate.
Qed.

(** A witness of [buildFilters_drops_and_trims]: the example of the
    README. *)
Lemma buildFilters_drops_and_trims_witness :
  (forall name, In name special_filter_names -> ~ In name (keys readme_filters))
  /\ ~ In (str "__proto__") (keys readme_filters)
  /\ NoDup (keys readme_filters)
  /\ buildFilters readme_filters
     = Returned [(str "name", VString (str "John")); (str "age", VNumber 25)].
Proof.
  split; [exact readme_filters_generic |].
  split; [exact readme_filters_no_proto |].
  split; [exact readme_filters_nodup |].
  destruct (@buildFilters_drops_and_trims readme_filters
              readme_filters_generic readme_filters_no_proto
              readme_filters_nodup) as (parsed & E & -> & _).
  exact E.
Defined.

(** A string value that is not empty but all white space is not dropped:
    it is trimmed after the test for emptiness, so its key stays, with
    the empty string as value. *)
Theorem buildFilters_keeps_blank_string (filters : object) (k s : jsstring) :
  (forall name, In name special_filter_names -> ~ In name (keys filters)) ->
  ~ In (str "__proto__") (keys filters) ->
  NoDup (keys filters) ->
  In (k, VString s) filters ->
  s <> [] -> Forall (fun c => is_space c = true) s ->
  exists parsed,
    buildFilters filters = Returned parsed /\ In (k, VString []) parsed.
Proof.
  intros G P D I N W. exists (clean_filters (Object_entries filters)).
  split; [apply buildFilters_generic; assumption |].
  unfold clean_filters. apply in_map_iff. exists (k, VString s).
  split.
  - simpl. f_equal. f_equal. unfold trim.
    assert (T : trim_start s = []).
    { clear I N. induction W as [| c r Hc _ IH]; simpl; [reflexivity |].
      now rewrite Hc. }
    rewrite T. reflexivity.
  - apply filter_In.
    split; [apply (@Object_entries_in filters k (VString s) D), I |].
    simpl. rewrite jsstring_eqb_neq by exact N. reflexivity.
Qed.

Lemma buildFilters_keeps_blank_string_witness :
  let filters := [(str "q", VString (str "  "))] in
  (forall name, In name special_filter_names -> ~ In name (keys filters))
  /\ ~ In (str "__proto__") (keys filters)
  /\ NoDup (keys filters)
  /\ In (str "q", VString (str "  ")) filters
  /\ str "  " <> []
  /\ Forall (fun c => is_space c = true) (str "  ")
  /\ exists parsed,
       buildFilters filters = Returned parsed /\ In (str "q", VString []) parsed.
Proof.
  intros filters.
  assert (G : forall name, In name special_filter_names -> ~ In name (keys filters)).
  { intros name I K. simpl in I, K.
    repeat match goal with
           | H : _ \/ _ |- _ => destruct H as [H | H]
           end; try contradiction; subst; discriminate. }
  assert (P : ~ In (str "__proto__") (keys filters))
    by (simpl; intuition discriminate).
  assert (D : NoDup (keys filters))
    by (simpl; repeat constructor; simpl; intuition).
  assert (I : In (str "q", VString (str "  ")) filters) by (left; reflexivity).
  assert (N : str "  " <> []) by discriminate.
  assert (W : Forall (fun c => is_space c = true) (str "  "))
    by (repeat constructor).
  repeat (split; [assumption |]).
  exact (@buildFilters_keeps_blank_string filters _ _ G P D I N W).
Defined.

(** ** split and join *)

Lemma split_not_nil sep s : split sep s <> [].
Proof.
  destruct s as [| c r]; simpl; [discriminate |].
  destruct (cu_eqb c sep); [discriminate |].
  destruct (split sep r); discriminate.
Qed.

Lemma cu_eqb_eq a b : cu_eqb a b = true <-> a = b.
Proof. apply N.eqb_eq. Qed.

Lemma cu_eqb_sym a b : cu_eqb a b = cu_eqb b a.
Proof. apply N.eqb_sym. Qed.

Lemma cu_eqb_refl a : cu_eqb a a = true.
Proof. apply N.eqb_refl. Qed.

(** Joining the pieces with the separator gives the string back. *)
Lemma join_split sep s : join_with [sep] (split sep s) = s.
Proof.
  induction s as [| c r IH]; simpl; [reflexivity |].
  destruct (cu_eqb c sep) eqn:E.
  - apply cu_eqb_eq in E. subst c.
    pose proof (split_not_nil sep r) as N.
    destruct (split sep r) as [| w ws]; [contradiction |].
    simpl in *. now rewrite IH.
  - pose proof (split_not_nil sep r) as N.
    destruct (split sep r) as [| w ws]; [contradiction |].
    destruct ws; simpl in *; now rewrite <- IH.
Qed.

Lemma split_length sep s : length (split sep s) = S (count_char sep s).
Proof.
  unfold count_char. induction s as [| c r IH]; simpl; [reflexivity |].
  rewrite (cu_eqb_sym sep c).
  destruct (cu_eqb c sep); simpl; [now rewrite IH |].
  pose proof (split_not_nil sep r) as N.
  destruct (split sep r) as [| w ws]; [contradiction | exact IH].
Qed.

Lemma split_pieces sep s : Forall (fun w => count_char sep w = 0%nat) (split sep s).
Proof.
  unfold count_char. induction s as [| c r IH]; simpl; [repeat constructor |].
  destruct (cu_eqb c sep) eqn:E; [constructor; [reflexivity | exact IH] |].
  destruct (split sep r) as [| w ws]; [repeat constructor; simpl |].
  - rewrite (cu_eqb_sym sep c). now rewrite E.
  - inversion IH as [| ? ? Hw Hws]; subst. constructor; [| exact Hws].
    simpl. rewrite (cu_eqb_sym sep c). now rewrite E.
Qed.

Lemma count_char_app c a b :
  count_char c (a ++ b) = (count_char c a + count_char c b)%nat.
Proof. unfold count_char. now rewrite filter_app, length_app. Qed.

Lemma join_with_cons sep w ws :
  ws <> [] -> join_with sep (w :: ws) = w ++ sep ++ join_with sep ws.
Proof. destruct ws; [contradiction | reflexivity]. Qed.

Lemma join_with_app sep (a b : list jsstring) :
  a <> [] -> b <> [] ->
  join_with sep (a ++ b) = join_with sep a ++ sep ++ join_with sep b.
Proof.
  induction a as [| w a IH]; intros Na Nb; [contradiction |].
  destruct a as [| w' a'].
  - simpl app. now rewrite join_with_cons.
  - change ((w :: w' :: a') ++ b) with (w :: ((w' :: a') ++ b)).
    rewrite !join_with_cons by (try discriminate; destruct a'; discriminate).
    rewrite IH by (auto; discriminate). now rewrite <- !app_assoc.
Qed.

Lemma count_char_join sep (ws : list jsstring) :
  ws <> [] -> Forall (fun w => count_char sep w = 0%nat) ws ->
  count_char sep (join_with [sep] ws) = (length ws - 1)%nat.
Proof.
  induction ws as [| w ws IH]; intros N F; [contradiction |].
  inversion F as [| ? ? Hw Hws]; subst.
  destruct ws as [| w' ws']; [simpl; exact Hw |].
  rewrite join_with_cons by discriminate.
  rewrite !count_char_app, Hw, IH by (auto; discriminate).
  unfold count_char at 1. simpl. rewrite cu_eqb_refl. simpl. lia.
Qed.

(** ** truncateText *)

(** [truncateText] returns a text with at most two spaces unchanged, and
    cuts any other text just before its third space, putting three dots
    in place of the rest. *)
Theorem truncateText_spec (text : jsstring) :
  ((count_char char_space text <= 2)%nat -> truncateText text = text)
  /\ ((3 <= count_char char_space text)%nat ->
      exists head tail,
        text = head ++ char_space :: tail
        /\ count_char char_space head = 2%nat
        /\ truncateText text = head ++ str "...").
Proof.
  unfold truncateText.
  pose proof (split_length char_space text) as L.
  pose proof (join_split char_space text) as J.
  pose proof (split_pieces char_space text) as P.
  set (words := split char_space text) in *.
  destruct (Nat.ltb_spec 3 (length words)) as [H | H].
  - split; [lia |]. intros _.
    exists (join_with [char_space] (firstn 3 words)),
           (join_with [char_space] (skipn 3 words)).
    assert (N1 : firstn 3 words <> []).
    { intros E. apply (f_equal (@length _)) in E.
      rewrite length_firstn in E. cbn [length] in E. lia. }
    assert (N2 : skipn 3 words <> []).
    { intros E. apply (f_equal (@length _)) in E.
      rewrite length_skipn in E. cbn [length] in E. lia. }
    repeat split.
    + rewrite <- J at 1. rewrite <- (firstn_skipn 3 words) at 1.
      now rewrite join_with_app.
    + rewrite count_char_join; [rewrite length_firstn; lia | exact N1 |].
      rewrite <- (firstn_skipn 3 words) in P. apply Forall_app in P. tauto.
  - split; [reflexivity | lia].
Qed.

(** ** maskEmail *)

Lemma includes_in (s : jsstring) (c : code_unit) :
  includes s c = true <-> In c s.
Proof.
  unfold includes, cu_mem. rewrite existsb_exists. split.
  - intros (x & I & E). apply cu_eqb_eq in E. now subst.
  - intros I. exists c. split; [exact I | now apply cu_eqb_eq].
Qed.

Lemma split_first sep (user rest : jsstring) :
  ~ In sep user ->
  split sep (user ++ sep :: rest) = user :: split sep rest.
Proof.
  induction user as [| c r IH]; intros N; simpl.
  - now rewrite cu_eqb_refl.
  - rewrite IH by (simpl in N; tauto).
    replace (cu_eqb c sep) with false; [reflexivity |].
    symmetry. apply not_true_iff_false. intros E. apply cu_eqb_eq in E.
    subst. apply N. now left.
Qed.

Lemma split_no_sep sep (s : jsstring) : ~ In sep s -> split sep s = [s].
Proof.
  induction s as [| c r IH]; intros N; simpl; [reflexivity |].
  rewrite IH by (simpl in N; tauto).
  replace (cu_eqb c sep) with false; [reflexivity |].
  symmetry. apply not_true_iff_false. intros E. apply cu_eqb_eq in E.
  subst. apply N. now left.
Qed.

Lemma substring_first (s : jsstring) (n : Z) :
  (0 <= n <= Z.of_nat (length s))%Z ->
  substring s 0 n = first_chars (Z.to_nat n) s.
Proof.
  intros R. unfold substring, substring_index, first_chars.
  rewrite (Z.max_l 0 0), (Z.min_l 0), (Z.max_l n 0), (Z.min_l n) by lia.
  rewrite Z.min_l, Z.max_r, Z.sub_0_r by lia. reflexivity.
Qed.

Lemma substring_last (s : jsstring) (n : Z) :
  (0 <= n <= Z.of_nat (length s))%Z ->
  substring_from s (Z.of_nat (length s) - n) = last_chars (Z.to_nat n) s.
Proof.
  intros R. unfold substring_from, substring, substring_index, last_chars.
  rewrite (Z.max_l (Z.of_nat (length s) - n) 0) by lia.
  rewrite (Z.min_l (Z.of_nat (length s) - n)) by lia.
  rewrite (Z.max_l (Z.of_nat (length s)) 0), Z.min_id by lia.
  rewrite Z.min_l, Z.max_r by lia.
  replace (Z.to_nat (Z.of_nat (length s) - n)) with (length s - Z.to_nat n)%nat
    by lia.
  apply firstn_all2. rewrite length_skipn. lia.
Qed.

(** [maskEmail] never throws: the count handed to [repeat] is at least 1
    whenever it is reached. *)
Theorem maskEmail_returns (email : jsstring) (visibleStartChars visibleEndChars : Z) :
  exists masked, maskEmail email visibleStartChars visibleEndChars = Returned masked.
Proof.
  unfold maskEmail.
  destruct (jsstring_eqb email [] || negb (includes email char_at_sign))%bool;
    [eexists; reflexivity |].
  destruct (Z.leb_spec
              (Z.of_nat (length (nth 0 (split char_at_sign email) [])))
              (visibleStartChars + visibleEndChars)); [eexists; reflexivity |].
  unfold star_repeat.
  destruct (Z.ltb_spec
              (Z.min (Z.of_nat (length (nth 0 (split char_at_sign email) []))
                      - visibleStartChars - visibleEndChars) 5) 0); [lia |].
  eexists. reflexivity.
Qed.

(** For an address [user@rest] ([user] without ['@']) and counts that are
    not negative: a [user] of at most [visibleStartChars + visibleEndChars]
    characters is returned with the address as it is, unmasked; a longer
    one keeps its first [visibleStartChars] and last [visibleEndChars]
    characters around one to five stars, however many characters they
    hide, followed by ['@'] and [rest] up to its first ['@']. A string
    without ['@'] gives the empty string. *)
Theorem maskEmail_spec (user rest : jsstring) (visibleStartChars visibleEndChars : Z) :
  ~ In char_at_sign user ->
  (0 <= visibleStartChars)%Z -> (0 <= visibleEndChars)%Z ->
  let email := user ++ char_at_sign :: rest in
  let hidden := (Z.of_nat (length user) - visibleStartChars - visibleEndChars)%Z in
  ((hidden <= 0)%Z ->
   maskEmail email visibleStartChars visibleEndChars = Returned email)
  /\ ((0 < hidden)%Z ->
      maskEmail email visibleStartChars visibleEndChars
      = Returned (first_chars (Z.to_nat visibleStartChars) user
                  ++ repeat_char char_star (Z.to_nat (Z.min hidden 5))
                  ++ last_chars (Z.to_nat visibleEndChars) user
                  ++ [char_at_sign] ++ nth 0 (split char_at_sign rest) [])
      /\ (1 <= Z.to_nat (Z.min hidden 5) <= 5)%nat)
  /\ maskEmail user visibleStartChars visibleEndChars = Returned [].
Proof.
  intros N S E email hidden.
  assert (I : includes email char_at_sign = true).
  { apply includes_in. unfold email. apply in_or_app. right. now left. }
  assert (NE : jsstring_eqb email [] = false)
    by (apply jsstring_eqb_neq; unfold email; destruct user; discriminate).
  pose proof (split_not_nil char_at_sign rest) as Ns.
  assert (Es : split char_at_sign email
               = user :: nth 0 (split char_at_sign rest) []
                   :: tl (split char_at_sign rest)).
  { unfold email. rewrite split_first by exact N.
    destruct (split char_at_sign rest); [contradiction | reflexivity]. }
  split; [| split].
  - intros H. unfold maskEmail. rewrite NE, I, Es. cbn [orb negb nth].
    destruct (Z.leb_spec (Z.of_nat (length user))
                (visibleStartChars + visibleEndChars)); [reflexivity | lia].
  - intros H. unfold maskEmail. rewrite NE, I, Es.
    cbn [orb negb nth nth_error render_piece].
    destruct (Z.leb_spec (Z.of_nat (length user))
                (visibleStartChars + visibleEndChars)); [lia |].
    unfold star_repeat. fold hidden.
    destruct (Z.ltb_spec (Z.min hidden 5) 0); [lia |].
    cbn [and_then].
    rewrite substring_first, substring_last by lia.
    split; [reflexivity | lia].
  - unfold maskEmail.
    assert (I' : includes user char_at_sign = false).
    { apply not_true_iff_false. intros C. apply includes_in in C. contradiction. }
    rewrite I'. now rewrite orb_true_r.
Qed.

Lemma maskEmail_spec_witness :
  ~ In char_at_sign (str "johndoe")
  /\ (0 <= 2)%Z /\ (0 <= 1)%Z
  /\ maskEmail (str "johndoe@example.com") 2 1
     = Returned (str "jo****e@example.com").
Proof.
  assert (N : ~ In char_at_sign (str "johndoe"))
    by (simpl; unfold char_at_sign; intuition discriminate).
  assert (S : (0 <= 2)%Z) by lia.
  assert (E : (0 <= 1)%Z) by lia.
  repeat (split; [assumption |]).
  apply (proj1 (proj1 (proj2 (@maskEmail_spec (str "johndoe") (str "example.com")
                                2 1 N S E)) ltac:(simpl; lia))).
Defined.

(** ** formatPhoneNumber *)

Lemma filter_all (A : Type) (f : A -> bool) (l : list A) :
  Forall (fun x => f x = true) l -> filter f l = l.
Proof.
  induction 1 as [| x l Hx _ IH]; simpl; [reflexivity |].
  now rewrite Hx, IH.
Qed.

Lemma in_firstn (A : Type) (x : A) (n : nat) : forall l : list A,
  In x (firstn n l) -> In x l.
Proof.
  induction n as [| n IH]; intros [| y l]; simpl; try contradiction.
  intros [E | I]; [now left | right; now apply IH].
Qed.

Lemma in_skipn (A : Type) (x : A) (n : nat) : forall l : list A,
  In x (skipn n l) -> In x l.
Proof.
  induction n as [| n IH]; intros [| y l]; simpl; try contradiction; auto.
Qed.

Lemma Forall_firstn_skipn (A : Type) (P : A -> Prop) (n k : nat) (l : list A) :
  Forall P l -> Forall P (firstn n (skipn k l)).
Proof.
  intros F. rewrite Forall_forall in *. intros x I. apply F.
  eapply in_skipn, in_firstn, I.
Qed.

Lemma Forall_slice (P : code_unit -> Prop) (s : jsstring) (a b : Z) :
  Forall P s -> Forall P (slice s a b).
Proof. intros F. unfold slice. now apply Forall_firstn_skipn. Qed.

Lemma remove_non_digits_digits (s : jsstring) :
  Forall (fun c => is_digit c = true) (remove_non_digits s).
Proof.
  unfold remove_non_digits. apply Forall_forall. intros c I.
  apply filter_In in I. tauto.
Qed.

Lemma remove_non_digits_slice (s : jsstring) (a b : Z) :
  Forall (fun c => is_digit c = true) s ->
  remove_non_digits (slice s a b) = slice s a b.
Proof. intros F. apply filter_all. now apply Forall_slice. Qed.

Ltac list_of_length l n :=
  match n with
  | O => destruct l; [| discriminate]
  | S ?k =>
      let c := fresh "c" in
      destruct l as [| c l]; [discriminate |]; list_of_length l k
  end.

Lemma formatPhoneNumber_same_digits (phoneNumber : jsstring) :
  remove_non_digits (formatPhoneNumber phoneNumber)
  = remove_non_digits phoneNumber.
Proof.
  unfold formatPhoneNumber.
  pose proof (remove_non_digits_digits phoneNumber) as D.
  set (cleaned := remove_non_digits phoneNumber) in *.
  destruct (Nat.eqb_spec (length cleaned) 10) as [L | _].
  { unfold remove_non_digits at 1. rewrite !filter_app.
    fold (remove_non_digits (slice cleaned 0 3)).
    fold (remove_non_digits (slice cleaned 3 6)).
    fold (remove_non_digits (slice_from cleaned 6)).
    unfold slice_from. rewrite !remove_non_digits_slice by exact D.
    clearbody cleaned. simpl in L.
    list_of_length cleaned 10%nat. reflexivity. }
  destruct (Nat.eqb (length cleaned) 11 && startsWith cleaned (str "1"))%bool
    eqn:C11.
  { apply andb_true_iff in C11. destruct C11 as [L P].
    apply Nat.eqb_eq in L.
    unfold remove_non_digits at 1. rewrite !filter_app.
    fold (remove_non_digits (slice cleaned 1 4)).
    fold (remove_non_digits (slice cleaned 4 7)).
    fold (remove_non_digits (slice_from cleaned 7)).
    unfold slice_from. rewrite !remove_non_digits_slice by exact D.
    clearbody cleaned. simpl in L.
    list_of_length cleaned 11%nat.
    simpl in P. rewrite andb_true_r in P. apply N.eqb_eq in P. subst.
    reflexivity. }
  destruct (Nat.eqb (length cleaned) 12 && startsWith cleaned (str "91"))%bool
    eqn:C12; [| reflexivity].
  apply andb_true_iff in C12. destruct C12 as [L P].
  apply Nat.eqb_eq in L.
  unfold remove_non_digits at 1. rewrite !filter_app.
  fold (remove_non_digits (slice cleaned 2 7)).
  fold (remove_non_digits (slice_from cleaned 7)).
  unfold slice_from. rewrite !remove_non_digits_slice by exact D.
  clearbody cleaned. simpl in L.
  list_of_length cleaned 12%nat.
  simpl in P. rewrite andb_true_r in P. apply andb_true_iff in P.
  destruct P as [P1 P2]. apply N.eqb_eq in P1, P2. subst.
  reflexivity.
Qed.

(** Formatting changes no digit: the digits of the result, in order, are
    the digits of the input, whichever of the three formats applies or
    none. *)
Theorem formatPhoneNumber_digits (phoneNumber : jsstring) :
  remove_non_digits (formatPhoneNumber phoneNumber)
  = remove_non_digits phoneNumber.
Proof. apply formatPhoneNumber_same_digits. Qed.

(** Formatting a formatted number changes nothing. *)
Theorem formatPhoneNumber_idempotent (phoneNumber : jsstring) :
  formatPhoneNumber (formatPhoneNumber phoneNumber)
  = formatPhoneNumber phoneNumber.
Proof.
  unfold formatPhoneNumber at 1. rewrite formatPhoneNumber_same_digits.
  unfold formatPhoneNumber.
  destruct (Nat.eqb (length (remove_non_digits phoneNumber)) 10);
    [reflexivity |].
  destruct (Nat.eqb (length (remove_non_digits phoneNumber)) 11
            && startsWith (remove_non_digits phoneNumber) (str "1"))%bool;
    [reflexivity |].
  destruct (Nat.eqb (length (remove_non_digits phoneNumber)) 12
            && startsWith (remove_non_digits phoneNumber) (str "91"))%bool;
    reflexivity.
Qed.

(** ** generateUUID *)

(** [Math.random() * 16 | 0] is one of 0, ..., 15. *)
Lemma to_int32_random (q : Q) :
  (0 <= q)%Q -> (q < 1)%Q -> (0 <= to_int32 (q * 16) < 16)%Z.
Proof.
  intros L H. unfold to_int32.
  assert (P : (0 <= q * 16)%Q)
    by (apply Qmult_le_0_compat; [exact L | discriminate]).
  rewrite (proj2 (Qle_bool_iff 0 (q * 16)) P).
  assert (R : (0 <= Qfloor (q * 16) < 16)%Z).
  { split.
    - change 0%Z with (Qfloor 0). now apply Qfloor_resp_le.
    - rewrite Zlt_Qlt.
      apply Qle_lt_trans with (q * 16)%Q; [apply Qfloor_le |].
      change (inject_Z 16) with (1 * 16)%Q.
      apply Qmult_lt_compat_r; [reflexivity | exact H]. }
  rewrite Z.mod_small by lia. lia.
Qed.

Lemma sixteen_cases (r : Z) (P : Z -> Prop) :
  (0 <= r < 16)%Z ->
  P 0%Z -> P 1%Z -> P 2%Z -> P 3%Z -> P 4%Z -> P 5%Z -> P 6%Z -> P 7%Z ->
  P 8%Z -> P 9%Z -> P 10%Z -> P 11%Z -> P 12%Z -> P 13%Z -> P 14%Z -> P 15%Z ->
  P r.
Proof.
  intros R. intros.
  assert (C : (r = 0 \/ r = 1 \/ r = 2 \/ r = 3 \/ r = 4 \/ r = 5 \/ r = 6
               \/ r = 7 \/ r = 8 \/ r = 9 \/ r = 10 \/ r = 11 \/ r = 12
               \/ r = 13 \/ r = 14 \/ r = 15)%Z) by lia.
  repeat (destruct C as [-> | C]; [assumption |]). now subst.
Qed.

(** The callback replaces an [x] by one lowercase digit of radix 16 and
    a [y] by one of [8], [9], [a], [b]. *)
Lemma uuid_replacement_spec (c : code_unit) (s : draws) :
  in_unit_interval s ->
  c = char_x \/ c = char_y ->
  exists h, uuid_replacement c s = ([h], later s) /\ uuid_char_ok c h = true.
Proof.
  intros U C. destruct (U 0%nat) as [L H].
  pose proof (to_int32_random L H) as R.
  unfold uuid_replacement, bind, Math_random, ret.
  set (r := to_int32 (s 0%nat * 16)) in *. clearbody r.
  destruct C as [-> | ->]; pattern r; apply (@sixteen_cases r _ R);
    eexists; split; reflexivity.
Qed.

Lemma replace_xy_shape (template : jsstring) : forall s : draws,
  in_unit_interval s ->
  has_uuid_shape template (result (replace_xy template) s) = true.
Proof.
  unfold result. induction template as [| t template IH]; intros s U;
    [reflexivity |].
  cbn [replace_xy].
  destruct (cu_eqb t char_x || cu_eqb t char_y)%bool eqn:E.
  - assert (C : t = char_x \/ t = char_y).
    { apply orb_true_iff in E. destruct E as [E | E];
        apply N.eqb_eq in E; auto. }
    destruct (uuid_replacement_spec U C) as (h & Eh & Ok).
    unfold bind at 1. rewrite Eh. unfold bind at 1.
    specialize (IH (later s) (later_in_unit_interval U)).
    destruct (replace_xy template (later s)) as [rest s'].
    simpl in *. now rewrite Ok, IH.
  - unfold bind at 1. specialize (IH s U).
    destruct (replace_xy template s) as [rest s'].
    simpl in *. rewrite IH, andb_true_r.
    apply orb_false_iff in E. destruct E as [Ex Ey].
    unfold uuid_char_ok. rewrite Ex, Ey. apply N.eqb_refl.
Qed.

Lemma has_uuid_shape_length (template : jsstring) : forall s : jsstring,
  has_uuid_shape template s = true -> length s = length template.
Proof.
  induction template as [| t template IH]; intros [| c s]; simpl;
    try discriminate; [reflexivity |].
  intros H. apply andb_true_iff in H. f_equal. apply IH. tauto.
Qed.

Lemma has_uuid_shape_nth (template : jsstring) : forall (s : jsstring) (i : nat) t,
  has_uuid_shape template s = true ->
  nth_error template i = Some t ->
  exists c, nth_error s i = Some c /\ uuid_char_ok t c = true.
Proof.
  induction template as [| t0 template IH]; intros [| c s] i t H N;
    simpl in H; try discriminate.
  - destruct i; discriminate.
  - apply andb_true_iff in H. destruct H as [H0 H].
    destruct i as [| i]; simpl in *.
    + injection N as <-. eauto.
    + eapply IH; eauto.
Qed.

(** Whatever the draws, [generateUUID()] returns 36 characters in the
    shape of a version 4 UUID: lowercase digits of radix 16 in groups of
    8, 4, 4, 4 and 12 with dashes between, the third group beginning
    with [4] and the fourth with one of [8], [9], [a], [b]. *)
Theorem generateUUID_shape (s : draws) :
  in_unit_interval s ->
  let uuid := result generateUUID s in
  has_uuid_shape uuid_template uuid = true
  /\ length uuid = 36%nat
  /\ (forall i, In i [8; 13; 18; 23]%nat -> nth_error uuid i = Some char_dash)
  /\ nth_error uuid 14 = Some 52%N
  /\ (exists v, nth_error uuid 19 = Some v /\ cu_mem v (str "89ab") = true)
  /\ (forall i c, nth_error uuid i = Some c ->
        ~ In i [8; 13; 18; 23]%nat -> is_hex_lower c = true).
Proof.
  intros U uuid.
  assert (Sh : has_uuid_shape uuid_template uuid = true)
    by (apply replace_xy_shape, U).
  split; [exact Sh |].
  split; [apply (has_uuid_shape_length _ _ Sh) |].
  split.
  { intros i I.
    assert (T : nth_error uuid_template i = Some char_dash)
      by (simpl in I; intuition (subst; reflexivity)).
    destruct (has_uuid_shape_nth _ _ _ Sh T) as (c & Ec & Ok).
    rewrite Ec. f_equal. apply N.eqb_eq, Ok. }
  split.
  { destruct (@has_uuid_shape_nth _ _ 14%nat 52%N Sh eq_refl) as (c & Ec & Ok).
    rewrite Ec. f_equal. apply N.eqb_eq, Ok. }
  split.
  { destruct (@has_uuid_shape_nth _ _ 19%nat char_y Sh eq_refl) as (c & Ec & Ok).
    exists c. split; [exact Ec | exact Ok]. }
  intros i c Ec NI.
  assert (Li : (i < 36)%nat).
  { assert (Lu : length uuid = 36%nat) by apply (has_uuid_shape_length _ _ Sh).
    rewrite <- Lu. apply nth_error_Some. congruence. }
  destruct (nth_error uuid_template i) as [t |] eqn:Et.
  - destruct (has_uuid_shape_nth _ _ _ Sh Et) as (c' & Ec' & Ok).
    assert (c' = c) by congruence. subst c'.
    clear - Et Ok NI Li.
    do 36 (destruct i as [| i];
           [ try (exfalso; apply NI; simpl; tauto);
             injection Et as <-; try exact Ok;
             (apply N.eqb_eq in Ok; subst; reflexivity)
             || (unfold is_hex_lower; simpl in Ok;
                 repeat (apply orb_true_iff in Ok; destruct Ok as [Ok | Ok]);
                 try discriminate; apply N.eqb_eq in Ok; subst; reflexivity)
           | ]).
    lia.
  - apply nth_error_None in Et. simpl in Et. lia.
Qed.

Lemma generateUUID_shape_witness :
  in_unit_interval (fun _ => 1 # 2)%Q
  /\ has_uuid_shape uuid_template (result generateUUID (fun _ => 1 # 2)%Q) = true
  /\ length (result generateUUID (fun _ => 1 # 2)%Q) = 36%nat.
Proof.
  assert (U : in_unit_interval (fun _ => 1 # 2)%Q)
    by (intros n; split; [unfold Qle; simpl; lia | reflexivity]).
  split; [exact U |].
  destruct (generateUUID_shape U) as (Sh & Len & _).
  split; [exact Sh | exact Len].
Defined.

(** ** handleUpload *)

Section UploadFacts.

Variable number_text : Q -> jsstring.

(** With no file [handleUpload] does nothing. With a file it calls
    [mutateFn], once and with that file, exactly when the type of the
    file is among the allowed ones and its size is at most [maxSizeMB]
    times 1024 * 1024 bytes; in every other case it raises one error
    toast and does not call [mutateFn]. *)
Theorem handleUpload_spec (file : File) (options : UploadOptions) :
  let allowed := array_includes (allowedTypes options) (file_type file) = true in
  let fits := (inject_Z (file_size file)
               <= or_default (maxSizeMB options) 1 * 1024 * 1024)%Q in
  handleUpload number_text None options = []
  /\ (allowed /\ fits ->
      handleUpload number_text (Some file) options
      = [Mutate [(str "file", file)]])
  /\ (~ (allowed /\ fits) ->
      exists message,
        handleUpload number_text (Some file) options = [ToastError message]).
Proof.
  intros allowed fits. unfold allowed, fits, handleUpload.
  split; [reflexivity |].
  destruct (array_includes (allowedTypes options) (file_type file)); simpl.
  - destruct (Qle_bool (inject_Z (file_size file))
                (or_default (maxSizeMB options) 1 * 1024 * 1024)%Q) eqn:E; simpl.
    + split; [reflexivity |]. apply Qle_bool_iff in E. tauto.
    + split.
      * intros [_ F]. apply Qle_bool_iff in F. congruence.
      * intros _. eexists. reflexivity.
  - split; [intros [F _]; discriminate F |]. intros _. eexists. reflexivity.
Qed.

End UploadFacts.

(** ** The Luhn checksum catches typing errors *)

Lemma luhn_loop_total (l : jsstring) :
  Forall (fun c => is_digit c = true) l ->
  forall acc isEven,
    luhn_loop l (Some acc) isEven = Some (acc + luhn_total isEven l)%Z.
Proof.
  induction 1 as [| c r Dc _ IH]; intros acc isEven.
  - simpl. f_equal. lia.
  - destruct isEven.
    + rewrite luhn_loop_step_doubled by exact Dc. rewrite IH.
      simpl. unfold luhn_weight. f_equal. lia.
    + rewrite luhn_loop_step_digit by exact Dc. rewrite IH.
      simpl. unfold luhn_weight. f_equal. lia.
Qed.

Lemma luhn_total_app (l1 l2 : jsstring) : forall isEven,
  exists isEven',
    forall r, luhn_total isEven (l1 ++ r)
              = (luhn_total isEven l1 + luhn_total isEven' r)%Z.
Proof.
  induction l1 as [| c l1 IH]; intros isEven.
  - exists isEven. reflexivity.
  - destruct (IH (negb isEven)) as [e He]. exists e. intros r.
    simpl. rewrite He. lia.
Qed.

Lemma digit_value_range (c : code_unit) :
  is_digit c = true -> (0 <= digit_value c <= 9)%Z.
Proof. intros D. unfold digit_value. cu_arith. Qed.

Lemma digit_value_inj (c c' : code_unit) :
  digit_value c = digit_value c' -> c = c'.
Proof. unfold digit_value. lia. Qed.

Lemma luhn_weight_range (isEven : bool) (c : code_unit) :
  is_digit c = true -> (0 <= luhn_weight isEven c <= 9)%Z.
Proof.
  intros D. apply digit_value_range in D.
  unfold luhn_weight, luhn_double.
  destruct isEven; [| exact D].
  destruct (Z.ltb_spec 9 (2 * digit_value c)); lia.
Qed.

Lemma luhn_weight_inj (isEven : bool) (c c' : code_unit) :
  is_digit c = true -> is_digit c' = true ->
  luhn_weight isEven c = luhn_weight isEven c' -> c = c'.
Proof.
  intros D D' E. apply digit_value_inj.
  apply digit_value_range in D, D'.
  unfold luhn_weight, luhn_double in E.
  destruct isEven; [| exact E].
  destruct (Z.ltb_spec 9 (2 * digit_value c));
    destruct (Z.ltb_spec 9 (2 * digit_value c')); lia.
Qed.

Lemma mod_10_eq (n : Z) : (n mod 10 = 0)%Z -> (n = 10 * (n / 10))%Z.
Proof. intros H. pose proof (Z.div_mod n 10). lia. Qed.

Lemma strip_app (a b : jsstring) :
  strip_whitespace_dashes (a ++ b)
  = strip_whitespace_dashes a ++ strip_whitespace_dashes b.
Proof. apply filter_app. Qed.

Lemma strip_digit (c : code_unit) (r : jsstring) :
  is_digit c = true ->
  strip_whitespace_dashes (c :: r) = c :: strip_whitespace_dashes r.
Proof.
  intros D. unfold strip_whitespace_dashes. simpl.
  now rewrite (digit_not_space _ D), (digit_not_dash _ D).
Qed.

(** What [isValidCreditCard] computes, on the cleaned number. *)
Lemma isValidCreditCard_total (s : jsstring) :
  isValidCreditCard s = true
  <-> is_card_shape (strip_whitespace_dashes s) = true
      /\ (luhn_total false (rev (strip_whitespace_dashes s)) mod 10 = 0)%Z.
Proof.
  unfold isValidCreditCard. rewrite remove_ws_dashes.
  set (cleaned := strip_whitespace_dashes s).
  destruct (is_card_shape cleaned) eqn:S; simpl.
  - apply is_card_shape_iff in S. destruct S as [_ D].
    rewrite luhn_loop_total by (apply Forall_rev, D).
    rewrite Z.add_0_l, Z.eqb_eq. tauto.
  - split; [discriminate | intros [C _]; discriminate C].
Qed.

Lemma is_card_shape_change (A B : jsstring) (c c' : code_unit) :
  is_digit c' = true ->
  is_card_shape (A ++ c :: B) = true -> is_card_shape (A ++ c' :: B) = true.
Proof.
  intros D S. apply is_card_shape_iff in S. apply is_card_shape_iff.
  destruct S as [L F]. rewrite length_app in *. simpl in *.
  split; [exact L |].
  apply Forall_app in F. destruct F as [FA FB].
  inversion FB; subst. apply Forall_app. split; [exact FA |].
  constructor; assumption.
Qed.

(** A valid card number in which one digit is replaced by another digit
    is no longer valid: the checksum catches every single wrong digit. *)
Theorem isValidCreditCard_single_digit_error (a b : jsstring) (c c' : code_unit) :
  is_digit c = true -> is_digit c' = true -> c <> c' ->
  isValidCreditCard (a ++ c :: b) = true ->
  isValidCreditCard (a ++ c' :: b) = false.
Proof.
  intros D D' N V. apply not_true_iff_false. intros V'.
  apply isValidCreditCard_total in V, V'.
  rewrite strip_app, strip_digit in V, V' by assumption.
  destruct V as [_ V]. destruct V' as [_ V'].
  rewrite rev_app_distr in V, V'. simpl rev in V, V'.
  rewrite <- !app_assoc in V, V'. simpl app in V, V'.
  destruct (luhn_total_app (rev (strip_whitespace_dashes b)) [] false)
    as [e He].
  rewrite He in V, V'. simpl luhn_total in V, V'.
  pose proof (@luhn_weight_range e c D) as R.
  pose proof (@luhn_weight_range e c' D') as R'.
  assert (W : luhn_weight e c <> luhn_weight e c').
  { intros E. apply N. eapply luhn_weight_inj; eauto. }
  apply mod_10_eq in V, V'. lia.
Qed.

Lemma isValidCreditCard_single_digit_error_witness :
  is_digit 54%N = true /\ is_digit 55%N = true /\ 54%N <> 55%N
  /\ isValidCreditCard (str "453201511283036" ++ 54%N :: []) = true
  /\ isValidCreditCard (str "4532015112830367") = false.
Proof.
  assert (D : is_digit 54%N = true) by reflexivity.
  assert (D' : is_digit 55%N = true) by reflexivity.
  assert (N : 54%N <> 55%N) by discriminate.
  assert (V : isValidCreditCard (str "453201511283036" ++ 54%N :: []) = true)
    by reflexivity.
  repeat (split; [assumption |]).
  exact (@isValidCreditCard_single_digit_error (str "453201511283036") []
           54%N 55%N D D' N V).
Defined.

(** A valid card number in which two neighbouring digits are exchanged
    is no longer valid, unless the two digits are equal or are 0 and 9. *)
Theorem isValidCreditCard_transposition_error (a b : jsstring) (x y : code_unit) :
  is_digit x = true -> is_digit y = true -> x <> y ->
  ~ ((digit_value x = 0 /\ digit_value y = 9)
     \/ (digit_value x = 9 /\ digit_value y = 0))%Z ->
  isValidCreditCard (a ++ x :: y :: b) = true ->
  isValidCreditCard (a ++ y :: x :: b) = false.
Proof.
  intros Dx Dy N Z09 V. apply not_true_iff_false. intros V'.
  apply isValidCreditCard_total in V, V'.
  rewrite strip_app, !strip_digit in V, V' by assumption.
  destruct V as [_ V]. destruct V' as [_ V'].
  rewrite rev_app_distr in V, V'. simpl rev in V, V'.
  rewrite <- !app_assoc in V, V'. simpl app in V, V'.
  destruct (luhn_total_app (rev (strip_whitespace_dashes b)) [] false)
    as [e He].
  rewrite He in V, V'. simpl luhn_total in V, V'.
  pose proof (@digit_value_range x Dx) as Rx.
  pose proof (@digit_value_range y Dy) as Ry.
  assert (Nv : digit_value x <> digit_value y)
    by (intros E; apply N, digit_value_inj, E).
  unfold luhn_weight, luhn_double in V, V'.
  apply mod_10_eq in V, V'.
  destruct e; simpl negb in V, V'; cbv iota in V, V';
    destruct (Z.ltb_spec 9 (2 * digit_value x));
    destruct (Z.ltb_spec 9 (2 * digit_value y)); lia.
Qed.

Lemma isValidCreditCard_transposition_error_witness :
  is_digit 51%N = true /\ is_digit 54%N = true /\ 51%N <> 54%N
  /\ ~ ((digit_value 51%N = 0 /\ digit_value 54%N = 9)
        \/ (digit_value 51%N = 9 /\ digit_value 54%N = 0))%Z
  /\ isValidCreditCard (str "4532015112830" ++ 51%N :: 54%N :: str "6") = true
  /\ isValidCreditCard (str "4532015112830" ++ 54%N :: 51%N :: str "6") = false.
Proof.
  assert (Dx : is_digit 51%N = true) by reflexivity.
  assert (Dy : is_digit 54%N = true) by reflexivity.
  assert (N : 51%N <> 54%N) by discriminate.
  assert (Z09 : ~ ((digit_value 51%N = 0 /\ digit_value 54%N = 9)
                   \/ (digit_value 51%N = 9 /\ digit_value 54%N = 0))%Z)
    by (unfold digit_value; simpl; lia).
  assert (V : isValidCreditCard (str "4532015112830" ++ 51%N :: 54%N :: str "6")
              = true) by reflexivity.
  repeat (split; [assumption |]).
  exact (@isValidCreditCard_transposition_error (str "4532015112830") (str "6")
           51%N 54%N Dx Dy N Z09 V).
Defined.

(** ** generateCoupon: what the stripping leaves *)

Lemma coupon_char_not_space (options : CouponOptions) (c : code_unit) :
  In c (coupon_chars options) -> is_space c = false.
Proof.
  intros I.
  assert (A : forallb (fun x => negb (is_space x))
                (numbers ++ uppercase ++ lowercase ++ special) = true)
    by reflexivity.
  rewrite forallb_forall in A. apply negb_true_iff, A.
  apply coupon_chars_in in I. rewrite !in_app_iff. tauto.
Qed.

(** The characters [generateCoupon] draws are never white space, so the
    final stripping removes white space from the prefix and the suffix
    only: the coupon is the stripped prefix, all [length] drawn
    characters and the stripped suffix, and holds no white space. *)
Theorem generateCoupon_keeps_drawn_characters (options : CouponOptions) (s : draws) :
  in_unit_interval s ->
  coupon_chars options <> [] ->
  exists body,
    result (generateCoupon options) s
    = Returned (remove_whitespace (or_default (opt_prefix options) [])
                ++ body
                ++ remove_whitespace (or_default (opt_suffix options) []))
    /\ length body = Z.to_nat (or_default (opt_length options) 8%Z)
    /\ Forall (fun c => In c (coupon_chars options)) body
    /\ Forall (fun c => is_space c = false)
         (remove_whitespace (or_default (opt_prefix options) [])
          ++ body
          ++ remove_whitespace (or_default (opt_suffix options) [])).
Proof.
  intros U NE.
  destruct (coupon_loop_spec NE
              (Z.to_nat (or_default (opt_length options) 8%Z)) [] U)
    as (body & Eb & Lb & Fb).
  assert (Sb : Forall (fun c => is_space c = false) body).
  { eapply Forall_impl; [| exact Fb]. intros c. apply coupon_char_not_space. }
  exists body. split; [| split; [exact Lb | split; [exact Fb |]]].
  - unfold result, generateCoupon in *.
    rewrite jsstring_eqb_neq by exact NE. unfold bind.
    destruct (coupon_loop _ _ _ s) as [coupon s'].
    simpl in Eb. subst coupon. simpl. f_equal.
    unfold remove_whitespace at 1. rewrite !filter_app.
    fold (remove_whitespace body). now rewrite (remove_whitespace_id Sb).
  - assert (R : forall x, Forall (fun c => is_space c = false) (remove_whitespace x)).
    { intros x. apply Forall_forall. intros c I. unfold remove_whitespace in I.
      apply filter_In in I. now apply negb_true_iff. }
    repeat (apply Forall_app; split); auto.
Qed.

Lemma generateCoupon_keeps_drawn_characters_witness :
  let options := {| opt_length := Some 4%Z; opt_prefix := Some (str "PRO MO ");
                    opt_suffix := None; includeNumbers := None;
                    includeUppercase := None; includeLowercase := None;
                    includeSpecialChars := None |} in
  in_unit_interval (fun _ => 1 # 2)%Q
  /\ coupon_chars options <> []
  /\ exists body,
       result (generateCoupon options) (fun _ => 1 # 2)%Q
       = Returned (str "PROMO" ++ body ++ [])
       /\ length body = 4%nat.
Proof.
  intros options.
  assert (U : in_unit_interval (fun _ => 1 # 2)%Q)
    by (intros n; split; [unfold Qle; simpl; lia | reflexivity]).
  assert (NE : coupon_chars options <> []) by discriminate.
  split; [exact U |]. split; [exact NE |].
  destruct (@generateCoupon_keeps_drawn_characters options _ U NE)
    as (body & E & L & _).
  exists body. split; [exact E | exact L].
Defined.

(** ** generateRandomPassword against isValidPassword *)

Lemma fill_password_class (cls : code_unit -> bool) (n : nat) :
  charset_range cls 0 (length charset) = true ->
  forall (password : jsstring) (s : draws),
    in_unit_interval s ->
    exists extra s',
      fill_password n (map Some password) s = (map Some (password ++ extra), s')
      /\ length extra = n
      /\ Forall (fun c => cls c = true) extra
      /\ in_unit_interval s'.
Proof.
  intros C. induction n as [| n IH]; intros password s U.
  - exists [], s. simpl. rewrite app_nil_r. auto.
  - destruct (@randomChar_spec cls 0 (Z.of_nat (length charset) - 1) s U)
      as (c & E & Hc); [simpl; lia | exact C |].
    destruct (IH (password ++ [c]) (later s) (later_in_unit_interval U))
      as (extra & s' & E' & L & F & U').
    exists (c :: extra), s'. cbn [fill_password]. unfold bind at 1. rewrite E.
    replace (map Some password ++ [Some c]) with (map Some (password ++ [c]))
      by (rewrite map_app; reflexivity).
    rewrite E', <- app_assoc. simpl. auto.
Qed.

(** Every character of the array comes from [charset]. *)
Lemma password_array_charset (len : Z) (s : draws) :
  in_unit_interval s ->
  exists c1 c2 c3 c4 extra,
    result (password_array len) s = map Some (c1 :: c2 :: c3 :: c4 :: extra)
    /\ is_lower c1 = true /\ is_upper c2 = true
    /\ is_digit c3 = true /\ is_symbol c4 = true
    /\ Forall (fun c => cu_mem c charset = true) extra.
Proof.
  intros U0.
  pose proof (later_in_unit_interval U0) as U1.
  pose proof (later_in_unit_interval U1) as U2.
  pose proof (later_in_unit_interval U2) as U3.
  pose proof (later_in_unit_interval U3) as U4.
  destruct (@randomChar_spec is_lower 0 25 _ U0) as (c1 & E1 & C1);
    [lia | reflexivity |].
  destruct (@randomChar_spec is_upper 26 51 _ U1) as (c2 & E2 & C2);
    [lia | reflexivity |].
  destruct (@randomChar_spec is_digit 52 61 _ U2) as (c3 & E3 & C3);
    [lia | reflexivity |].
  destruct (@randomChar_spec is_symbol 62 68 _ U3) as (c4 & E4 & C4);
    [lia | reflexivity |].
  destruct (@fill_password_class (fun c => cu_mem c charset)
              (Z.to_nat (len - 4)) eq_refl [c1; c2; c3; c4] _ U4)
    as (extra & s' & E & L & F & U').
  exists c1, c2, c3, c4, extra.
  unfold result, password_array, bind. rewrite E1, E2, E3, E4.
  change [Some c1; Some c2; Some c3; Some c4]
    with (map Some [c1; c2; c3; c4]).
  rewrite E. simpl. auto 10.
Qed.

Lemma charset_password_char (c : code_unit) :
  cu_mem c charset = true -> c <> char_hash -> is_password_char c = true.
Proof.
  intros M N.
  assert (A : forallb (fun x => cu_eqb x char_hash || is_password_char x)%bool
                charset = true) by reflexivity.
  rewrite forallb_forall in A.
  unfold cu_mem in M. apply existsb_exists in M. destruct M as (x & I & E).
  apply N.eqb_eq in E. subst x. specialize (A c I).
  apply orb_true_iff in A. destruct A as [A | A]; [| exact A].
  apply N.eqb_eq in A. contradiction.
Qed.

Lemma symbol_special (c : code_unit) :
  is_symbol c = true -> c <> char_hash -> is_special c = true.
Proof.
  intros M N.
  assert (A : forallb (fun x => cu_eqb x char_hash || is_special x)%bool
                (str "!@#$%&*?") = true) by reflexivity.
  rewrite forallb_forall in A.
  unfold is_symbol, cu_mem in M. apply existsb_exists in M.
  destruct M as (x & I & E). apply N.eqb_eq in E. subst x. specialize (A c I).
  apply orb_true_iff in A. destruct A as [A | A]; [| exact A].
  apply N.eqb_eq in A. contradiction.
Qed.

Section ShuffleAgain.

Variable array_sort :
  (option code_unit -> option code_unit -> Rand Q) ->
  list (option code_unit) -> Rand (list (option code_unit)).

Hypothesis array_sort_permutation :
  forall cmp l s, Permutation l (result (array_sort cmp l) s).

(** A generated password passes [isValidPassword(p, minLength)] exactly
    when it has at least [minLength] characters and no ['#'] in it: the
    ['#'] of the generator's charset is the one thing the validator
    holds against it. *)
Theorem generated_password_valid_iff (len : Z) (s : draws) (minLength : nat) :
  in_unit_interval s ->
  let p := result (generateRandomPassword array_sort len) s in
  isValidPassword p minLength = true
  <-> (minLength <= length p)%nat /\ ~ In char_hash p.
Proof.
  intros U p.
  destruct (password_array_charset len U)
    as (c1 & c2 & c3 & c4 & extra & E & C1 & C2 & C3 & C4 & F).
  assert (P : Permutation (c1 :: c2 :: c3 :: c4 :: extra) p).
  { unfold p, result, generateRandomPassword, bind.
    unfold result in E. destruct (password_array len s) as [a s'].
    simpl in E. subst a.
    pose proof (array_sort_permutation random_comparator
                  (map Some (c1 :: c2 :: c3 :: c4 :: extra)) s') as Q.
    unfold result in Q.
    destruct (array_sort random_comparator _ s') as [sorted s''].
    simpl fst in *.
    rewrite <- (join_map_Some (c1 :: c2 :: c3 :: c4 :: extra)).
    unfold join. apply Permutation_flat_map, Q. }
  split.
  - intros V. unfold isValidPassword in V. rewrite !andb_true_iff in V.
    destruct V as (_ & A & L). apply Nat.leb_le in L. split; [exact L |].
    intros I. rewrite forallb_forall in A. specialize (A _ I). discriminate A.
  - intros [L N].
    assert (N' : forall c, In c (c1 :: c2 :: c3 :: c4 :: extra) -> c <> char_hash).
    { intros c I ->. apply N. eapply Permutation_in; eauto. }
    assert (A : forallb is_password_char p = true).
    { apply forallb_forall. intros c I.
      apply (Permutation_in _ (Permutation_sym P)) in I.
      pose proof (N' c I) as Nc. simpl in I.
      destruct I as [<- | [<- | [<- | [<- | I]]]].
      - unfold is_password_char. rewrite C1. now rewrite orb_true_r.
      - unfold is_password_char. now rewrite C2.
      - unfold is_password_char. rewrite C3. now rewrite orb_true_r.
      - unfold is_password_char. rewrite (symbol_special C4 Nc).
        now rewrite !orb_true_r.
      - rewrite Forall_forall in F. apply charset_password_char; auto. }
    unfold isValidPassword. rewrite A. rewrite (proj2 (Nat.leb_le _ _) L).
    rewrite !contains_lookahead; auto.
    + apply (contains_permutation P). exists c4. split; [simpl; auto 6 |].
      apply symbol_special; [exact C4 | apply N'; simpl; auto 6].
    + apply (contains_permutation P). exists c3. simpl. auto.
    + apply (contains_permutation P). exists c2. simpl. auto.
    + apply (contains_permutation P). exists c1. simpl. auto.
Qed.

End ShuffleAgain.

Lemma generated_password_valid_iff_witness :
  (forall cmp l s,
     Permutation l (result (@insertion_sort (option code_unit) cmp l) s))
  /\ in_unit_interval (fun _ => 1 # 2)%Q
  /\ isValidPassword
       (result (generateRandomPassword (@insertion_sort _) 8) (fun _ => 1 # 2)%Q)
       8 = true.
Proof.
  assert (U : in_unit_interval (fun _ => 1 # 2)%Q)
    by (intros n; split; [unfold Qle; simpl; lia | reflexivity]).
  split; [exact (@insertion_sort_permutation _) |].
  split; [exact U |].
  apply (generated_password_valid_iff (@insertion_sort _)
           (@insertion_sort_permutation _) 8 8 U).
  split; [vm_compute; lia |].
  vm_compute. intuition discriminate.
Defined.

(** ** The rate limiters over any run *)

Lemma waited_nonneg (Args : Type) (es : list (event Args)) : (0 <= waited es)%Z.
Proof.
  induction es as [| [a | d] es IH]; simpl; lia.
Qed.

Section RateBounds.

Variable Args : Type.

Local Abbreviation tevent := (event (Args * behaviour Args)%type).
Local Abbreviation event := (event Args).
Local Abbreviation throttled := (throttled Args).
Local Abbreviation debounced := (debounced Args).

Lemma throttle_now (limit : Z) (es : list tevent) : forall w : throttled,
  Forall (@returns_plainly Args) es ->
  now (t_loop (throttle_run limit es w)) = (now (t_loop w) + waited es)%Z.
Proof.
  induction es as [| [[a b] | d] es IH]; intros w R.
  - simpl. lia.
  - inversion R as [| ? ? Rb Res]; subst. simpl in Rb. subst b.
    change (throttle_run limit (Call (a, Returns) :: es) w)
      with (throttle_run limit es (fst (throttle limit a Returns w))).
    rewrite IH by exact Res. unfold throttle, throttle_body.
    destruct (inThrottle w); reflexivity.
  - inversion R as [| ? ? _ Res]; subst.
    change (throttle_run limit (Wait d :: es) w)
      with (throttle_run limit es (throttle_wait d w)).
    rewrite IH by exact Res. simpl. lia.
Qed.

Lemma debounce_now (delay : Z) (es : list event) : forall w : debounced,
  now (d_loop (debounce_run delay es w)) = (now (d_loop w) + waited es)%Z.
Proof.
  induction es as [| [a | d] es IH]; intros w.
  - simpl. lia.
  - change (debounce_run delay (Call a :: es) w)
      with (debounce_run delay es (debounce delay a w)).
    rewrite IH. unfold debounce. destruct (timeoutId w); reflexivity.
  - change (debounce_run delay (Wait d :: es) w)
      with (debounce_run delay es (debounce_wait d w)).
    rewrite IH. simpl. lia.
Qed.

Lemma throttle_step_rate (limit : Z) (w : throttled) (e : tevent) :
  (0 < limit)%Z ->
  returns_plainly e ->
  throttle_rate_inv limit w -> throttle_rate_inv limit (throttle_step limit w e).
Proof.
  intros P R [(G & Q & C) | (G & id & D & Q & C)]; destruct e as [[a b] | d];
    unfold throttle_step; simpl in R; try subst b.
  - right. unfold throttle, throttle_body, shut, enter, setTimeout.
    rewrite G. simpl. rewrite Q. simpl.
    split; [reflexivity |]. eexists _, _. split; [reflexivity |].
    rewrite length_app. simpl. lia.
  - left. unfold throttle_wait. rewrite (elapse_empty d _ Q). simpl.
    repeat split; auto. lia.
  - right. unfold throttle, throttle_body. rewrite G. split; [exact G |]. eauto.
  - unfold throttle_wait.
    destruct (Z.lt_ge_cases (now (t_loop w) + Z.max 0 d) D) as [L | L].
    + right. rewrite (elapse_pending d _ Q L). simpl.
      split; [exact G |]. eexists _, _. split; [reflexivity |]. lia.
    + left. rewrite (elapse_fires d _ Q L). simpl.
      repeat split. right. lia.
Qed.

Lemma throttle_run_rate (limit : Z) (es : list tevent) : forall w : throttled,
  (0 < limit)%Z ->
  Forall (@returns_plainly Args) es ->
  throttle_rate_inv limit w -> throttle_rate_inv limit (throttle_run limit es w).
Proof.
  induction es as [| e es IH]; intros w P R I; [exact I |].
  inversion R as [| ? ? Re Res]; subst.
  apply IH; [exact P | exact Res |]. now apply throttle_step_rate.
Qed.

(** Over any sequence of invocations and waits in which every execution
    returns without invoking the wrapper, a throttled function with a
    positive [limit] is executed at most once more than there are whole
    [limit]s in the time that passed. *)
Theorem throttle_rate (limit : Z) (es : list tevent) :
  (0 < limit)%Z ->
  Forall (@returns_plainly Args) es ->
  ((Z.of_nat (length (t_executed (throttle_run limit es throttle_init))) - 1)
   * limit <= waited es)%Z.
Proof.
  intros P R.
  assert (I : throttle_rate_inv limit (throttle_run limit es throttle_init)).
  { apply throttle_run_rate; [exact P | exact R |]. left. simpl.
    repeat split. left. lia. }
  pose proof (throttle_now limit throttle_init R) as T. simpl in T.
  pose proof (waited_nonneg es) as W.
  unfold throttle_rate_inv in I. rewrite T in I.
  destruct I as [(_ & _ & C) | (_ & id & D & _ & C)]; nia.
Qed.

Lemma debounce_step_rate (delay : Z) (w : debounced) (e : event) :
  (0 < delay)%Z ->
  debounce_rate_inv delay w -> debounce_rate_inv delay (debounce_step delay w e).
Proof.
  intros P I.
  assert (J : debounce_inv w).
  { destruct I as [(Q & _) | (id & D & a & Q & T & _)]; [left | right]; eauto. }
  destruct e as [a | d]; unfold debounce_step.
  - right. rewrite (debounce_call_state delay a J). simpl.
    eexists _, _, _. split; [reflexivity |]. split; [reflexivity |].
    destruct I as [(Q & C) | (id & D & b & Q & T & C)]; lia.
  - unfold debounce_wait.
    destruct I as [(Q & C) | (id & D & b & Q & T & C)].
    + left. rewrite (elapse_empty d _ Q). simpl. rewrite app_nil_r.
      split; [reflexivity | lia].
    + destruct (Z.lt_ge_cases (now (d_loop w) + Z.max 0 d) D) as [L | L].
      * right. rewrite (elapse_pending d _ Q L). simpl. rewrite app_nil_r.
        eexists _, _, _. split; [reflexivity |]. split; [exact T | lia].
      * left. rewrite (elapse_fires d _ Q L). simpl.
        split; [reflexivity |]. rewrite length_app. simpl. lia.
Qed.

Lemma debounce_run_rate (delay : Z) (es : list event) : forall w : debounced,
  (0 < delay)%Z ->
  debounce_rate_inv delay w -> debounce_rate_inv delay (debounce_run delay es w).
Proof.
  induction es as [| e es IH]; intros w P I; [exact I |].
  apply IH; [exact P |]. now apply debounce_step_rate.
Qed.

(** Over any sequence of invocations and waits, a debounced function
    with a positive [delay] is executed at most as often as there are
    whole [delay]s in the time that passed. *)
Theorem debounce_rate (delay : Z) (es : list event) :
  (0 < delay)%Z ->
  (Z.of_nat (length (d_executed (debounce_run delay es debounce_init)))
   * delay <= waited es)%Z.
Proof.
  intros P.
  assert (I : debounce_rate_inv delay (debounce_run delay es debounce_init)).
  { apply debounce_run_rate; [exact P |]. left. simpl. split; [reflexivity | lia]. }
  pose proof (debounce_now delay es debounce_init) as T. simpl in T.
  unfold debounce_rate_inv in I. rewrite T in I.
  destruct I as [(_ & C) | (id & D & a & _ & _ & C)]; lia.
Qed.

Lemma subsequence_refl (A : Type) (l : list A) : subsequence l l.
Proof. induction l; constructor; assumption. Qed.

Lemma subsequence_nil (A : Type) (l : list A) : subsequence [] l.
Proof. induction l; constructor; assumption. Qed.

Lemma subsequence_length (A : Type) (a b : list A) :
  subsequence a b -> (length a <= length b)%nat.
Proof. induction 1; simpl; lia. Qed.

Lemma subsequence_app (A : Type) (a b c d : list A) :
  subsequence a b -> subsequence c d -> subsequence (a ++ c) (b ++ d).
Proof.
  intros S T. induction S; simpl; try constructor; assumption.
Qed.

Lemma perform_executed (limit : Z) (b : behaviour Args) : forall w : throttled,
  exists x, t_executed (fst (perform limit b w)) = t_executed w ++ x
            /\ subsequence x (reentries b).
Proof.
  induction b as [| | a inner IHi rest IHr]; intros w; simpl;
    try (exists []; rewrite app_nil_r; split; [reflexivity | constructor]).
  destruct (IHr (fst (throttle_body limit (perform limit inner) a w)))
    as (y & Ey & Sy).
  rewrite Ey. unfold throttle_body.
  destruct (inThrottle w); simpl.
  - exists y. split; [reflexivity |]. constructor.
    apply (subsequence_app (subsequence_nil (reentries inner)) Sy).
  - destruct (IHi (enter a w)) as (x & Ex & Sx).
    destruct (perform limit inner (enter a w)) as [w1 [|]]; simpl in *;
      rewrite Ex; exists (a :: x ++ y); rewrite <- !app_assoc;
      (split; [reflexivity |]); constructor; now apply subsequence_app.
Qed.

Lemma throttle_executed_called (limit : Z) (es : list tevent) :
  forall w : throttled,
  exists x, t_executed (throttle_run limit es w) = t_executed w ++ x
            /\ subsequence x (invocations es).
Proof.
  induction es as [| [[a b] | d] es IH]; intros w.
  - exists []. simpl. rewrite app_nil_r. split; [reflexivity | constructor].
  - change (throttle_run limit (Call (a, b) :: es) w)
      with (throttle_run limit es (fst (throttle limit a b w))).
    destruct (IH (fst (throttle limit a b w))) as (y & E & S). rewrite E.
    change (invocations (Call (a, b) :: es))
      with ((a :: reentries b) ++ invocations es).
    unfold throttle, throttle_body. destruct (inThrottle w); simpl fst.
    + exists y. split; [reflexivity |].
      apply (subsequence_app (subsequence_nil (a :: reentries b)) S).
    + destruct (perform_executed limit b (enter a w)) as (x & Ex & Sx).
      destruct (perform limit b (enter a w)) as [w1 [|]]; simpl in *;
        rewrite Ex; exists ((a :: x) ++ y); simpl; rewrite <- !app_assoc;
        (split; [reflexivity |]);
        apply (@subsequence_app _ (a :: x) (a :: reentries b) y _);
        try assumption; now constructor.
  - change (throttle_run limit (Wait d :: es) w)
      with (throttle_run limit es (throttle_wait d w)).
    destruct (IH (throttle_wait d w)) as (x & E & S). rewrite E.
    exists x. split; [reflexivity | exact S].
Qed.

Lemma invocations_plain (es : list tevent) :
  Forall (@returns_plainly Args) es -> invocations es = map fst (called es).
Proof.
  induction 1 as [| [[a b] | d] es R _ IH]; simpl in *; [reflexivity | |].
  - subst b. simpl. now rewrite IH.
  - exact IH.
Qed.

(** A throttled function is executed only with arguments the wrapper was
    invoked with, by the host or by the function itself, in the order of
    the invocations, each invocation giving at most one execution; when
    every execution returns without invoking the wrapper, the
    invocations are those of the host. *)
Theorem throttle_executes_invocations (limit : Z) (es : list tevent) :
  subsequence (t_executed (throttle_run limit es throttle_init))
              (invocations es)
  /\ (length (t_executed (throttle_run limit es throttle_init))
      <= length (invocations es))%nat
  /\ (Forall (@returns_plainly Args) es ->
      subsequence (t_executed (throttle_run limit es throttle_init))
                  (map fst (called es))
      /\ (length (t_executed (throttle_run limit es throttle_init))
          <= length (called es))%nat).
Proof.
  destruct (throttle_executed_called limit es throttle_init) as (x & E & S).
  rewrite E. simpl. split; [exact S |].
  split; [now apply subsequence_length |].
  intros R. rewrite <- (invocations_plain R). split; [exact S |].
  apply subsequence_length in S. rewrite (invocations_plain R) in S.
  now rewrite length_map in S.
Qed.

Lemma debounce_executed_called (delay : Z) (es : list event) :
  forall w : debounced,
  debounce_inv w ->
  exists x, d_executed (debounce_run delay es w) = d_executed w ++ x
            /\ subsequence x (map (@timer_task Args) (queue (d_loop w))
                              ++ called es).
Proof.
  induction es as [| [a | d] es IH]; intros w J.
  - exists []. simpl. rewrite app_nil_r. split; [reflexivity |].
    apply subsequence_nil.
  - change (debounce_run delay (Call a :: es) w)
      with (debounce_run delay es (debounce delay a w)).
    destruct (IH (debounce delay a w)) as (x & E & S).
    { apply (debounce_step_inv delay (Call a) J). }
    rewrite E. rewrite (debounce_call_state delay a J) in *. simpl in *.
    exists x. split; [reflexivity |].
    destruct J as [Q | (id & D & b & Q & _)]; rewrite Q; simpl;
      [exact S | now constructor].
  - change (debounce_run delay (Wait d :: es) w)
      with (debounce_run delay es (debounce_wait d w)).
    destruct (IH (debounce_wait d w)) as (x & E & S).
    { apply (debounce_step_inv delay (Wait d) J). }
    rewrite E. unfold debounce_wait in *.
    destruct J as [Q | (id & D & b & Q & _)].
    + rewrite (elapse_empty d _ Q) in *. simpl in *.
      rewrite app_nil_r, Q. exists x. split; [reflexivity | exact S].
    + destruct (Z.lt_ge_cases (now (d_loop w) + Z.max 0 d) D) as [L | L].
      * rewrite (elapse_pending d _ Q L) in *. simpl in *.
        rewrite app_nil_r, Q. exists x. split; [reflexivity | exact S].
      * rewrite (elapse_fires d _ Q L) in *. simpl in *.
        rewrite Q. exists (b :: x). simpl. rewrite <- app_assoc.
        split; [reflexivity |]. now constructor.
Qed.

(** A debounced function is executed only with arguments the wrapper was
    invoked with, in the order of the invocations, each invocation
    giving at most one execution. *)
Theorem debounce_executes_invocations (delay : Z) (es : list event) :
  subsequence (d_executed (debounce_run delay es debounce_init)) (called es)
  /\ (length (d_executed (debounce_run delay es debounce_init))
      <= length (called es))%nat.
Proof.
  destruct (@debounce_executed_called delay es debounce_init
              (debounce_init_inv Args)) as (x & E & S).
  rewrite E. simpl in *. split; [exact S | now apply subsequence_length].
Qed.

End RateBounds.

Lemma throttle_rate_witness :
  let es := [Call (1%nat, Returns); Wait 100; Call (2%nat, Returns);
             Call (3%nat, Returns)] in
  (0 < 100)%Z
  /\ Forall (@returns_plainly nat) es
  /\ ((Z.of_nat (length (t_executed (throttle_run 100 es throttle_init))) - 1)
       * 100
      <= waited es)%Z.
Proof.
  intros es.
  assert (P : (0 < 100)%Z) by lia.
  assert (R : Forall (@returns_plainly nat) es)
    by (repeat constructor).
  split; [exact P |]. split; [exact R |].
  exact (throttle_rate P R).
Defined.

Lemma debounce_rate_witness :
  (0 < 100)%Z
  /\ (Z.of_nat (length (d_executed
        (debounce_run 100 [Call 1%nat; Wait 100; Call 2%nat; Wait 150]
           debounce_init))) * 100
      <= waited [Call 1%nat; Wait 100; Call 2%nat; Wait 150])%Z.
Proof.
  assert (P : (0 < 100)%Z) by lia.
  split; [exact P |].
  exact (debounce_rate [Call 1%nat; Wait 100; Call 2%nat; Wait 150] P).
Defined.

(** ** validateImage against handleFileUpload *)

Lemma array_includes_in (a : list jsstring) (s : jsstring) :
  array_includes a s = true <-> In s a.
Proof.
  unfold array_includes. rewrite existsb_exists. split.
  - intros (x & I & E). apply jsstring_eqb_eq in E. now subst.
  - intros I. exists s. split; [exact I | apply jsstring_eqb_refl].
Qed.

(** The two helpers do not accept the same files: of the files
    [validateImage] accepts, [handleFileUpload] turns away, with
    [triggerError] and without [setFile], exactly those of type
    [image/jpg] or [image/webp]. *)
Theorem handleFileUpload_rejects_valid_images (file : File) (onFileUpload : bool) :
  validateImage file = true ->
  (handleFileUpload (Some file) onFileUpload = [TriggerError]
   <-> file_type file = str "image/jpg" \/ file_type file = str "image/webp")
  /\ (handleFileUpload (Some file) onFileUpload
      = SetFile file :: (if onFileUpload then [OnFileUpload file] else [])
      <-> file_type file = str "image/png" \/ file_type file = str "image/jpeg").
Proof.
  intros V. unfold validateImage in V. apply array_includes_in in V.
  unfold handleFileUpload. destruct file as [t size]. simpl in *.
  destruct V as [<- | [<- | [<- | [<- | []]]]]; simpl;
    (split;
     (split; intros H;
      [ first [ discriminate H | left; reflexivity | right; reflexivity ]
      | first [ reflexivity
              | destruct H as [H | H]; vm_compute in H; discriminate H ] ])).
Qed.

Lemma handleFileUpload_rejects_valid_images_witness :
  let file := {| file_type := str "image/webp"; file_size := 1000 |} in
  validateImage file = true
  /\ handleFileUpload (Some file) true = [TriggerError].
Proof.
  intros file.
  assert (V : validateImage file = true) by reflexivity.
  split; [exact V |].
  apply (proj1 (@handleFileUpload_rejects_valid_images file true V)).
  right. reflexivity.
Defined.

(* ===================================================================== *)
(** * The validators built on regular expressions *)
(* ===================================================================== *)

(** ** The matcher and what a pattern matches *)

Lemma repeat_matcher_unfold (m : matcher) (fuel min : nat) (max : option nat)
    (x : state) (c : continuation) :
  max <> Some O ->
  repeat_matcher m (S fuel) min max x c
  = let d : continuation := fun y =>
      if (Nat.eqb min 0 && Nat.eqb (fst y) (fst x))%bool then false
      else repeat_matcher m fuel (pred min) (option_map pred max) y c in
    if Nat.eqb min 0 then (m x d || c x)%bool else m x d.
Proof. intros H. destruct max as [[| k] |]; [contradiction | |]; reflexivity. Qed.

Lemma option_eq_dec_zero (max : option nat) : max = Some O \/ max <> Some O.
Proof. destruct max as [[| k] |]; [left; reflexivity | right | right]; discriminate. Qed.

Lemma repeat_matcher_spec (m : matcher) (P : nat -> jsstring -> jsstring -> Prop) :
  matcher_spec m P ->
  forall fuel min max n input c,
    (min + length input < fuel)%nat ->
    (repeat_matcher m fuel min max (n, input) c = true
     <-> exists s rest, input = s ++ rest /\ repeated P min max n s rest
                        /\ c (n + length s, rest) = true).
Proof.
  intros Hm. induction fuel as [| fuel IH]; intros min max n input c F; [lia |].
  destruct (option_eq_dec_zero max) as [-> | Hmax].
  { simpl. split.
    - intros C. exists [], input. rewrite Nat.add_0_r.
      repeat split; [constructor; auto | exact C].
    - intros (s & rest & E & R & C). inversion R; subst; [| congruence].
      simpl in *. now rewrite Nat.add_0_r in C. }
  rewrite repeat_matcher_unfold by exact Hmax. cbv zeta.
  match goal with |- context [m (n, input) ?k] => set (d := k) end.
  assert (Hd : forall s1 rest1,
    input = s1 ++ rest1 ->
    (d (n + length s1, rest1)%nat = true
     <-> (min = O -> s1 <> [])
         /\ exists s2 rest, rest1 = s2 ++ rest
              /\ repeated P (pred min) (option_map pred max)
                   (n + length s1) s2 rest
              /\ c (n + length s1 + length s2, rest)%nat = true)).
  { intros s1 rest1 E. unfold d. simpl fst.
    assert (L : length input = (length s1 + length rest1)%nat)
      by (rewrite E; apply length_app).
    destruct (Nat.eqb_spec min 0) as [M | M];
      [destruct (Nat.eqb_spec (n + length s1) n) as [Z | Z] |]; simpl andb;
      cbv iota.
    - split; [discriminate |]. intros [Ne _]. destruct s1; [now elim Ne |].
      simpl in Z. lia.
    - rewrite IH by (destruct s1; simpl in *; lia).
      split; [intros H; split; [intros _ ->; simpl in Z; lia | exact H]
             | intros [_ H]; exact H].
    - rewrite IH by lia.
      split; [intros H; split; [intros; contradiction | exact H]
             | intros [_ H]; exact H]. }
  assert (Step : m (n, input) d = true
    <-> exists s1 s2 rest, input = (s1 ++ s2) ++ rest
          /\ P n s1 (s2 ++ rest) /\ (min = O -> s1 <> [])
          /\ repeated P (pred min) (option_map pred max) (n + length s1) s2 rest
          /\ c (n + length (s1 ++ s2), rest)%nat = true).
  { rewrite (Hm n input d). split.
    - intros (s1 & rest1 & E & Hp & D).
      apply (Hd s1 rest1 E) in D. destruct D as (Ne & s2 & rest & E2 & R & C).
      exists s1, s2, rest. subst rest1.
      rewrite length_app, Nat.add_assoc, <- app_assoc. auto.
    - intros (s1 & s2 & rest & E & Hp & Ne & R & C).
      exists s1, (s2 ++ rest). rewrite <- app_assoc in E.
      split; [exact E |]. split; [exact Hp |].
      apply (Hd s1 (s2 ++ rest) E). split; [exact Ne |].
      exists s2, rest. rewrite length_app, Nat.add_assoc in C. auto. }
  clear Hd. clearbody d.
  destruct (Nat.eqb_spec min 0) as [M | M].
  - rewrite orb_true_iff, Step. split.
    + intros [(s1 & s2 & rest & E & Hp & Ne & R & C) | C].
      * exists (s1 ++ s2), rest. split; [exact E |]. split; [| exact C].
        now apply repeated_step.
      * exists [], input. rewrite Nat.add_0_r.
        repeat split; [constructor; auto | exact C].
    + intros (s & rest & E & R & C). inversion R; subst.
      * right. simpl in *. now rewrite Nat.add_0_r in C.
      * left. eexists _, _, _. eauto 10.
  - rewrite Step. split.
    + intros (s1 & s2 & rest & E & Hp & Ne & R & C).
      exists (s1 ++ s2), rest. split; [exact E |]. split; [| exact C].
      now apply repeated_step.
    + intros (s & rest & E & R & C). inversion R; subst.
      * destruct H; congruence.
      * eexists _, _, _. eauto 10.
Qed.

(** The matcher of a pattern succeeds exactly on what the pattern
    matches. *)
Lemma match_regex_spec (r : regex) : matcher_spec (match_regex r) (matches r).
Proof.
  induction r as [| ch | cls | a IHa b IHb | a IHa b IHb | min max a IHa
                  | a IHa | a IHa | |]; intros n input c;
    cbn [match_regex matches fst snd].
  - split.
    + intros C. exists [], input. rewrite Nat.add_0_r. auto.
    + intros (s & rest & -> & -> & C). now rewrite Nat.add_0_r in C.
  - destruct input as [| x input].
    + split; [discriminate |].
      intros (s & rest & E & -> & _). discriminate E.
    + destruct (cu_eqb x ch) eqn:Ex.
      * apply N.eqb_eq in Ex. subst x. split.
        -- intros C. exists [ch], input. rewrite Nat.add_1_r. auto.
        -- intros (s & rest & E & -> & C). injection E as <-.
           now rewrite Nat.add_1_r in C.
      * split; [discriminate |].
        intros (s & rest & E & -> & _). injection E as -> _.
        unfold cu_eqb in Ex. now rewrite N.eqb_refl in Ex.
  - destruct input as [| x input].
    + split; [discriminate |].
      intros (s & rest & E & (y & -> & _) & _). discriminate E.
    + destruct (cls x) eqn:Ex.
      * split.
        -- intros C. exists [x], input. rewrite Nat.add_1_r. eauto 6.
        -- intros (s & rest & E & (y & -> & _) & C). injection E as <- <-.
           now rewrite Nat.add_1_r in C.
      * split; [discriminate |].
        intros (s & rest & E & (y & -> & Hy) & _). injection E as -> _.
        congruence.
  - rewrite (IHa n input). split.
    + intros (s1 & rest1 & E1 & Ha & Hb). apply IHb in Hb.
      destruct Hb as (s2 & rest & E2 & Hb & C). subst.
      exists (s1 ++ s2), rest. rewrite length_app, Nat.add_assoc, <- app_assoc.
      split; [reflexivity |]. split; [| exact C]. eauto 6.
    + intros (s & rest & E & (s1 & s2 & -> & Ha & Hb) & C).
      exists s1, (s2 ++ rest). rewrite <- app_assoc in E.
      split; [exact E |]. split; [exact Ha |]. apply IHb.
      exists s2, rest. rewrite length_app, Nat.add_assoc in C. auto.
  - rewrite orb_true_iff, (IHa n input c), (IHb n input c). split.
    + intros [(s & rest & E & H & C) | (s & rest & E & H & C)];
        exists s, rest; auto.
    + intros (s & rest & E & [H | H] & C); [left | right]; eauto.
  - apply (repeat_matcher_spec IHa). lia.
  - pose proof (IHa n input (fun _ => true)) as T.
    destruct (match_regex a (n, input) (fun _ => true)).
    + destruct (proj1 T eq_refl) as (p & q & E & Hp & _). split.
      * intros C. exists [], input. rewrite Nat.add_0_r. eauto 8.
      * intros (s & rest & E' & (-> & _) & C). simpl in *. subst.
        now rewrite Nat.add_0_r in C.
    + split; [discriminate |].
      intros (s & rest & E & (-> & p & q & E' & Hp) & _). simpl in E. subst.
      assert (F : false = true) by (apply T; eauto). discriminate F.
  - pose proof (IHa n input (fun _ => true)) as T.
    destruct (match_regex a (n, input) (fun _ => true)).
    + split; [discriminate |].
      destruct (proj1 T eq_refl) as (p & q & E & Hp & _).
      intros (s & rest & E' & (-> & N) & _). simpl in E'. subst.
      elim N. eauto.
    + split.
      * intros C. exists [], input. rewrite Nat.add_0_r.
        repeat split; auto.
        intros (p & q & E & Hp).
        assert (F : false = true) by (apply T; eauto). discriminate F.
      * intros (s & rest & E' & (-> & _) & C). simpl in *. subst.
        now rewrite Nat.add_0_r in C.
  - destruct (Nat.eqb_spec n 0) as [-> | N0].
    + split.
      * intros C. exists [], input. auto.
      * intros (s & rest & E & (-> & _) & C). simpl in *. now subst.
    + split; [discriminate |]. intros (s & rest & _ & (_ & N) & _).
      contradiction.
  - destruct input as [| x input].
    + split.
      * intros C. exists [], []. rewrite Nat.add_0_r. auto.
      * intros (s & rest & E & (-> & ->) & C). now rewrite Nat.add_0_r in C.
    + split; [discriminate |].
      intros (s & rest & E & (-> & ->) & _). discriminate E.
Qed.

(** A pattern that begins with [^] is tested from index 0 only. *)
Lemma regex_test_bol (r : regex) (s : jsstring) :
  regex_test (Seq Bol r) s = true
  <-> exists s1 rest, s = s1 ++ rest /\ matches r 0 s1 rest.
Proof.
  unfold regex_test. rewrite existsb_exists. split.
  - intros (i & _ & M). apply match_regex_spec in M.
    destruct M as (x & rest & E & (s0 & s1 & -> & (-> & ->) & Hr) & _).
    simpl in *. eauto.
  - intros (s1 & rest & E & Hr). exists 0%nat. split; [simpl; auto |].
    apply match_regex_spec. exists s1, rest. simpl skipn.
    split; [exact E |]. split; [| reflexivity].
    exists [], s1. simpl. auto.
Qed.

(** ** What the building blocks match *)

Lemma matches_lit (w : string) : forall n s rest,
  matches (lit w) n s rest <-> s = str w.
Proof.
  induction w as [| c w IH]; intros n s rest; [reflexivity |].
  destruct w as [| c' w']; [reflexivity |].
  change (lit (String c (String c' w')))
    with (Seq (Char (N_of_ascii c)) (lit (String c' w'))).
  cbn [matches]. split.
  - intros (s1 & s2 & -> & -> & H). apply IH in H. now subst.
  - intros ->. exists [N_of_ascii c], (str (String c' w')).
    split; [reflexivity |]. split; [reflexivity |]. now apply IH.
Qed.

(** [cls{min,max}]: that many characters of the class. *)
Lemma repeated_class (cls : code_unit -> bool) :
  forall s min max n rest,
    match max with Some m => (min <= m)%nat | None => True end ->
    (repeated (matches (Class cls)) min max n s rest
     <-> Forall (fun c => cls c = true) s
         /\ (min <= length s)%nat
         /\ match max with Some m => (length s <= m)%nat | None => True end).
Proof.
  intros s min max n rest B. split.
  - intros R. revert B.
    induction R as [min max n rest [-> | ->]
                   | min max n s1 s2 rest Hmax (a & -> & Ha) Ne R IH]; intros B.
    + simpl. repeat split; auto.
    + simpl. repeat split; auto; try (destruct max; lia).
    + destruct IH as (F & L & U).
      { destruct max as [[| m] |]; simpl; auto; lia. }
      simpl. split; [constructor; assumption |].
      split; [lia |].
      destruct max as [[| m] |]; simpl in *; auto; try congruence; lia.
  - revert min max n B.
    induction s as [| a s IH]; intros min max n B (F & L & U).
    + constructor. right. simpl in L. lia.
    + inversion F as [| ? ? Ha Fs]; subst.
      change (a :: s) with ([a] ++ s). apply repeated_step.
      * intros ->. simpl in U. lia.
      * cbn [matches]. eauto.
      * discriminate.
      * apply IH.
        -- destruct max as [[| m] |]; simpl in *; auto; lia.
        -- split; [exact Fs |]. split; [simpl in L; lia |].
           destruct max as [[| m] |]; simpl in *; auto; lia.
Qed.

(** [a?]: nothing, or a match of [a] that is not empty. *)
Lemma repeated_optional (P : nat -> jsstring -> jsstring -> Prop) n s rest :
  repeated P 0 (Some 1%nat) n s rest
  <-> s = [] \/ (s <> [] /\ P n s rest).
Proof.
  split.
  - intros R. inversion R as [| ? ? ? s1 s2 ? _ Hp Ne R']; subst; [now left |].
    right. inversion R' as [| ? ? ? ? ? ? Hmax]; subst;
      [| simpl in Hmax; congruence].
    rewrite app_nil_r. simpl in Hp. split; [now apply Ne | exact Hp].
  - intros [-> | [Ne Hp]]; [constructor; now right |].
    rewrite <- (app_nil_r s). apply repeated_step; try discriminate; auto.
    constructor. now left.
Qed.

(** Exactly [k] characters of a class. *)
Lemma matches_exactly (cls : code_unit -> bool) (k n : nat) (s rest : jsstring) :
  matches (Repeat k (Some k) (Class cls)) n s rest
  <-> length s = k /\ Forall (fun c => cls c = true) s.
Proof.
  change (matches (Repeat k (Some k) (Class cls)) n s rest)
    with (repeated (matches (Class cls)) k (Some k) n s rest).
  rewrite repeated_class by (simpl; lia). intuition lia.
Qed.

(** One character of a class or more. *)
Lemma matches_some (cls : code_unit -> bool) (n : nat) (s rest : jsstring) :
  matches (Repeat 1 None (Class cls)) n s rest
  <-> s <> [] /\ Forall (fun c => cls c = true) s.
Proof.
  change (matches (Repeat 1 None (Class cls)) n s rest)
    with (repeated (matches (Class cls)) 1 None n s rest).
  rewrite repeated_class by exact I.
  destruct s; simpl; intuition (try congruence; lia).
Qed.

(** ** isValidZipCode *)

(** [isValidZipCode] accepts five decimal digits, and five decimal digits
    followed by a dash and four decimal digits, and nothing else. *)
Theorem isValidZipCode_iff (zipCode : jsstring) :
  isValidZipCode zipCode = true
  <-> (length zipCode = 5%nat /\ Forall (fun c => is_digit c = true) zipCode)
      \/ exists a b,
           zipCode = a ++ char_dash :: b
           /\ length a = 5%nat /\ length b = 4%nat
           /\ Forall (fun c => is_digit c = true) a
           /\ Forall (fun c => is_digit c = true) b.
Proof.
  unfold isValidZipCode, zipRegex. rewrite regex_test_bol. split.
  - intros (s1 & rest & -> & a & t & -> & Ha & o & e & -> & Ho & -> & ->).
    apply matches_exactly in Ha. destruct Ha as [La Fa].
    cbn [matches] in Ho. apply repeated_optional in Ho.
    rewrite !app_nil_r.
    destruct Ho as [-> | [_ (d & b & -> & Hd & Hb)]].
    + left. rewrite app_nil_r. auto.
    + right. apply (matches_lit "-") in Hd. subst d.
      apply matches_exactly in Hb. destruct Hb as [Lb Fb].
      exists a, b. auto.
  - intros [[L F] | (a & b & -> & La & Lb & Fa & Fb)].
    + exists zipCode, []. rewrite app_nil_r. split; [reflexivity |].
      exists zipCode, []. rewrite app_nil_r. split; [reflexivity |].
      split; [apply matches_exactly; auto |].
      exists [], []. split; [reflexivity |].
      split; [cbn [matches]; apply repeated_optional; now left |].
      split; reflexivity.
    + exists (a ++ char_dash :: b), []. rewrite app_nil_r.
      split; [reflexivity |].
      exists a, (char_dash :: b). split; [reflexivity |].
      split; [apply matches_exactly; auto |].
      exists (char_dash :: b), []. rewrite app_nil_r. split; [reflexivity |].
      split; [| split; reflexivity].
      cbn [matches]. apply repeated_optional. right.
      split; [discriminate |].
      exists [char_dash], b. split; [reflexivity |].
      split; [now apply (matches_lit "-") | apply matches_exactly; auto].
Qed.

(** ** isValidEmail *)

Lemma isValidEmail_parts (email : jsstring) :
  isValidEmail email = true
  <-> exists user domain tld,
        email = user ++ char_at_sign :: domain ++ char_dot :: tld
        /\ user <> [] /\ domain <> [] /\ tld <> []
        /\ Forall (fun c => is_email_char c = true) (user ++ domain ++ tld).
Proof.
  unfold isValidEmail, emailRegex. rewrite regex_test_bol. split.
  - intros (s1 & rest & -> & u & t1 & -> & Hu & a & t2 & -> & Ha
            & d & t3 & -> & Hd & p & t4 & -> & Hp & t & e & -> & Ht & -> & ->).
    apply matches_some in Hu, Hd, Ht.
    apply (matches_lit "@") in Ha. apply (matches_lit ".") in Hp. subst a p.
    exists u, d, t. rewrite !app_nil_r.
    destruct Hu as [Nu Fu], Hd as [Nd Fd], Ht as [Nt Ft].
    repeat split; auto. repeat (apply Forall_app; split); auto.
  - intros (u & d & t & -> & Nu & Nd & Nt & F).
    apply Forall_app in F. destruct F as [Fu F].
    apply Forall_app in F. destruct F as [Fd Ft].
    exists (u ++ char_at_sign :: d ++ char_dot :: t), [].
    rewrite app_nil_r. split; [reflexivity |].
    exists u, (char_at_sign :: d ++ char_dot :: t). split; [reflexivity |].
    split; [apply matches_some; auto |].
    exists [char_at_sign], (d ++ char_dot :: t). split; [reflexivity |].
    split; [now apply (matches_lit "@") |].
    exists d, (char_dot :: t). split; [reflexivity |].
    split; [apply matches_some; auto |].
    exists [char_dot], t. split; [reflexivity |].
    split; [now apply (matches_lit ".") |].
    exists t, []. rewrite app_nil_r. split; [reflexivity |].
    split; [apply matches_some; auto | split; reflexivity].
Qed.

(** [isValidEmail] accepts exactly the strings [user@domain.tld] in which
    [user], [domain] and [tld] are not empty and hold neither white space
    nor ['@']; a dot may be anywhere in them. *)
Theorem isValidEmail_iff (email : jsstring) :
  isValidEmail email = true
  <-> exists user domain tld,
        email = user ++ char_at_sign :: domain ++ char_dot :: tld
        /\ user <> [] /\ domain <> [] /\ tld <> []
        /\ Forall (fun c => is_email_char c = true) (user ++ domain ++ tld).
Proof. apply isValidEmail_parts. Qed.

Lemma email_char_facts (c : code_unit) :
  is_email_char c = true -> is_space c = false /\ c <> char_at_sign.
Proof.
  unfold is_email_char. rewrite negb_true_iff, orb_false_iff.
  intros [S A]. split; [exact S |]. intros ->.
  unfold cu_eqb in A. now rewrite N.eqb_refl in A.
Qed.

Lemma count_char_none (c : code_unit) (s : jsstring) :
  Forall (fun x => x <> c) s -> count_char c s = 0%nat.
Proof.
  unfold count_char. induction 1 as [| x s Hx _ IH]; simpl; [reflexivity |].
  replace (cu_eqb c x) with false; [exact IH |].
  symmetry. apply not_true_iff_false. intros E. apply N.eqb_eq in E.
  now subst.
Qed.

(** An address [isValidEmail] accepts holds exactly one ['@'] and no
    white space, has at least five characters, and has a dot somewhere
    after the ['@']. *)
Theorem isValidEmail_shape (email : jsstring) :
  isValidEmail email = true ->
  count_char char_at_sign email = 1%nat
  /\ Forall (fun c => is_space c = false) email
  /\ (5 <= length email)%nat
  /\ exists user host,
       email = user ++ char_at_sign :: host /\ In char_dot host.
Proof.
  intros V. apply isValidEmail_parts in V.
  destruct V as (u & d & t & -> & Nu & Nd & Nt & F).
  apply Forall_app in F. destruct F as [Fu F].
  apply Forall_app in F. destruct F as [Fd Ft].
  assert (NA : forall x, Forall (fun c => is_email_char c = true) x ->
                         Forall (fun c => c <> char_at_sign) x).
  { intros x Fx. eapply Forall_impl; [| exact Fx].
    intros c Hc. now apply email_char_facts. }
  assert (NS : forall x, Forall (fun c => is_email_char c = true) x ->
                         Forall (fun c => is_space c = false) x).
  { intros x Fx. eapply Forall_impl; [| exact Fx].
    intros c Hc. now apply email_char_facts. }
  split; [| split; [| split]].
  - change (u ++ char_at_sign :: d ++ char_dot :: t)
      with (u ++ [char_at_sign] ++ d ++ [char_dot] ++ t).
    rewrite !count_char_app.
    rewrite (count_char_none (NA u Fu)), (count_char_none (NA d Fd)),
      (count_char_none (NA t Ft)).
    reflexivity.
  - apply Forall_app. split; [auto |]. constructor; [reflexivity |].
    apply Forall_app. split; [auto |]. constructor; [reflexivity | auto].
  - rewrite length_app. simpl. rewrite length_app. simpl.
    destruct u; [congruence |]. destruct d; [congruence |].
    destruct t; [congruence |]. simpl. lia.
  - exists u, (d ++ char_dot :: t). split; [reflexivity |].
    apply in_or_app. right. now left.
Qed.

Lemma isValidEmail_shape_witness :
  isValidEmail (str "user@example.com") = true
  /\ count_char char_at_sign (str "user@example.com") = 1%nat.
Proof.
  assert (V : isValidEmail (str "user@example.com") = true) by reflexivity.
  split; [exact V |].
  exact (proj1 (@isValidEmail_shape (str "user@example.com") V)).
Defined.

(** ** isValidSSN *)

Lemma app_eq_length (A : Type) (a b x y : list A) :
  length a = length b -> a ++ x = b ++ y -> a = b /\ x = y.
Proof.
  revert b. induction a as [| c a IH]; intros [| d b] L E;
    simpl in *; try discriminate; [auto |].
  injection E as -> E. injection L as L.
  destruct (IH b L E) as [-> ->]. auto.
Qed.

(** A lookahead for fixed text: the text begins what follows. *)
Lemma ahead_lit (w : string) (a x : jsstring) (n : nat) :
  length a = length (str w) ->
  (exists p q, a ++ x = p ++ q /\ matches (lit w) n p q) <-> a = str w.
Proof.
  intros L. split.
  - intros (p & q & E & M). apply matches_lit in M. subst p.
    now destruct (app_eq_length _ _ _ _ L E).
  - intros ->. exists (str w), x. split; [reflexivity | now apply matches_lit].
Qed.

(** [isValidSSN] accepts, after removing white space and dashes, nine
    decimal digits - area, group, serial - with an area that is neither
    000 nor 666 nor begins with 9, a group that is not 00 and a serial
    that is not 0000; and nothing else. *)
Theorem isValidSSN_iff (ssn : jsstring) :
  isValidSSN ssn = true
  <-> exists area group serial,
        strip_whitespace_dashes ssn = area ++ group ++ serial
        /\ length area = 3%nat /\ length group = 2%nat
        /\ length serial = 4%nat
        /\ Forall (fun c => is_digit c = true) (area ++ group ++ serial)
        /\ area <> str "000" /\ area <> str "666"
        /\ (forall r, area <> 57%N :: r)
        /\ group <> str "00" /\ serial <> str "0000".
Proof.
  unfold isValidSSN, ssnRegex. rewrite remove_ws_dashes, regex_test_bol.
  set (cleaned := strip_whitespace_dashes ssn). clearbody cleaned.
  split.
  - intros (s1 & rest & -> & x0 & t0 & -> & (-> & N1)
            & a & t1 & -> & Ha & x1 & t2 & -> & (-> & N2)
            & g & t3 & -> & Hg & x2 & t4 & -> & (-> & N3)
            & n & e & -> & Hn & -> & ->).
    apply matches_exactly in Ha, Hg, Hn.
    destruct Ha as [La Fa], Hg as [Lg Fg], Hn as [Ln Fn].
    simpl app in *. rewrite !app_nil_r in *.
    exists a, g, n. split; [reflexivity |].
    repeat split; auto.
    + repeat (apply Forall_app; split); auto.
    + intros ->. apply N1. exists (str "000"), (g ++ n).
      split; [reflexivity |]. left. now apply (matches_lit "000").
    + intros ->. apply N1. exists (str "666"), (g ++ n).
      split; [reflexivity |]. right. left. now apply (matches_lit "666").
    + intros r ->. apply N1. exists (57%N :: r), (g ++ n).
      split; [reflexivity |]. right. right.
      exists [57%N], r. split; [reflexivity |].
      split; [now apply (matches_lit "9") |].
      apply matches_exactly. inversion Fa; subst. simpl in La. split; [lia | auto].
    + intros ->. apply N2. exists (str "00"), n.
      split; [reflexivity |]. now apply (matches_lit "00").
    + intros ->. apply N3. exists (str "0000"), [].
      split; [reflexivity |]. now apply (matches_lit "0000").
  - intros (a & g & n & -> & La & Lg & Ln & F & A0 & A6 & A9 & G0 & S0).
    apply Forall_app in F. destruct F as [Fa F].
    apply Forall_app in F. destruct F as [Fg Fn].
    exists (a ++ g ++ n), []. rewrite app_nil_r. split; [reflexivity |].
    exists [], (a ++ g ++ n). split; [reflexivity |]. split.
    { split; [reflexivity |]. rewrite app_nil_r.
      intros (p & q & E & [M | [M | (p1 & p2 & -> & M1 & M2)]]).
      - apply A0. apply (ahead_lit "000" a (g ++ n) 0); [exact La | eauto].
      - apply A6. apply (ahead_lit "666" a (g ++ n) 0); [exact La | eauto].
      - apply (matches_lit "9") in M1. subst p1.
        apply matches_exactly in M2. destruct M2 as [L2 _].
        assert (L : length a = length (str "9" ++ p2))
          by (rewrite length_app, La, L2; reflexivity).
        destruct (app_eq_length _ _ _ _ L E) as [Ea _].
        now apply (A9 p2). }
    exists a, (g ++ n). split; [reflexivity |].
    split; [apply matches_exactly; auto |].
    exists [], (g ++ n). split; [reflexivity |]. split.
    { split; [reflexivity |]. rewrite app_nil_r. intros H.
      apply G0. apply (ahead_lit "00" g n (0 + length a)); [exact Lg | exact H]. }
    exists g, n. split; [reflexivity |].
    split; [apply matches_exactly; auto |].
    exists [], n. split; [reflexivity |]. split.
    { split; [reflexivity |]. rewrite app_nil_r. intros (p & q & E & M).
      apply S0. apply matches_lit in M. subst p.
      rewrite <- (app_nil_r n) in E.
      now destruct (@app_eq_length _ n (str "0000") [] q Ln E). }
    exists n, []. rewrite app_nil_r. split; [reflexivity |].
    split; [apply matches_exactly; auto | split; reflexivity].
Qed.

(** ** isValidIpAddress *)

Lemma in_range_iff (lo hi c : code_unit) :
  in_range lo hi c = true <-> (lo <= c <= hi)%N.
Proof. unfold in_range. rewrite andb_true_iff, !N.leb_le. tauto. Qed.

Lemma is_digit_iff (c : code_unit) : is_digit c = true <-> (48 <= c <= 57)%N.
Proof. apply in_range_iff. Qed.

Lemma is_zero_or_one_iff (c : code_unit) :
  is_zero_or_one c = true <-> c = 48%N \/ c = 49%N.
Proof.
  unfold is_zero_or_one, cu_eqb. rewrite orb_true_iff, !N.eqb_eq. tauto.
Qed.

Lemma matches_class (cls : code_unit -> bool) n s rest :
  matches (Class cls) n s rest <-> exists a, s = [a] /\ cls a = true.
Proof. reflexivity. Qed.

(** [cls?]: nothing or one character of the class. *)
Lemma matches_optional_class (cls : code_unit -> bool) n s rest :
  matches (Repeat 0 (Some 1%nat) (Class cls)) n s rest
  <-> s = [] \/ exists a, s = [a] /\ cls a = true.
Proof.
  change (matches (Repeat 0 (Some 1%nat) (Class cls)) n s rest)
    with (repeated (matches (Class cls)) 0 (Some 1%nat) n s rest).
  rewrite repeated_optional. split.
  - intros [-> | [_ H]]; [now left | now right].
  - intros [-> | (a & -> & H)]; [now left |].
    right. split; [discriminate |]. exists a. auto.
Qed.

Lemma is_octet_iff (o : jsstring) :
  is_octet o = true
  <-> Forall (fun c => is_digit c = true) o
      /\ (1 <= length o <= 3)%nat /\ (decimal_value o <= 255)%Z.
Proof.
  unfold is_octet.
  rewrite !andb_true_iff, forallb_forall, Forall_forall, !Nat.leb_le, Z.leb_le.
  tauto.
Qed.

(** The pattern of an octet matches one to three decimal digits that
    write a number up to 255. *)
Lemma matches_octet (n : nat) (s rest : jsstring) :
  matches octet n s rest <-> is_octet s = true.
Proof.
  rewrite is_octet_iff. unfold octet. cbn [matches]. split.
  - intros [(p & c & -> & Hp & Hc)
           | [(p & t & -> & Hp & b & c & -> & Hb & Hc)
             | (z & t & -> & Hz & b & o & -> & Hb & Ho)]].
    + apply (matches_lit "25") in Hp. subst p.
      destruct Hc as (x & -> & Hx). apply in_range_iff in Hx.
      change (str "25" ++ [x]) with [50%N; 53%N; x].
      split; [| split; [simpl; lia |]].
      * repeat constructor; try reflexivity. apply is_digit_iff. lia.
      * unfold decimal_value, digit_value. cbn [fold_left]. lia.
    + apply (matches_lit "2") in Hp. subst p.
      destruct Hb as (x & -> & Hx). destruct Hc as (y & -> & Hy).
      apply in_range_iff in Hx. apply is_digit_iff in Hy.
      change (str "2" ++ [x] ++ [y]) with [50%N; x; y].
      split; [| split; [simpl; lia |]].
      * repeat constructor; try reflexivity; apply is_digit_iff; lia.
      * unfold decimal_value, digit_value. cbn [fold_left]. lia.
    + apply matches_optional_class in Hz, Ho.
      destruct Hb as (x & -> & Hx). apply is_digit_iff in Hx.
      assert (Fz : Forall (fun c => is_digit c = true) z /\ (length z <= 1)%nat
                   /\ (z = [] \/ exists a, z = [a] /\ (a = 48 \/ a = 49)%N)).
      { destruct Hz as [-> | (a & -> & Ha)].
        - repeat split; auto.
        - apply is_zero_or_one_iff in Ha. repeat split; eauto.
          repeat constructor. apply is_digit_iff. lia. }
      assert (Fo : Forall (fun c => is_digit c = true) o /\ (length o <= 1)%nat).
      { destruct Ho as [-> | (a & -> & Ha)]; split; auto. }
      destruct Fz as (Fz & Lz & Cz). destruct Fo as (Fo & Lo).
      split; [| split].
      * apply Forall_app. split; [exact Fz |].
        constructor; [apply is_digit_iff; lia | exact Fo].
      * rewrite length_app. simpl. lia.
      * destruct Cz as [-> | (a & -> & Ha)];
          destruct Ho as [-> | (y & -> & Hy)];
          try apply is_digit_iff in Hy;
          unfold decimal_value, digit_value; cbn [fold_left app]; lia.
  - intros (F & L & V).
    destruct s as [| a [| b [| c [| d s]]]]; simpl in L; try lia.
    + inversion F as [| ? ? Ha _]; subst. apply is_digit_iff in Ha.
      right. right. exists [], [a]. split; [reflexivity |].
      split; [apply matches_optional_class; now left |].
      exists [a], []. split; [reflexivity |].
      split; [exists a; split; [reflexivity | apply is_digit_iff; lia] |].
      apply matches_optional_class. now left.
    + inversion F as [| ? ? Ha F1]; subst.
      inversion F1 as [| ? ? Hb _]; subst.
      right. right. exists [], [a; b]. split; [reflexivity |].
      split; [apply matches_optional_class; now left |].
      exists [a], [b]. split; [reflexivity |].
      split; [exists a; auto |].
      apply matches_optional_class. right. exists b. auto.
    + inversion F as [| ? ? Ha F1]; subst.
      inversion F1 as [| ? ? Hb F2]; subst.
      inversion F2 as [| ? ? Hc _]; subst.
      pose proof Ha as Ra. pose proof Hb as Rb. pose proof Hc as Rc.
      apply is_digit_iff in Ra, Rb, Rc.
      unfold decimal_value, digit_value in V. cbn [fold_left] in V.
      destruct (N.le_gt_cases a 49) as [A1 | A1].
      * right. right. exists [a], [b; c]. split; [reflexivity |].
        split; [apply matches_optional_class; right; exists a;
                split; [reflexivity | apply is_zero_or_one_iff; lia] |].
        exists [b], [c]. split; [reflexivity |].
        split; [exists b; auto |].
        apply matches_optional_class. right. exists c. auto.
      * assert (a = 50%N) by lia. subst a.
        destruct (N.le_gt_cases b 52) as [B1 | B1].
        -- right. left. exists [50%N], [b; c]. split; [reflexivity |].
           split; [now apply (matches_lit "2") |].
           exists [b], [c]. split; [reflexivity |].
           split; [exists b; split; [reflexivity | apply in_range_iff; lia] |].
           exists c. auto.
        -- assert (b = 53%N) by lia. subst b.
           left. exists [50%N; 53%N], [c]. split; [reflexivity |].
           split; [now apply (matches_lit "25") |].
           exists c. split; [reflexivity | apply in_range_iff; lia].
Qed.

Lemma regex_test_ipv4 (s : jsstring) :
  regex_test ipv4Regex s = true
  <-> exists o1 o2 o3 o4, is_dotted_quad_of s o1 o2 o3 o4.
Proof.
  unfold ipv4Regex, is_dotted_quad_of. rewrite regex_test_bol. split.
  - intros (s1 & rest & -> & o1 & t1 & -> & H1 & d1 & t2 & -> & D1
            & o2 & t3 & -> & H2 & d2 & t4 & -> & D2
            & o3 & t5 & -> & H3 & d3 & t6 & -> & D3
            & o4 & e & -> & H4 & -> & ->).
    apply matches_octet in H1, H2, H3, H4.
    apply (matches_lit ".") in D1, D2, D3. subst d1 d2 d3.
    exists o1, o2, o3, o4. rewrite !app_nil_r. auto.
  - intros (o1 & o2 & o3 & o4 & -> & H1 & H2 & H3 & H4).
    eexists _, []. rewrite app_nil_r. split; [reflexivity |].
    exists o1, (char_dot :: o2 ++ char_dot :: o3 ++ char_dot :: o4).
    split; [reflexivity |]. split; [now apply matches_octet |].
    exists [char_dot], (o2 ++ char_dot :: o3 ++ char_dot :: o4).
    split; [reflexivity |]. split; [now apply (matches_lit ".") |].
    exists o2, (char_dot :: o3 ++ char_dot :: o4).
    split; [reflexivity |]. split; [now apply matches_octet |].
    exists [char_dot], (o3 ++ char_dot :: o4).
    split; [reflexivity |]. split; [now apply (matches_lit ".") |].
    exists o3, (char_dot :: o4).
    split; [reflexivity |]. split; [now apply matches_octet |].
    exists [char_dot], o4.
    split; [reflexivity |]. split; [now apply (matches_lit ".") |].
    exists o4, []. rewrite app_nil_r.
    split; [reflexivity |]. split; [now apply matches_octet |].
    split; reflexivity.
Qed.

(** What [requires] reads off a pattern holds of its matches. *)
Lemma requires_sound (c : code_unit) (r : regex) : forall n s rest,
  requires c r = true -> matches r n s rest -> In c s.
Proof.
  induction r as [| ch | cls | a IHa b IHb | a IHa b IHb | min max a IHa
                  | a IHa | a IHa | |]; intros n s rest Q M;
    cbn [requires] in Q; try discriminate Q; cbn [matches] in M.
  - apply N.eqb_eq in Q. subst. now left.
  - destruct M as (s1 & s2 & -> & Ma & Mb). apply in_or_app.
    apply orb_true_iff in Q. destruct Q as [Q | Q]; [left | right]; eauto.
  - apply andb_true_iff in Q. destruct Q as [Qa Qb].
    destruct M as [M | M]; eauto.
  - apply andb_true_iff in Q. destruct Q as [Q Qa].
    apply andb_true_iff in Q. destruct Q as [Qm Qx].
    apply Nat.ltb_lt in Qm.
    inversion M as [? ? ? ? [E | E] | ? ? ? s1 s2 ? _ Ma]; subst.
    + discriminate Qx.
    + lia.
    + apply in_or_app. left. eauto.
Qed.

Lemma regex_test_ipv6_colon (s : jsstring) :
  regex_test ipv6Regex s = true -> In char_colon s.
Proof.
  unfold ipv6Regex. rewrite regex_test_bol.
  intros (s1 & rest & -> & x & e & -> & M & -> & ->).
  rewrite !app_nil_r.
  apply (@requires_sound char_colon (alternatives ipv6_alternatives)
           _ _ _ eq_refl M).
Qed.

Lemma octet_no_colon (o : jsstring) : is_octet o = true -> ~ In char_colon o.
Proof.
  intros H I. apply is_octet_iff in H. destruct H as (F & _).
  rewrite Forall_forall in F. specialize (F _ I). discriminate F.
Qed.

(** [isValidIpAddress] accepts every dotted quad of octets, an octet
    being one to three decimal digits that write a number up to 255
    (zeros in front are allowed); and whatever else it accepts holds a
    colon. *)
Theorem isValidIpAddress_dotted_quad (ip : jsstring) :
  ((exists o1 o2 o3 o4, is_dotted_quad_of ip o1 o2 o3 o4) ->
   isValidIpAddress ip = true)
  /\ (isValidIpAddress ip = true ->
      (exists o1 o2 o3 o4, is_dotted_quad_of ip o1 o2 o3 o4)
      \/ In char_colon ip)
  /\ (~ In char_colon ip ->
      (isValidIpAddress ip = true
       <-> exists o1 o2 o3 o4, is_dotted_quad_of ip o1 o2 o3 o4)).
Proof.
  unfold isValidIpAddress.
  assert (A : (exists o1 o2 o3 o4, is_dotted_quad_of ip o1 o2 o3 o4) ->
              (regex_test ipv4Regex ip || regex_test ipv6Regex ip)%bool = true).
  { intros H. apply regex_test_ipv4 in H. now rewrite H. }
  assert (B : (regex_test ipv4Regex ip || regex_test ipv6Regex ip)%bool = true ->
              (exists o1 o2 o3 o4, is_dotted_quad_of ip o1 o2 o3 o4)
              \/ In char_colon ip).
  { intros H. apply orb_true_iff in H. destruct H as [H | H].
    - left. now apply regex_test_ipv4.
    - right. now apply regex_test_ipv6_colon. }
  split; [exact A |]. split; [exact B |].
  intros N. split; [| exact A].
  intros H. destruct (B H) as [Q | C]; [exact Q | contradiction].
Qed.

(** A piece for each of [pieces], no more and no fewer. *)
Lemma repeated_pieces (P : nat -> jsstring -> jsstring -> Prop)
    (pieces : list jsstring) :
  (forall p, In p pieces -> forall n rest, P n p rest) ->
  forall n rest,
    repeated P (length pieces) (Some (length pieces)) n (concat pieces) rest.
Proof.
  induction pieces as [| p pieces IH]; intros H n rest.
  - constructor. now left.
  - simpl concat. apply repeated_step.
    + discriminate.
    + apply H. now left.
    + discriminate.
    + apply IH. intros q I. apply H. now right.
Qed.

Lemma matches_h16 (g : jsstring) (n : nat) (rest : jsstring) :
  is_group g -> matches h16 n g rest.
Proof.
  intros [L F]. unfold h16.
  change (repeated (matches (Class is_hex)) 1 (Some 4%nat) n g rest).
  apply repeated_class; simpl; [lia |]. split; [exact F | lia].
Qed.

(** The full form of an IPv6 address is accepted: eight groups of one to
    four digits of radix 16, in either case, with colons between. *)
Theorem isValidIpAddress_full_ipv6 (groups : list jsstring) :
  length groups = 8%nat ->
  Forall is_group groups ->
  isValidIpAddress (join_with [char_colon] groups) = true.
Proof.
  intros L F. unfold isValidIpAddress. apply orb_true_iff. right.
  unfold ipv6Regex. apply regex_test_bol.
  do 8 (destruct groups as [| ?g groups]; [discriminate L |]).
  destruct groups; [| discriminate L].
  exists (join_with [char_colon] [g; g0; g1; g2; g3; g4; g5; g6]), [].
  rewrite app_nil_r. split; [reflexivity |].
  exists (join_with [char_colon] [g; g0; g1; g2; g3; g4; g5; g6]), [].
  rewrite app_nil_r. split; [reflexivity |].
  split; [| split; reflexivity].
  left.
  exists (concat (map (fun x => x ++ [char_colon]) [g; g0; g1; g2; g3; g4; g5])),
         g6.
  split; [simpl; repeat rewrite <- app_assoc; reflexivity |].
  split.
  - apply (repeated_pieces (matches h16_colon)
             (map (fun x => x ++ [char_colon]) [g; g0; g1; g2; g3; g4; g5])).
    intros p I n rest. apply in_map_iff in I. destruct I as (x & <- & I).
    exists x, [char_colon]. split; [reflexivity |].
    split; [| now apply (matches_lit ":")].
    apply matches_h16. rewrite Forall_forall in F. apply F.
    simpl in *. tauto.
  - apply matches_h16. rewrite Forall_forall in F. apply F. simpl. tauto.
Qed.

Lemma isValidIpAddress_full_ipv6_witness :
  let groups := map str ["2001"; "db8"; "0"; "0"; "0"; "0"; "0"; "1"]%string in
  length groups = 8%nat /\ Forall is_group groups
  /\ isValidIpAddress (str "2001:db8:0:0:0:0:0:1") = true.
Proof.
  intros groups.
  assert (L : length groups = 8%nat) by reflexivity.
  assert (F : Forall is_group groups)
    by (repeat constructor; simpl; lia).
  split; [exact L |]. split; [exact F |].
  exact (isValidIpAddress_full_ipv6 L F).
Defined.

(** ** The patterns of isValidPassword and isValidCreditCard, run by the matcher *)

Lemma ahead_dot_star (cls : code_unit -> bool) (n : nat) (input : jsstring) :
  (exists p q, input = p ++ q
     /\ matches (Seq (Repeat 0 None (Class is_dot_char)) (Class cls)) n p q)
  <-> lookahead cls input = true.
Proof.
  split.
  - intros (p & q & -> & d & x & -> & Hd & a & -> & Ha).
    change (repeated (matches (Class is_dot_char)) 0 None n d ([a] ++ q)) in Hd.
    apply repeated_class in Hd; [| exact I]. destruct Hd as (Fd & _).
    clear - Fd Ha. induction Fd as [| c d Hc _ IH]; simpl.
    + now rewrite Ha.
    + unfold is_dot_char in Hc. rewrite Hc. simpl in IH. rewrite IH.
      apply orb_true_r.
  - revert n. induction input as [| c r IH]; intros n; simpl; [discriminate |].
    intros H. apply orb_true_iff in H. destruct H as [H | H].
    + exists [c], r. split; [reflexivity |].
      exists [], [c]. split; [reflexivity |].
      split; [constructor; now right | exists c; auto].
    + apply andb_true_iff in H. destruct H as [Hc H].
      destruct (IH (S n) H) as (p & q & -> & d & x & -> & Hd & a & -> & Ha).
      change (repeated (matches (Class is_dot_char)) 0 None (S n) d ([a] ++ q))
        in Hd.
      apply repeated_class in Hd; [| exact I]. destruct Hd as (Fd & _).
      exists (c :: d ++ [a]), q. split; [reflexivity |].
      exists (c :: d), [a]. split; [reflexivity |]. split; [| exists a; auto].
      change (repeated (matches (Class is_dot_char)) 0 None n (c :: d) ([a] ++ q)).
      apply repeated_class; [exact I |].
      split; [constructor; [exact Hc | exact Fd] | simpl; split; [lia | exact I]].
Qed.

(** The pattern of [isValidPassword], run by the matcher, gives what
    [isValidPassword] is defined to give. *)
Lemma passwordRegex_test (password : jsstring) (minLength : nat) :
  regex_test (passwordRegex minLength) password
  = isValidPassword password minLength.
Proof.
  apply eq_iff_eq_true. unfold passwordRegex, isValidPassword.
  rewrite regex_test_bol, !andb_true_iff, forallb_forall, Nat.leb_le.
  rewrite <- !(ahead_dot_star _ 0 password), <- Forall_forall.
  split.
  - intros (s1 & rest & -> & x1 & t1 & -> & (-> & A1) & x2 & t2 & -> & (-> & A2)
            & x3 & t3 & -> & (-> & A3) & x4 & t4 & -> & (-> & A4)
            & b & e & -> & Hb & -> & ->).
    simpl app in *. rewrite !app_nil_r in *.
    change (repeated (matches (Class is_password_char)) minLength None
              (0 + length (@nil code_unit) + length (@nil code_unit)
               + length (@nil code_unit) + length (@nil code_unit)) b [])
      in Hb.
    apply repeated_class in Hb; [| exact I]. destruct Hb as (F & L & _).
    tauto.
  - intros ((((A1 & A2) & A3) & A4) & F & L).
    exists password, []. rewrite app_nil_r. split; [reflexivity |].
    exists [], password. split; [reflexivity |].
    split; [split; [reflexivity | now rewrite app_nil_r] |].
    exists [], password. split; [reflexivity |].
    split; [split; [reflexivity | now rewrite app_nil_r] |].
    exists [], password. split; [reflexivity |].
    split; [split; [reflexivity | now rewrite app_nil_r] |].
    exists [], password. split; [reflexivity |].
    split; [split; [reflexivity | now rewrite app_nil_r] |].
    exists password, []. rewrite app_nil_r. split; [reflexivity |].
    split; [| split; reflexivity].
    change (repeated (matches (Class is_password_char)) minLength None
              (0 + length (@nil code_unit) + length (@nil code_unit)
               + length (@nil code_unit) + length (@nil code_unit))
              password []).
    apply repeated_class; [exact I |]. auto.
Qed.

(** The pattern [/^\d{13,19}$/], run by the matcher, gives what
    [is_card_shape] is defined to give. *)
Lemma cardRegex_test (cleaned : jsstring) :
  regex_test cardRegex cleaned = is_card_shape cleaned.
Proof.
  apply eq_iff_eq_true. unfold cardRegex.
  rewrite regex_test_bol, is_card_shape_iff. split.
  - intros (s1 & rest & -> & b & e & -> & Hb & -> & ->).
    rewrite !app_nil_r.
    change (repeated (matches (Class is_digit)) 13 (Some 19%nat) 0 b []) in Hb.
    apply repeated_class in Hb; [| simpl; lia]. tauto.
  - intros (L & F).
    exists cleaned, []. rewrite app_nil_r. split; [reflexivity |].
    exists cleaned, []. rewrite app_nil_r. split; [reflexivity |].
    split; [| split; reflexivity].
    change (repeated (matches (Class is_digit)) 13 (Some 19%nat) 0 cleaned []).
    apply repeated_class; [simpl; lia |]. tauto.
Qed.
